(** * beyond_correlation: the discovery procedure of [discover.py]

    A shallow embedding of [labelencode_if_object] and [discover] together
    with the part of pandas that the two functions use, the properties
    of the discovery procedure that are stated in the specification, and
    further properties of the two functions.

    Python objects that the code binds to variables and that pandas can
    mutate (data frames) live in a store and are handled through
    references; estimators are objects of the store as well, so that
    "one instance per column" is a statement about allocation.  The store
    also holds the state of numpy's global random generator, which a
    random forest built without [random_state] draws from.  Series,
    scalars, dicts and the two result lists are values.  A Python exception
    is a [Raise] result; the store survives it. *)

From Stdlib Require Import ZArith QArith.
From stdpp Require Import base option list gmap strings.

Local Open Scope Z_scope.
Local Open Scope nat_scope.

(** ** Exceptions and results

    The exceptions of the two functions and of pandas where they use it;
    the library may raise any of them.  [ReferenceError] stands for the use
    of a reference that the store does not hold, which no run of the
    program from a store that holds its argument gets to. *)

Inductive exn : Type :=
| AssertionError (msg : string)
| ZeroDivisionError
| KeyError (key : string)
| AttributeError
| ValueError
| TypeError
| ReferenceError.

Inductive res (A : Type) : Type :=
| Ok (a : A)
| Raise (e : exn).
Arguments Ok {A} a.
Arguments Raise {A} e.

Definition res_bind {A B : Type} (f : A → res B) (r : res A) : res B :=
  match r with
  | Ok a => f a
  | Raise e => Raise e
  end.

Definition res_map {A B : Type} (f : A → B) (r : res A) : res B :=
  match r with
  | Ok a => Ok (f a)
  | Raise e => Raise e
  end.

Global Instance res_mret : MRet res := @Ok.
Global Instance res_mbind : MBind res := @res_bind.

Definition is_Ok {A : Type} (r : res A) : Prop := ∃ a, r = Ok a.

(** [mapM_res f l] runs [f] on the elements of [l] from left to right and
    stops at the first exception. *)
Fixpoint mapM_res {A B : Type} (f : A → res B) (l : list A) : res (list B) :=
  match l with
  | [] => Ok []
  | x :: l' => y ← f x; ys ← mapM_res f l'; Ok (y :: ys)
  end.

(** ** Estimators

    The two sklearn classes that [discover] instantiates, with the keyword
    arguments it passes. *)

Inductive estimator : Type :=
| RandomForestClassifier (n_estimators : Z) (random_state : option Z)
| RandomForestRegressor (n_estimators : Z) (random_state : option Z).

Definition is_classifier (e : estimator) : bool :=
  match e with
  | RandomForestClassifier _ _ => true
  | RandomForestRegressor _ _ => false
  end.

(** the [random_state] an estimator was built with *)
Definition seed_of (e : estimator) : option Z :=
  match e with
  | RandomForestClassifier _ random_state => random_state
  | RandomForestRegressor _ random_state => random_state
  end.

(** ** Python's [/] on two ints

    [a / b] raises [ZeroDivisionError] when [b] is zero and is the float
    nearest to the quotient otherwise; the quotient is kept exact here. *)

Definition true_div (a b : Z) : res Q :=
  if bool_decide (b = 0%Z) then Raise ZeroDivisionError
  else Ok (Qmake a (Z.to_pos b)).

(** ** Python's [repr] of a list of plain strings, as an f-string prints it *)

Definition repr_str (s : string) : string := "'" +:+ s +:+ "'".

Definition repr_list (l : list string) : string :=
  "[" +:+ String.concat ", " (repr_str <$> l) +:+ "]".

(** [enumerate] *)
Definition enumerate {A : Type} (l : list A) : list (nat * A) :=
  zip (seq 0 (length l)) l.

(** [compress mask xs] keeps the entries of [xs] whose mask bit is set
    (boolean indexing). *)
Fixpoint compress {A : Type} (mask : list bool) (xs : list A) : list A :=
  match mask, xs with
  | b :: mask', x :: xs' =>
      if b then x :: compress mask' xs' else compress mask' xs'
  | _, _ => []
  end.

Definition is_none {A : Type} (x : option A) : bool :=
  match x with
  | None => true
  | Some _ => false
  end.

Section Model.

(** [num] stands for the numeric scalars (floats and integer codes),
    [obj] for the Python objects held by a column of dtype ['O'], [rng]
    for the states of numpy's global random generator. *)
Context {num obj rng : Type}.

(** ** Columns, series and data frames

    A column of a non-object dtype holds numbers, with [None] for NaN;
    a column of dtype ['O'] holds objects, with [None] for None/NaN.
    A data frame has an index (only its length matters here) and labelled
    columns; pandas allows a label to occur more than once. *)

Inductive column : Type :=
| NumCol (xs : list (option num))
| ObjCol (xs : list (option obj)).

Inductive dtype : Type := DObject | DNumeric.

Definition column_dtype (c : column) : dtype :=
  match c with
  | NumCol _ => DNumeric
  | ObjCol _ => DObject
  end.

Definition column_len (c : column) : nat :=
  match c with
  | NumCol xs => length xs
  | ObjCol xs => length xs
  end.

(** [isnull]: the mask of the missing cells *)
Definition isnull (c : column) : list bool :=
  match c with
  | NumCol xs => is_none <$> xs
  | ObjCol xs => is_none <$> xs
  end.

Definition column_compress (mask : list bool) (c : column) : column :=
  match c with
  | NumCol xs => NumCol (compress mask xs)
  | ObjCol xs => ObjCol (compress mask xs)
  end.

Record Series : Type := mkSeries { name : string; values : column }.

Record DataFrame : Type := mkFrame { nrows : nat; data : list Series }.

(** [df.columns] *)
Definition labels (F : DataFrame) : list string := name <$> data F.

(** the columns of [F] that carry the label [key], in frame order *)
Definition labelled (key : string) (F : DataFrame) : list Series :=
  filter (λ s, name s = key) (data F).

(** [df[[k1, k2, ...]]]: for each key in turn, every column with that
    label; [KeyError] for a key that labels no column. *)
Fixpoint take_labels (F : DataFrame) (keys : list string) : res (list Series) :=
  match keys with
  | [] => Ok []
  | k :: ks =>
      match labelled k F with
      | [] => Raise (KeyError k)
      | ss => rest ← take_labels F ks; Ok (ss ++ rest)
      end
  end.

Definition frame_getitem_list (F : DataFrame) (keys : list string) : res DataFrame :=
  ss ← take_labels F keys; Ok (mkFrame (nrows F) ss).

(** [df[key]] is a Series when the label occurs once and a DataFrame
    when it is repeated. *)
Inductive item : Type :=
| ISeries (s : Series)
| IFrame (G : DataFrame).

Definition frame_getitem (F : DataFrame) (key : string) : res item :=
  match labelled key F with
  | [] => Raise (KeyError key)
  | [s] => Ok (ISeries s)
  | ss => Ok (IFrame (mkFrame (nrows F) ss))
  end.

(** [x.dtype]: a Series has one.  A DataFrame has no such attribute,
    unless one of its columns is labelled [dtype]: attribute access then
    returns that column (here a frame, the label being repeated) and the
    [if] on its comparison with ['O'] raises [ValueError]. *)
Definition item_dtype (it : item) : res dtype :=
  match it with
  | ISeries s => Ok (column_dtype (values s))
  | IFrame G =>
      if bool_decide ("dtype" ∈ labels G) then Raise ValueError
      else Raise AttributeError
  end.

(** does row [i] hold a missing value in some column? *)
Definition cell_isnull (c : column) (i : nat) : bool := nth i (isnull c) false.

Definition row_isnull (F : DataFrame) (i : nat) : bool :=
  existsb (λ s, cell_isnull (values s) i) (data F).

(** [df.dropna()]: a new frame without the rows that hold a missing value *)
Definition frame_dropna (F : DataFrame) : DataFrame :=
  let mask := (λ i, negb (row_isnull F i)) <$> seq 0 (nrows F) in
  mkFrame (length (filter (λ b, b = true) mask))
          ((λ s, mkSeries (name s) (column_compress mask (values s))) <$> data F).

(** [df.drop(columns=[key])]: a new frame without the columns labelled
    [key]; [KeyError] when there is none. *)
Definition frame_drop (F : DataFrame) (key : string) : res DataFrame :=
  match labelled key F with
  | [] => Raise (KeyError key)
  | _ => Ok (mkFrame (nrows F) (filter (λ s, name s ≠ key) (data F)))
  end.

(** [df[key] = array]: the array must be as long as the index; columns
    labelled [key] are overwritten, and a new column is appended when
    there is none. *)
Definition frame_setitem (F : DataFrame) (key : string) (c : column) : res DataFrame :=
  if bool_decide (column_len c = nrows F) then
    match labelled key F with
    | [] => Ok (mkFrame (nrows F) (data F ++ [mkSeries key c]))
    | _ => Ok (mkFrame (nrows F)
                 ((λ s, if bool_decide (name s = key) then mkSeries key c else s) <$> data F))
    end
  else Raise ValueError.

(** [x.isnull().sum()] of a Series and [df.isnull().sum().sum()] *)
Definition count_null (c : column) : nat := length (filter (λ b, b = true) (isnull c)).

Definition frame_count_null (F : DataFrame) : nat :=
  foldr (λ s n, count_null (values s) + n) 0 (data F).

(** ** The store *)

Definition ref := nat.

(** a recorded call [cross_val_score(est, df_X, df_y, cv=3)], with the
    state of the random generator when it was made *)
Record cv_call : Type :=
  mkCall { call_est : ref; call_X : DataFrame; call_y : item; call_rng : rng }.

Record world : Type :=
  mkWorld { frames : list DataFrame;
            estimators : list estimator;
            cv_calls : list cv_call;
            rng_state : rng }.

Definition M (A : Type) : Type := world → res A * world.

Definition M_ret {A : Type} (a : A) : M A := λ w, (Ok a, w).

Definition M_bind {A B : Type} (k : A → M B) (m : M A) : M B :=
  λ w, match m w with
       | (Ok a, w') => k a w'
       | (Raise e, w') => (Raise e, w')
       end.

Global Instance M_mret : MRet M := @M_ret.
Global Instance M_mbind : MBind M := @M_bind.

Definition raise {A : Type} (e : exn) : M A := λ w, (Raise e, w).

Definition lift {A : Type} (r : res A) : M A := λ w, (r, w).

(** [assert cond, msg] *)
Definition py_assert (cond : bool) (msg : string) : M unit :=
  if cond then mret () else raise (AssertionError msg).

Definition read_frame (r : ref) : M DataFrame :=
  λ w, match frames w !! r with
       | Some F => (Ok F, w)
       | None => (Raise ReferenceError, w)
       end.

Definition new_frame (F : DataFrame) : M ref :=
  λ w, (Ok (length (frames w)),
        mkWorld (frames w ++ [F]) (estimators w) (cv_calls w) (rng_state w)).

Definition write_frame (r : ref) (F : DataFrame) : M unit :=
  λ w, (Ok (), mkWorld (<[r := F]> (frames w)) (estimators w) (cv_calls w)
                (rng_state w)).

Definition read_estimator (r : ref) : M estimator :=
  λ w, match estimators w !! r with
       | Some e => (Ok e, w)
       | None => (Raise ReferenceError, w)
       end.

Definition new_estimator (e : estimator) : M ref :=
  λ w, (Ok (length (estimators w)),
        mkWorld (frames w) (estimators w ++ [e]) (cv_calls w) (rng_state w)).

Definition read_rng : M rng := λ w, (Ok (rng_state w), w).

Definition record_call (c : cv_call) : M unit :=
  λ w, (Ok (), mkWorld (frames w) (estimators w) (cv_calls w ++ [c]) (rng_state w)).

(** ** pandas operations on references *)

Definition columns (df : ref) : M (list string) :=
  F ← read_frame df; mret (labels F).

Definition getitem_list (df : ref) (keys : list string) : M ref :=
  F ← read_frame df; G ← lift (frame_getitem_list F keys); new_frame G.

Definition getitem (df : ref) (key : string) : M item :=
  F ← read_frame df; lift (frame_getitem F key).

Definition shape0 (df : ref) : M Z :=
  F ← read_frame df; mret (Z.of_nat (nrows F)).

Definition shape1 (df : ref) : M Z :=
  F ← read_frame df; mret (Z.of_nat (length (data F))).

Definition dropna (df : ref) : M ref :=
  F ← read_frame df; new_frame (frame_dropna F).

Definition drop (df : ref) (key : string) : M ref :=
  F ← read_frame df; G ← lift (frame_drop F key); new_frame G.

Definition setitem (df : ref) (key : string) (c : column) : M unit :=
  F ← read_frame df; G ← lift (frame_setitem F key c); write_frame df G.

(** [for x in l: s = body x s] *)
Fixpoint for_each {A S : Type} (l : list A) (body : A → S → M S) (s : S) : M S :=
  match l with
  | [] => mret s
  | x :: l' => s' ← body x s; for_each l' body s'
  end.

(** ** The capabilities taken from sklearn, numpy and pandas

    They are used as given, and may raise.  The encoder, the mean and the
    correlation are functions of their arguments.  [cross_val_score] fits
    clones of the estimator on three folds that are cut without
    shuffling; a forest built with [random_state=None] seeds its trees from
    numpy's global random generator, so the call reads the state of the
    generator and leaves another one.  A forest built with an integer
    [random_state] has a generator of its own: the call is then a function
    of its arguments and leaves the global state alone. *)
Class Library : Type := {
  (** the float [0.0] *)
  float_zero : num;
  (** [LabelEncoder().fit_transform(x)] *)
  fit_transform : item → res (list num);
  (** [cross_val_score(est, df_X, df_y, cv=3)], run in a state of the
      random generator: the outcome and the state it leaves *)
  cross_val_score : estimator → DataFrame → item → rng → res (list num) * rng;
  (** [scores.mean()] *)
  mean : list num → num;
  (** [pair.corr(method=method)[feature][target]] *)
  corr_at : string → DataFrame → string → string → res num;
  (** with a seed, the scores do not depend on the state of the global
      generator, and the state is not changed *)
  cross_val_score_seeded : ∀ e X y g g',
    is_Some (seed_of e) →
    cross_val_score e X y g' = ((cross_val_score e X y g).1, g')
}.

Context {lib : Library}.

(** [x.isnull().sum() == 0] inside an [assert]: for a frame the
    comparison is a Series, whose truth value raises. *)
Definition item_no_null (it : item) : res bool :=
  match it with
  | ISeries s => Ok (bool_decide (count_null (values s) = 0))
  | IFrame _ => Raise ValueError
  end.

(** ** [labelencode_if_object] *)

Definition labelencode_if_object (df_ml : ref) : M ref :=
  cols ← columns df_ml;
  for_each cols (λ col df_ml,
    x ← getitem df_ml col;
    dt ← lift (item_dtype x);
    match dt with
    | DObject =>
        x ← getitem df_ml col;
        replacement_series ← lift (fit_transform x);
        df_ml ← drop df_ml col;
        _ ← setitem df_ml col (NumCol (Some <$> replacement_series));
        mret df_ml
    | DNumeric => mret df_ml
    end) df_ml.

(** ** [discover] *)

Definition corr_methods : list string := ["pearson"; "spearman"; "kendall"].
Definition known_methods : list string := corr_methods ++ ["rf"].

(** the dicts appended to [ds] and to [nan_information] *)
Record score_record : Type :=
  mkScore { feature : string; target : string; score : num }.

Record nan_info : Type :=
  mkNaN { nan_feature : string; nan_target : string;
          n_dropped_na : Z; pct_dropped_na : Q }.

(** what [discover] returns: [df_results], or the tuple
    [(df_results, df_nan_info)] *)
Inductive result : Type :=
| Results (df_results : list score_record)
| ResultsAndNaN (df_results : list score_record) (df_nan_info : list nan_info).

(** lines 33-38: one estimator per column, put under the column's name *)
Definition build_estimator_mapping (cols classifier_overrides : list string)
    (random_state : option Z) : M (gmap string ref) :=
  for_each cols (λ col estimator_mapping,
    est ← (if bool_decide (col ∈ classifier_overrides)
           then new_estimator (RandomForestClassifier 50 random_state)
           else new_estimator (RandomForestRegressor 50 random_state));
    mret (<[col := est]> estimator_mapping)) ∅.

(** [estimator_mapping[target]] *)
Definition dict_get (d : gmap string ref) (key : string) : M ref :=
  match d !! key with
  | Some v => mret v
  | None => raise (KeyError key)
  end.

(** the library call, which reads and writes the state of the generator *)
Definition run_cross_val_score (e : estimator) (X : DataFrame) (y : item)
    : M (list num) :=
  λ w, ((cross_val_score e X y (rng_state w)).1,
        mkWorld (frames w) (estimators w) (cv_calls w)
          (cross_val_score e X y (rng_state w)).2).

Definition call_cross_val_score (est df_X : ref) (df_y : item) : M (list num) :=
  e ← read_estimator est;
  X ← read_frame df_X;
  g ← read_rng;
  _ ← record_call (mkCall est X df_y g);
  run_cross_val_score e X df_y.

(** lines 48-84: the body of the inner loop for one (feature, target) *)
Definition discover_pair (df est : ref) (method feature target : string)
    (acc : list score_record * list nan_info)
    : M (list score_record * list nan_info) :=
  let '(ds, nan_information) := acc in
  df_ml ← getitem_list df [feature; target];
  rows_before_drop_na ← shape0 df_ml;
  df_ml ← dropna df_ml;
  rows_after_drop_na ← shape0 df_ml;
  let n_dropped_na := (rows_before_drop_na - rows_after_drop_na)%Z in
  pct ← lift (true_div n_dropped_na rows_before_drop_na);
  let nan_info := mkNaN feature target n_dropped_na pct in
  let nan_information := nan_information ++ [nan_info] in
  df_ml ← labelencode_if_object df_ml;
  df_X ← getitem_list df_ml [feature];
  df_y ← getitem df_ml target;
  X ← read_frame df_X;
  _ ← py_assert (bool_decide (frame_count_null X = 0)) "";
  ok ← lift (item_no_null df_y);
  _ ← py_assert ok "";
  let score := float_zero in
  score ← (if bool_decide (method = "rf") then
             scores ← call_cross_val_score est df_X df_y;
             mret (mean scores)
           else mret score);
  score ← (if bool_decide (method ∈ corr_methods) then
             pair ← getitem_list df_ml [feature; target];
             n ← shape1 pair;
             _ ← py_assert (bool_decide (n = 2%Z)) "";
             P ← read_frame pair;
             lift (corr_at method P feature target)
           else mret score);
  let d := mkScore feature target score in
  mret (ds ++ [d], nan_information).

(** lines 42-84: the two loops *)
Definition discover_loops (df : ref) (cols : list string)
    (estimator_mapping : gmap string ref) (method : string)
    : M (list score_record * list nan_info) :=
  for_each (enumerate cols) (λ '(idx_Y, target) acc,
    est ← dict_get estimator_mapping target;
    for_each (enumerate cols) (λ '(idx_X, feature) acc,
      if bool_decide (idx_X = idx_Y) then mret acc
      else discover_pair df est method feature target acc) acc) ([], []).

Definition discover (df : ref) (classifier_overrides : option (list string))
    (method : string) (random_state : option Z) (include_na_information : bool)
    : M result :=
  _ ← py_assert (bool_decide (method ∈ known_methods))
        ("Expecting method to be one of: " +:+ repr_list known_methods);
  cols ← columns df;
  let classifier_overrides := default [] classifier_overrides in
  estimator_mapping ← build_estimator_mapping cols classifier_overrides random_state;
  '(ds, nan_information) ← discover_loops df cols estimator_mapping method;
  let df_results := ds in
  let df_nan_info := nan_information in
  if include_na_information then mret (ResultsAndNaN df_results df_nan_info)
  else mret (Results df_results).

(** ** What the procedure computes, as functions of the frame's value

    The definitions below describe the results of [labelencode_if_object],
    of the loop body and of [discover] without the frames of the store.
    [encode_frame] and [pair_value] are plain values: the frame that the
    encoding gives, and the rows of a pair when the loop body runs in the
    state [g] of the random generator.  [pair_steps] and [discover_steps]
    also say what the run does to the random generator and which calls of
    [cross_val_score] it records.  The lemmas [labelencode_if_object_run],
    [discover_pair_run] and [discover_run] show that the program computes
    them. *)

Definition assert_res (cond : bool) (msg : string) : res unit :=
  if cond then Ok () else Raise (AssertionError msg).

Definition encode_column (col : string) (F : DataFrame) : res DataFrame :=
  x ← frame_getitem F col;
  dt ← item_dtype x;
  match dt with
  | DObject =>
      x ← frame_getitem F col;
      replacement_series ← fit_transform x;
      G ← frame_drop F col;
      frame_setitem G col (NumCol (Some <$> replacement_series))
  | DNumeric => Ok F
  end.

Fixpoint encode_frame (cols : list string) (F : DataFrame) : res DataFrame :=
  match cols with
  | [] => Ok F
  | col :: cols' => G ← encode_column col F; encode_frame cols' G
  end.

Definition pair_value (g : rng) (F : DataFrame) (est : option estimator)
    (method feature target : string) : res (score_record * nan_info) :=
  df_ml ← frame_getitem_list F [feature; target];
  let rows_before_drop_na := Z.of_nat (nrows df_ml) in
  let df_ml := frame_dropna df_ml in
  let rows_after_drop_na := Z.of_nat (nrows df_ml) in
  let n_dropped_na := (rows_before_drop_na - rows_after_drop_na)%Z in
  pct ← true_div n_dropped_na rows_before_drop_na;
  df_ml ← encode_frame (labels df_ml) df_ml;
  df_X ← frame_getitem_list df_ml [feature];
  df_y ← frame_getitem df_ml target;
  _ ← assert_res (bool_decide (frame_count_null df_X = 0)) "";
  ok ← item_no_null df_y;
  _ ← assert_res ok "";
  score ← (if bool_decide (method = "rf") then
             match est with
             | Some e => scores ← (cross_val_score e df_X df_y g).1; Ok (mean scores)
             | None => Raise ReferenceError
             end
           else Ok float_zero);
  score ← (if bool_decide (method ∈ corr_methods) then
             pair ← frame_getitem_list df_ml [feature; target];
             _ ← assert_res (bool_decide (Z.of_nat (length (data pair)) = 2%Z)) "";
             corr_at method pair feature target
           else Ok score);
  Ok (mkScore feature target score, mkNaN feature target n_dropped_na pct).

(** the estimator that lines 34-37 construct for the column [col] *)
Definition estimator_for (classifier_overrides : list string)
    (random_state : option Z) (col : string) : estimator :=
  if bool_decide (col ∈ classifier_overrides)
  then RandomForestClassifier 50 random_state
  else RandomForestRegressor 50 random_state.

(** the (feature, target) pairs in the order the two loops visit them:
    targets in column order, for each the features in column order, the
    column at the target's own position left out *)
Definition ordered_pairs (cols : list string) : list (string * string) :=
  '(idx_Y, target) ← enumerate cols;
  '(idx_X, feature) ← enumerate cols;
  if bool_decide (idx_X = idx_Y) then [] else [(feature, target)].

Definition package (include_na_information : bool)
    (rows : list (score_record * nan_info)) : result :=
  if include_na_information then ResultsAndNaN rows.*1 rows.*2
  else Results rows.*1.

(** *** The random generator and the recorded calls

    [footprint w] is what a call of [cross_val_score] reads and writes in
    the store: the state of the generator and the calls recorded so far.
    A value of [V A] is a computation on the footprint that may raise. *)

Definition footprint (w : world) : rng * list cv_call := (rng_state w, cv_calls w).

Definition V (A : Type) : Type := rng * list cv_call → res A * (rng * list cv_call).

Definition V_ret {A : Type} (a : A) : V A := λ t, (Ok a, t).

Definition V_bind {A B : Type} (k : A → V B) (v : V A) : V B :=
  λ t, match v t with
       | (Ok a, t') => k a t'
       | (Raise e, t') => (Raise e, t')
       end.

Global Instance V_mret : MRet V := @V_ret.
Global Instance V_mbind : MBind V := @V_bind.

Definition v_lift {A : Type} (r : res A) : V A := λ t, (r, t).

(** [call_cross_val_score] on the footprint *)
Definition v_cross_val_score (est : ref) (e : estimator) (X : DataFrame) (y : item)
    : V (list num) :=
  λ t, ((cross_val_score e X y t.1).1,
        ((cross_val_score e X y t.1).2, t.2 ++ [mkCall est X y t.1])).

(** the loop body for one pair: [pair_value] with the footprint *)
Definition pair_steps (est : ref) (eo : option estimator) (F : DataFrame)
    (method feature target : string) : V (score_record * nan_info) :=
  df_ml ← v_lift (frame_getitem_list F [feature; target]);
  let rows_before_drop_na := Z.of_nat (nrows df_ml) in
  let df_ml := frame_dropna df_ml in
  let rows_after_drop_na := Z.of_nat (nrows df_ml) in
  let n_dropped_na := (rows_before_drop_na - rows_after_drop_na)%Z in
  pct ← v_lift (true_div n_dropped_na rows_before_drop_na);
  df_ml ← v_lift (encode_frame (labels df_ml) df_ml);
  df_X ← v_lift (frame_getitem_list df_ml [feature]);
  df_y ← v_lift (frame_getitem df_ml target);
  _ ← v_lift (assert_res (bool_decide (frame_count_null df_X = 0)) "");
  ok ← v_lift (item_no_null df_y);
  _ ← v_lift (assert_res ok "");
  score ← (if bool_decide (method = "rf") then
             match eo with
             | Some e => scores ← v_cross_val_score est e df_X df_y; mret (mean scores)
             | None => v_lift (Raise ReferenceError)
             end
           else mret float_zero);
  score ← (if bool_decide (method ∈ corr_methods) then
             pair ← v_lift (frame_getitem_list df_ml [feature; target]);
             _ ← v_lift (assert_res (bool_decide (Z.of_nat (length (data pair)) = 2%Z)) "");
             v_lift (corr_at method pair feature target)
           else mret score);
  mret (mkScore feature target score, mkNaN feature target n_dropped_na pct).

(** [mapM_v f l] runs [f] on the elements of [l] from left to right and
    stops at the first exception. *)
Fixpoint mapM_v {A B : Type} (f : A → V B) (l : list A) : V (list B) :=
  match l with
  | [] => mret []
  | x :: l' => y ← f x; ys ← mapM_v f l'; mret (y :: ys)
  end.

(** the loop body for the pairs of [discover], in their order: the
    estimator of a pair is the one built for its target, found in the store
    under the reference that [em] holds for the target *)
Definition pairs_steps (em : gmap string ref) (F : DataFrame)
    (classifier_overrides : list string) (method : string) (random_state : option Z)
    : string * string → V (score_record * nan_info) :=
  λ '(feature, target),
    pair_steps (default 0 (em !! target))
      (Some (estimator_for classifier_overrides random_state target))
      F method feature target.

Definition discover_steps (em : gmap string ref) (F : DataFrame)
    (classifier_overrides : option (list string))
    (method : string) (random_state : option Z) (include_na_information : bool)
    : V result :=
  _ ← v_lift (assert_res (bool_decide (method ∈ known_methods))
        ("Expecting method to be one of: " +:+ repr_list known_methods));
  rows ← mapM_v (pairs_steps em F (default [] classifier_overrides) method random_state)
          (ordered_pairs (labels F));
  mret (package include_na_information rows).

(** a row that the loop body returns for a pair, from some state of the
    generator *)
Definition pair_row (F : DataFrame) (classifier_overrides : list string)
    (random_state : option Z) (method : string)
    : string * string → score_record * nan_info → Prop :=
  λ '(feature, target) row,
    ∃ g, pair_value g F
           (Some (estimator_for classifier_overrides random_state target))
           method feature target = Ok row.

(** the score table of a result, and its NaN table when there is one *)
Definition results_of (v : result) : list score_record :=
  match v with
  | Results ds => ds
  | ResultsAndNaN ds _ => ds
  end.

Definition nan_info_of (v : result) : option (list nan_info) :=
  match v with
  | Results _ => None
  | ResultsAndNaN _ ni => Some ni
  end.

(** the number of rows, among the first [n], that hold a missing value
    in the column [cf] or in the column [ct] *)
Definition rows_with_missing (n : nat) (cf ct : column) : nat :=
  length (filter (λ i, cell_isnull cf i || cell_isnull ct i = true) (seq 0 n)).

(** ** Relating the program to its functional description

    [evolves w w']: every frame of [w] is in [w'] as it was, the estimators
    and the footprint are the same.  [sim R m v w]: run from [w], the
    program [m] raises what the value [v] raises, or returns a result
    related by [R] to the one of [v], in a store that [w] evolves to.
    [simv R m v w] is the same for a program that calls [cross_val_score]:
    the footprint of the store it ends in is the one that [v] computes. *)

Definition keeps_frames (w w' : world) : Prop :=
  ∀ r F, frames w !! r = Some F → frames w' !! r = Some F.

Record evolves_to (t : rng * list cv_call) (w w' : world) : Prop := mkEvolves {
  ev_frames : keeps_frames w w';
  ev_estimators : estimators w' = estimators w;
  ev_footprint : footprint w' = t
}.

Definition evolves (w w' : world) : Prop := evolves_to (footprint w) w w'.

Definition sim {A B : Type} (R : A → B → world → Prop)
    (m : M A) (v : res B) (w : world) : Prop :=
  ∃ w', evolves w w' ∧
    match v with
    | Ok b => ∃ a, m w = (Ok a, w') ∧ R a b w'
    | Raise e => m w = (Raise e, w')
    end.

Definition simv {A B : Type} (R : A → B → world → Prop)
    (m : M A) (v : V B) (w : world) : Prop :=
  ∃ w', evolves_to (v (footprint w)).2 w w' ∧
    match (v (footprint w)).1 with
    | Ok b => ∃ a, m w = (Ok a, w') ∧ R a b w'
    | Raise e => m w = (Raise e, w')
    end.

(** the two relations between results: equal values, and a reference
    that holds a given frame *)
Definition same {A : Type} : A → A → world → Prop := λ a b _, a = b.

Definition holds : ref → DataFrame → world → Prop :=
  λ r F w, frames w !! r = Some F.

(** the accumulators [ds] and [nan_information] after more rows *)
Definition extends_by {X Y : Type} (acc : list X * list Y)
    : list X * list Y → list (X * Y) → world → Prop :=
  λ a b _, a = (acc.1 ++ b.*1, acc.2 ++ b.*2).

(** every binding of [em] refers to the estimator built for its column *)
Definition bound_in (ov : list string) (seed : option Z) (em : gmap string ref)
    (w : world) : Prop :=
  ∀ c r, em !! c = Some r → estimators w !! r = Some (estimator_for ov seed c).

(** the pairs of one pass of the inner loop *)
Definition inner_pairs (idx_Y : nat) (target : string) (l : list (nat * string))
    : list (string * string) :=
  '(idx_X, feature) ← l;
  if bool_decide (idx_X = idx_Y) then [] else [(feature, target)].

End Model.

(** ** Concrete data

    A stand-in library and small datasets, to run the procedure. *)

Module Example.

(** A stand-in for the library, to run the procedure on concrete data:
    numbers are integers, objects are strings; the encoder numbers the
    distinct values in order of first appearance, a correlation is 1.
    The random generator is a counter.  Cross-validation needs three rows
    (one per fold); with a seed it scores every fold 1, without one it
    scores every fold with the state of the generator and advances it. *)
Definition encode (xs : list (option string)) : list Z :=
  let classes := remove_dups xs in
  (λ x, Z.of_nat (default 0 (fst <$> list_find (λ y, y = x) classes))) <$> xs.

Definition toy_fit_transform (x : @item Z string) : res (list Z) :=
  match x with
  | ISeries (mkSeries _ (ObjCol xs)) => Ok (encode xs)
  | ISeries (mkSeries _ (NumCol xs)) => Ok (Z.of_nat <$> seq 0 (length xs))
  | IFrame _ => Raise ValueError
  end.

Definition toy_cross_val_score (e : estimator) (X : @DataFrame Z string)
    (y : @item Z string) (g : Z) : res (list Z) * Z :=
  if bool_decide (nrows X < 3) then (Raise ValueError, g)
  else match seed_of e with
       | Some _ => (Ok [1; 1; 1]%Z, g)
       | None => (Ok [g; g; g], (g + 1)%Z)
       end.

Definition toy_mean (scores : list Z) : Z :=
  (foldr Z.add 0 scores / Z.of_nat (length scores))%Z.

Definition toy : @Library Z string Z :=
  {| float_zero := 0%Z;
     fit_transform := toy_fit_transform;
     cross_val_score := toy_cross_val_score;
     mean := toy_mean;
     corr_at := λ _ _ _ _, Ok 1%Z;
     cross_val_score_seeded := λ e X y g g' Hseed,
       ltac:(unfold toy_cross_val_score; destruct Hseed as [z ->];
             by case_bool_decide) |}.

(** the dataset of the smoke test with four rows, the first value of [a]
    missing, and a column of strings *)
Definition X : @DataFrame Z string :=
  mkFrame 4
    [mkSeries "a" (NumCol [None; Some 1; Some 1; Some 1]%Z);
     mkSeries "b" (NumCol [Some 0; Some 1; Some 2; Some 3]%Z);
     mkSeries "c" (ObjCol [Some "x"; Some "y"; Some "x"; Some "z"])].

(** one missing value in [a], and another one in [b], in a different row *)
Definition X_two_missing : @DataFrame Z string :=
  mkFrame 3
    [mkSeries "a" (NumCol [None; Some 1; Some 2]%Z);
     mkSeries "b" (NumCol [Some 1; None; Some 3]%Z)].

(** no row at all *)
Definition X_empty : @DataFrame Z string :=
  mkFrame 0 [mkSeries "a" (NumCol []); mkSeries "b" (NumCol [])].

(** [X] with another third column *)
Definition X_other : @DataFrame Z string :=
  mkFrame 4
    [mkSeries "a" (NumCol [None; Some 1; Some 1; Some 1]%Z);
     mkSeries "b" (NumCol [Some 0; Some 1; Some 2; Some 3]%Z);
     mkSeries "d" (NumCol [None; None; Some 5; None]%Z)].


Definition store (F : @DataFrame Z string) : @world Z string Z :=
  mkWorld [F] [] [] 0%Z.

End Example.

(** ** Notions used to state further properties of the two functions *)

Section Notions.
Context {num obj rng : Type} {lib : @Library num obj rng}.

(** does the column have dtype ['O']? *)
Definition has_object_dtype (s : @Series num obj) : bool :=
  match values s with
  | ObjCol _ => true
  | NumCol _ => false
  end.

(** [s'] is the column that lines 10-14 put in the place of [s]: the
    same label, the codes of the encoder as values *)
Definition encoded_as (s s' : @Series num obj) : Prop :=
  name s' = name s
  ∧ ∃ codes, fit_transform (ISeries s) = Ok codes
             ∧ values s' = NumCol (Some <$> codes).

(** every column is as long as the index, as in any pandas frame *)
Definition well_formed (F : @DataFrame num obj) : Prop :=
  Forall (λ s, column_len (values s) = nrows F) (data F).

(** no column holds a missing value *)
Definition no_null (F : @DataFrame num obj) : Prop :=
  Forall (λ s, count_null (values s) = 0) (data F).

(** [D] is the frame that the loop body prepares for the pair ([f], [t])
    of [F]: the two columns, which the labels name without ambiguity,
    without the rows in which one of them has a missing value (lines 48-50) *)
Definition pair_frame (F : @DataFrame num obj) (f t : string)
    (D : @DataFrame num obj) : Prop :=
  ∃ sf st,
    labelled f F = [sf] ∧ labelled t F = [st] ∧ f ≠ t
    ∧ D = frame_dropna (mkFrame (nrows F) [sf; st]).

(** [x] and [y] are the columns that the loop body scores for a pair with
    the frame [D]: the two columns of [D], each encoded when its dtype is
    ['O'] (line 57) *)
Definition scored_as (D : @DataFrame num obj) (x y : @Series num obj) : Prop :=
  ∃ sf' st',
    data D = [sf'; st']
    ∧ (if has_object_dtype sf' then encoded_as sf' x else x = sf')
    ∧ (if has_object_dtype st' then encoded_as st' y else y = st').

(** a library call that the loop body makes for the pair ([f], [t]) with
    the frame [D], the estimator [est] and the generator in the state [g]
    raises [e]: the encoder on a column of [D] of dtype ['O'], or the
    scoring function of the method [m] on the columns it scores; or the
    encoder returns an array of another length than the column it was
    given, and the assignment of line 14 raises [ValueError] *)
Definition pair_raises (est : estimator) (m f t : string)
    (D : @DataFrame num obj) (g : rng) (e : exn) : Prop :=
  (∃ s, s ∈ data D ∧ has_object_dtype s = true
        ∧ fit_transform (ISeries s) = Raise e)
  ∨ (e = ValueError
     ∧ ∃ s codes, s ∈ data D ∧ has_object_dtype s = true
                  ∧ fit_transform (ISeries s) = Ok codes
                  ∧ length codes ≠ column_len (values s))
  ∨ (m = "rf"
     ∧ ∃ x y, scored_as D x y
              ∧ (cross_val_score est (mkFrame (nrows D) [x]) (ISeries y) g).1
                = Raise e)
  ∨ (m ∈ corr_methods
     ∧ ∃ x y, scored_as D x y
              ∧ corr_at m (mkFrame (nrows D) [x; y]) f t = Raise e).

End Notions.

Module Datasets.

(** two columns under the label [a] *)
Definition X_repeated : @DataFrame Z string :=
  mkFrame 2
    [mkSeries "a" (NumCol [Some 1; Some 2]%Z);
     mkSeries "a" (NumCol [Some 3; Some 4]%Z);
     mkSeries "b" (NumCol [Some 5; Some 6]%Z)].

(** one column and no row *)
Definition X_single : @DataFrame Z string :=
  mkFrame 0 [mkSeries "a" (NumCol [])].

(** a store that holds a dataset and one estimator *)
Definition store_with_estimator (F : @DataFrame Z string) : @world Z string Z :=
  mkWorld [F] [RandomForestRegressor 50 None] [] 0%Z.

End Datasets.

(** * Properties *)

(** ** The program computes its functional description *)

Section Simulation.
Context {num obj rng : Type} {lib : @Library num obj rng}.
Implicit Types (w : @world num obj rng) (F G : @DataFrame num obj).

(** a result related by [same] is the value itself *)
Ltac same_subst H := unfold same in H; subst.

(** cases on a test of the program, in the goal only *)
Ltac case_test P H :=
  destruct (decide P) as [H|H];
  [rewrite !(bool_decide_eq_true_2 P H)|rewrite !(bool_decide_eq_false_2 P H)].

(** the estimators after some steps are those before them *)
Ltac same_estimators :=
  repeat match goal with
         | H : evolves _ ?w' |- context [estimators ?w'] =>
             rewrite (ev_estimators _ _ _ H)
         end.

Lemma evolves_refl w : evolves w w.
Proof. split; [by intros ?? | done | done]. Qed.

Lemma evolves_to_trans t w1 w2 w3 :
  evolves w1 w2 → evolves_to t w2 w3 → evolves_to t w1 w3.
Proof.
  intros [Hf1 He1 Ht1] [Hf2 He2 Ht2]. split; [|congruence|done].
  intros r F Hr. by apply Hf2, Hf1.
Qed.

Lemma evolves_trans w1 w2 w3 : evolves w1 w2 → evolves w2 w3 → evolves w1 w3.
Proof.
  intros H1 H2. apply (evolves_to_trans _ _ w2); [done|].
  destruct H2 as [Hf He Ht]. split; [done..|].
  rewrite Ht. by destruct H1.
Qed.

Lemma sim_ret {A B} (R : A → B → world → Prop) a b w :
  R a b w → sim R (mret a) (Ok b) w.
Proof. intros HR. exists w. split; [apply evolves_refl|]. by exists a. Qed.

Lemma sim_raise {A B} (R : A → B → world → Prop) e w :
  sim R (raise e) (Raise e) w.
Proof. exists w. split; [apply evolves_refl|done]. Qed.

Lemma sim_lift {A} (r : res A) w : sim same (lift r) r w.
Proof.
  exists w. split; [apply evolves_refl|]. destruct r; [by eexists|done].
Qed.

Lemma sim_bind_gen {A B A' B'} (R : A → B → world → Prop) (R' : A' → B' → world → Prop)
    (m : M A) (k : A → M A') (v : res B) (f : B → res B') w :
  sim R m v w →
  (∀ a b w', v = Ok b → evolves w w' → R a b w' → sim R' (k a) (f b) w') →
  sim R' (m ≫= k) (v ≫= f) w.
Proof.
  intros (w1 & Hev & Hm) Hk. destruct v as [b|e]; simpl.
  - destruct Hm as (a & Hm & HR).
    destruct (Hk a b w1 eq_refl Hev HR) as (w2 & Hev2 & Hk2).
    exists w2. split; [by eapply evolves_trans|].
    unfold mbind, M_mbind, M_bind. by rewrite Hm.
  - exists w1. split; [done|]. unfold mbind, M_mbind, M_bind. by rewrite Hm.
Qed.

Lemma sim_bind {A B A' B'} (R : A → B → world → Prop) (R' : A' → B' → world → Prop)
    (m : M A) (k : A → M A') (v : res B) (f : B → res B') w :
  sim R m v w →
  (∀ a b w', evolves w w' → R a b w' → sim R' (k a) (f b) w') →
  sim R' (m ≫= k) (v ≫= f) w.
Proof. intros Hm Hk. eapply sim_bind_gen; eauto. Qed.

Lemma sim_weaken {A B} (R R' : A → B → world → Prop) m v w :
  (∀ a b w', R a b w' → R' a b w') →
  sim R m v w → sim R' m v w.
Proof.
  intros HR (w' & Hev & Hm). exists w'. split; [done|].
  destruct v as [b|e]; [|done]. destruct Hm as (a & ? & ?). exists a. auto.
Qed.

(** pure steps of the program against [let] or [Ok] on the value side *)
Lemma sim_bind_ok {A B A' B'} (R : A → B → world → Prop) (R' : A' → B' → world → Prop)
    (m : M A) (k : A → M A') (b : B) (v' : res B') w :
  sim R m (Ok b) w →
  (∀ a w', evolves w w' → R a b w' → sim R' (k a) v' w') →
  sim R' (m ≫= k) v' w.
Proof.
  intros Hm Hk. apply (sim_bind_gen R R' m k (Ok b) (λ _, v') w Hm).
  intros a b' w' [= <-] Hev HR. eapply Hk; eauto.
Qed.

Lemma res_bind_Ok {A} (v : res A) : (v ≫= Ok) = v.
Proof. by destruct v. Qed.

Lemma sim_eq {A B} (R : A → B → world → Prop) m v v' w :
  v = v' → sim R m v' w → sim R m v w.
Proof. by intros ->. Qed.

Lemma sim_post {A B B'} (R : A → B → world → Prop) (R' : A → B' → world → Prop)
    (h : B → B') m v w :
  sim R m v w →
  (∀ a b w', R a b w' → R' a (h b) w') →
  sim R' m (b ← v; Ok (h b)) w.
Proof.
  intros (w' & Hev & Hm) HR. exists w'. split; [done|].
  destruct v as [b|e]; simpl; [|done]. destruct Hm as (a & ? & ?). exists a. auto.
Qed.

Lemma M_bind_ok {A B} (m : M A) (k : A → M B) w a w' :
  m w = (Ok a, w') → (m ≫= k) w = k a w'.
Proof. intros Hm. unfold mbind, M_mbind, M_bind. by rewrite Hm. Qed.

Lemma M_bind_raise {A B} (m : M A) (k : A → M B) w e w' :
  m w = (Raise e, w') → (m ≫= k) w = (Raise e, w').
Proof. intros Hm. unfold mbind, M_mbind, M_bind. by rewrite Hm. Qed.

Lemma sim_read_frame r F w :
  frames w !! r = Some F → sim same (read_frame r) (Ok F) w.
Proof.
  intros Hr. exists w. split; [apply evolves_refl|]. exists F.
  unfold read_frame. by rewrite Hr.
Qed.

Lemma evolves_new_frame w G :
  evolves w (mkWorld (frames w ++ [G]) (estimators w) (cv_calls w) (rng_state w)).
Proof.
  split; simpl; [|done|done].
  intros r F Hr. by apply lookup_app_l_Some.
Qed.

Lemma sim_new_frame G w : sim holds (new_frame G) (Ok G) w.
Proof.
  eexists. split; [apply (evolves_new_frame w G)|]. eexists. split; [done|].
  unfold holds; simpl. rewrite lookup_app_r by done.
  by rewrite Nat.sub_diag.
Qed.

Lemma sim_columns r F w :
  frames w !! r = Some F → sim same (columns r) (Ok (labels F)) w.
Proof.
  intros Hr. exists w. split; [apply evolves_refl|]. exists (labels F).
  unfold columns, mbind, M_mbind, M_bind, read_frame. by rewrite Hr.
Qed.

Lemma sim_shape0 r F w :
  frames w !! r = Some F → sim same (shape0 r) (Ok (Z.of_nat (nrows F))) w.
Proof.
  intros Hr. exists w. split; [apply evolves_refl|]. eexists.
  unfold shape0, mbind, M_mbind, M_bind, read_frame. by rewrite Hr.
Qed.

Lemma sim_shape1 r F w :
  frames w !! r = Some F →
  sim same (shape1 r) (Ok (Z.of_nat (length (data F)))) w.
Proof.
  intros Hr. exists w. split; [apply evolves_refl|]. eexists.
  unfold shape1, mbind, M_mbind, M_bind, read_frame. by rewrite Hr.
Qed.

Lemma sim_getitem r F key w :
  frames w !! r = Some F → sim same (getitem r key) (frame_getitem F key) w.
Proof.
  intros Hr. unfold getitem.
  change (frame_getitem F key) with (Ok F ≫= λ F, frame_getitem F key).
  eapply sim_bind; [by apply sim_read_frame|].
  intros a b w' _ <-. apply sim_lift.
Qed.

Lemma sim_getitem_list r F keys w :
  frames w !! r = Some F →
  sim holds (getitem_list r keys) (frame_getitem_list F keys) w.
Proof.
  intros Hr. unfold getitem_list.
  change (frame_getitem_list F keys) with (Ok F ≫= λ F, frame_getitem_list F keys).
  eapply sim_bind; [by apply sim_read_frame|].
  intros a b w' _ <-.
  eapply sim_eq; [symmetry; apply res_bind_Ok|].
  eapply sim_bind; [apply sim_lift|].
  intros G ? w'' _ <-. apply sim_new_frame.
Qed.

Lemma sim_dropna r F w :
  frames w !! r = Some F → sim holds (dropna r) (Ok (frame_dropna F)) w.
Proof.
  intros Hr. unfold dropna.
  change (Ok (frame_dropna F)) with (Ok F ≫= λ F, Ok (frame_dropna F)).
  eapply sim_bind; [by apply sim_read_frame|].
  intros a b w' _ <-. apply sim_new_frame.
Qed.

Lemma sim_drop_setitem r F col c w :
  frames w !! r = Some F →
  sim holds (df' ← drop r col; _ ← setitem df' col c; mret df')
      (G ← frame_drop F col; frame_setitem G col c) w.
Proof.
  intros Hr.
  unfold drop, setitem, mbind, M_mbind, M_bind, read_frame, lift, new_frame,
    write_frame, res_mbind, res_bind, sim.
  rewrite Hr. destruct (frame_drop F col) as [G|e]; simpl;
    [|exists w; split; [apply evolves_refl|done]].
  rewrite lookup_app_r by done. rewrite Nat.sub_diag. simpl.
  destruct (frame_setitem G col c) as [G'|e]; simpl.
  - eexists. split; [|eexists; split; [done|]].
    + split; simpl; [|done|done].
      intros r' F' Hr'. simpl. rewrite list_lookup_insert_ne.
      * by apply lookup_app_l_Some.
      * apply lookup_lt_Some in Hr'. lia.
    + unfold holds; simpl. apply list_lookup_insert_eq.
      rewrite length_app; simpl. lia.
  - eexists. split; [apply (evolves_new_frame w G)|done].
Qed.

Lemma sim_encode_column col r F w :
  frames w !! r = Some F →
  sim holds
    (x ← getitem r col;
     dt ← lift (item_dtype x);
     match dt with
     | DObject =>
         x ← getitem r col;
         replacement_series ← lift (fit_transform x);
         df_ml ← drop r col;
         _ ← setitem df_ml col (NumCol (Some <$> replacement_series));
         mret df_ml
     | DNumeric => mret r
     end)
    (encode_column col F) w.
Proof.
  intros Hr. unfold encode_column.
  eapply sim_bind; [by apply sim_getitem|]. intros x ? w1 Hev1 <-.
  eapply sim_bind; [apply sim_lift|]. intros dt ? w2 Hev2 <-.
  assert (frames w2 !! r = Some F) as Hr2.
  { by apply Hev2, Hev1. }
  destruct dt; [|by apply sim_ret].
  eapply sim_bind; [by apply sim_getitem|]. intros x' ? w3 Hev3 <-.
  eapply sim_bind; [apply sim_lift|]. intros codes ? w4 Hev4 <-.
  apply sim_drop_setitem. by apply Hev4, Hev3.
Qed.

Lemma sim_encode_frame cols r F w :
  frames w !! r = Some F →
  sim holds
    (for_each cols (λ col df_ml,
       x ← getitem df_ml col;
       dt ← lift (item_dtype x);
       match dt with
       | DObject =>
           x ← getitem df_ml col;
           replacement_series ← lift (fit_transform x);
           df_ml ← drop df_ml col;
           _ ← setitem df_ml col (NumCol (Some <$> replacement_series));
           mret df_ml
       | DNumeric => mret df_ml
       end) r)
    (encode_frame cols F) w.
Proof.
  revert r F w. induction cols as [|col cols IH]; intros r F w Hr; simpl.
  - by apply sim_ret.
  - eapply sim_bind; [by apply sim_encode_column|].
    intros r' G w' _ Hr'. by apply IH.
Qed.

Lemma labelencode_if_object_run r F w :
  frames w !! r = Some F →
  sim holds (labelencode_if_object r) (encode_frame (labels F) F) w.
Proof.
  intros Hr. unfold labelencode_if_object.
  change (encode_frame (labels F) F) with (Ok (labels F) ≫= λ cols, encode_frame cols F).
  eapply sim_bind; [by apply sim_columns|].
  intros cols ? w' Hev <-. apply sim_encode_frame. by apply Hev.
Qed.

Lemma sim_assert cond msg w : sim same (py_assert cond msg) (assert_res cond msg) w.
Proof. destruct cond; [by apply sim_ret|apply sim_raise]. Qed.

(** *** Programs that call [cross_val_score] *)

Lemma V_bind_eq {A B} (v : V A) (f : A → V B) (t : rng * list (@cv_call num obj rng)) :
  (v ≫= f) t
  = match v t with
    | (Ok a, t') => f a t'
    | (Raise e, t') => (@Raise B e, t')
    end.
Proof. reflexivity. Qed.

Lemma V_bind_lift {A B} (r : res A) (f : A → V B) (t : rng * list (@cv_call num obj rng)) :
  (v_lift r ≫= f) t
  = match r with
    | Ok a => f a t
    | Raise e => (@Raise B e, t)
    end.
Proof. by destruct r. Qed.

Lemma V_bind_ext_fp {A B} (v : V A) (f1 f2 : A → V B)
    (t : rng * list (@cv_call num obj rng)) :
  (∀ a t', f1 a t' = f2 a t') → (v ≫= f1) t = (v ≫= f2) t.
Proof.
  intros Hf. rewrite !V_bind_eq. destruct (v t) as [[a|e] t']; [apply Hf|done].
Qed.

Lemma sim_simv {A B} (R : A → B → world → Prop) m v w :
  sim R m v w → simv R m (v_lift v) w.
Proof. done. Qed.

Lemma simv_ret {A B} (R : A → B → world → Prop) a b w :
  R a b w → simv R (mret a) (mret b) w.
Proof. intros HR. exists w. split; [apply evolves_refl|]. by exists a. Qed.

Lemma simv_eq {A B} (R : A → B → world → Prop) m (v v' : V B) w :
  v (footprint w) = v' (footprint w) → simv R m v' w → simv R m v w.
Proof. unfold simv. by intros ->. Qed.

Lemma simv_bind_v {A B A' B'} (R : A → B → world → Prop) (R' : A' → B' → world → Prop)
    (m : M A) (k : A → M A') (v : V B) (f : B → V B') w :
  simv R m v w →
  (∀ a b w', evolves_to (v (footprint w)).2 w w' → R a b w' →
     simv R' (k a) (f b) w') →
  simv R' (m ≫= k) (v ≫= f) w.
Proof.
  intros (w1 & Hev & Hm) Hk. unfold simv. rewrite V_bind_eq.
  destruct (v (footprint w)) as [[b|e] t1]; simpl in *.
  - destruct Hm as (a & Hm & HR).
    destruct (Hk a b w1 Hev HR) as (w2 & Hev2 & Hk2).
    rewrite (ev_footprint _ _ _ Hev) in Hev2, Hk2.
    exists w2. split.
    + destruct Hev as [Hf1 He1 _], Hev2 as [Hf2 He2 Ht2].
      split; [|congruence|done]. intros r F Hr. by apply Hf2, Hf1.
    + unfold mbind, M_mbind, M_bind. by rewrite Hm.
  - exists w1. split; [done|]. unfold mbind, M_mbind, M_bind. by rewrite Hm.
Qed.

(** a step that leaves the footprint alone, before steps that may not *)
Lemma simv_bind_gen {A B A' B'} (R : A → B → world → Prop) (R' : A' → B' → world → Prop)
    (m : M A) (k : A → M A') (v : res B) (f : B → V B') w :
  sim R m v w →
  (∀ a b w', v = Ok b → evolves w w' → R a b w' → simv R' (k a) (f b) w') →
  simv R' (m ≫= k) (v_lift v ≫= f) w.
Proof.
  intros (w1 & Hev & Hm) Hk. unfold simv. rewrite V_bind_lift.
  destruct v as [b|e]; simpl in *.
  - destruct Hm as (a & Hm & HR).
    destruct (Hk a b w1 eq_refl Hev HR) as (w2 & Hev2 & Hk2).
    rewrite (ev_footprint _ _ _ Hev) in Hev2, Hk2.
    exists w2. split; [by eapply evolves_to_trans|].
    unfold mbind, M_mbind, M_bind. by rewrite Hm.
  - exists w1. split; [done|]. unfold mbind, M_mbind, M_bind. by rewrite Hm.
Qed.

Lemma simv_bind {A B A' B'} (R : A → B → world → Prop) (R' : A' → B' → world → Prop)
    (m : M A) (k : A → M A') (v : res B) (f : B → V B') w :
  sim R m v w →
  (∀ a b w', evolves w w' → R a b w' → simv R' (k a) (f b) w') →
  simv R' (m ≫= k) (v_lift v ≫= f) w.
Proof. intros Hm Hk. eapply simv_bind_gen; eauto. Qed.

Lemma simv_bind_ok {A B A' B'} (R : A → B → world → Prop) (R' : A' → B' → world → Prop)
    (m : M A) (k : A → M A') (b : B) (v' : V B') w :
  sim R m (Ok b) w →
  (∀ a w', evolves w w' → R a b w' → simv R' (k a) v' w') →
  simv R' (m ≫= k) v' w.
Proof.
  intros Hm Hk.
  apply (simv_eq _ _ _ (v_lift (Ok b) ≫= λ _, v')); [done|].
  apply (simv_bind_gen R R' m k (Ok b) (λ _, v') w Hm).
  intros a b' w' [= <-] Hev HR. eapply Hk; eauto.
Qed.

Lemma simv_post {A B B'} (R : A → B → world → Prop) (R' : A → B' → world → Prop)
    (h : B → B') m (v : V B) w :
  simv R m v w →
  (∀ a b w', R a b w' → R' a (h b) w') →
  simv R' m (b ← v; mret (h b)) w.
Proof.
  intros (w' & Hev & Hm) HR. unfold simv. rewrite V_bind_eq.
  destruct (v (footprint w)) as [[b|e] t1]; simpl in *.
  - exists w'. split; [done|]. destruct Hm as (a & ? & ?). exists a. auto.
  - by exists w'.
Qed.

Lemma simv_call_cross_val_score est rX X y w :
  frames w !! rX = Some X →
  simv same (call_cross_val_score est rX y)
    (match estimators w !! est with
     | Some e => v_cross_val_score est e X y
     | None => v_lift (Raise ReferenceError)
     end) w.
Proof.
  intros HX.
  unfold call_cross_val_score, mbind, M_mbind, M_bind, read_estimator,
    read_frame, read_rng, record_call, run_cross_val_score, simv.
  destruct (estimators w !! est) as [e|]; simpl;
    [|exists w; split; [apply evolves_refl|done]].
  rewrite HX; simpl.
  exists (mkWorld (frames w) (estimators w)
            (cv_calls w ++ [mkCall est X y (rng_state w)])
            (cross_val_score e X y (rng_state w)).2).
  split; [split; simpl; [by intros ??|done|done]|].
  destruct (cross_val_score e X y (rng_state w)).1; [by eexists|done].
Qed.

Lemma frame_getitem_series F key s :
  frame_getitem F key = Ok (ISeries s) → name s = key.
Proof.
  unfold frame_getitem. destruct (labelled key F) as [|s' [|??]] eqn:E; [done| |done].
  intros [= ->].
  assert (s ∈ labelled key F) as Hin by (rewrite E; left).
  unfold labelled in Hin. by apply list_elem_of_filter in Hin as [? _].
Qed.

Lemma discover_pair_run df est F m f t ds ni w :
  frames w !! df = Some F →
  simv (λ a b _, a = (ds ++ [b.1], ni ++ [b.2]))
    (discover_pair df est m f t (ds, ni))
    (pair_steps est (estimators w !! est) F m f t) w.
Proof.
  intros Hdf. unfold discover_pair, pair_steps.
  eapply simv_bind; [by apply sim_getitem_list|]. intros r1 F1 w1 Hev1 H1.
  eapply simv_bind_ok; [by apply sim_shape0|]. intros ? w2 Hev2 Hs; same_subst Hs.
  apply Hev2 in H1.
  eapply simv_bind_ok; [by apply sim_dropna|]. intros r2 w3 Hev3 H2.
  eapply simv_bind_ok; [by apply sim_shape0|]. intros ? w4 Hev4 Hs; same_subst Hs.
  eapply simv_bind; [apply sim_lift|]. intros pct ? w5 Hev5 Hs; same_subst Hs.
  apply Hev4, Hev5 in H2.
  eapply simv_bind; [by apply labelencode_if_object_run|]. intros r3 F3 w6 Hev6 H3.
  eapply simv_bind; [by apply sim_getitem_list|]. intros rX X w7 Hev7 HX.
  apply Hev7 in H3.
  eapply simv_bind_gen; [by apply sim_getitem|]. intros y y' w8 Hy Hev8 Hs.
  unfold same in Hs; subst y'.
  apply Hev8 in H3, HX.
  eapply simv_bind_ok; [by apply sim_read_frame|]. intros ? w9 Hev9 Hs; same_subst Hs.
  eapply simv_bind; [by apply sim_assert|]. intros [] [] w10 Hev10 _.
  eapply simv_bind_gen; [by apply sim_lift|]. intros ok ok' w11 Hok Hev11 Hs.
  unfold same in Hs; subst ok'.
  eapply simv_bind; [by apply sim_assert|]. intros [] [] w12 Hev12 _.
  assert (estimators w12 = estimators w) as Hest by (by same_estimators).
  apply Hev9, Hev10, Hev11, Hev12 in H3, HX.
  eapply (simv_bind_v same).
  { case_test (m = "rf") Hrf; [|by apply simv_ret].
    rewrite <- Hest.
    pose proof (simv_call_cross_val_score est rX X y w12 HX) as Hcall.
    destruct (estimators w12 !! est) as [e|].
    - eapply (simv_bind_v same); [exact Hcall|].
      intros scores ? w' _ <-. by apply simv_ret.
    - destruct Hcall as (w' & Hev' & Hcall). exists w'. split; [done|].
      simpl in *. by rewrite (M_bind_raise _ _ _ _ _ Hcall). }
  intros sc ? w13 Hev13 <-. apply Hev13 in H3.
  eapply (simv_bind_v same).
  { case_test (m ∈ corr_methods) Hcorr; [|by apply simv_ret].
    eapply simv_bind; [by apply sim_getitem_list|]. intros rp Fp w14 Hev14 Hp.
    eapply simv_bind_ok; [by apply sim_shape1|]. intros ? w15 Hev15 Hs; same_subst Hs.
    eapply simv_bind; [apply sim_assert|]. intros [] [] w16 Hev16 _.
    apply Hev15, Hev16 in Hp.
    eapply simv_bind_ok; [by apply sim_read_frame|]. intros ? w17 Hev17 Hs; same_subst Hs.
    apply sim_simv, sim_lift. }
  intros sc' sc'' w18 Hev18 Hs. unfold same in Hs; subst sc''.
  by apply simv_ret.
Qed.

Lemma mapM_v_app {A B} (g : A → V B) (l1 l2 : list A)
    (t : rng * list (@cv_call num obj rng)) :
  mapM_v g (l1 ++ l2) t = (a ← mapM_v g l1; b ← mapM_v g l2; mret (a ++ b)) t.
Proof.
  revert t. induction l1 as [|x l1 IH]; intros t; simpl.
  - unfold mbind, V_mbind, V_bind, mret, V_mret, V_ret. simpl.
    by destruct (mapM_v g l2 t) as [[?|?] ?].
  - unfold mbind, V_mbind, V_bind, mret, V_mret, V_ret in *.
    destruct (g x t) as [[y|e] t1]; [|done]. rewrite IH.
    destruct (mapM_v g l1 t1) as [[ys|e] t2]; [|done].
    by destruct (mapM_v g l2 t2) as [[?|?] ?].
Qed.

Lemma ordered_pairs_inner (cols : list string) :
  ordered_pairs cols
  = '(idx_Y, target) ← enumerate cols; inner_pairs idx_Y target (enumerate cols).
Proof. reflexivity. Qed.

Lemma inner_loop_run df est F eo m idx_Y t
    (g : string * string → V (score_record * nan_info)) l acc w :
  frames w !! df = Some F →
  estimators w !! est = eo →
  (∀ f, g (f, t) = pair_steps est eo F m f t) →
  simv (extends_by acc)
    (for_each l (λ '(idx_X, feature) acc,
       if bool_decide (idx_X = idx_Y) then mret acc
       else discover_pair df est m feature t acc) acc)
    (mapM_v g (inner_pairs idx_Y t l)) w.
Proof.
  intros Hdf Hest Hg. revert acc w Hdf Hest.
  induction l as [|[idx_X f] l IH]; intros [ds ni] w Hdf Hest.
  - apply simv_ret. unfold extends_by; simpl. by rewrite !app_nil_r.
  - unfold inner_pairs. simpl. fold (inner_pairs idx_Y t l).
    case_bool_decide as Hidx; simpl.
    + eapply simv_bind_ok; [by apply (sim_ret same)|].
      intros acc' w' Hev Hs. unfold same in Hs; subst acc'.
      apply IH; [by apply Hev|]. by rewrite (ev_estimators _ _ _ Hev).
    + rewrite Hg. eapply simv_bind_v.
      { rewrite <- Hest. by apply discover_pair_run. }
      intros acc' [d n] w' Hev ->. simpl.
      eapply simv_post.
      { apply IH; [by apply Hev|]. by rewrite (ev_estimators _ _ _ Hev). }
      intros acc'' rows w'' ->.
      unfold extends_by; simpl. by rewrite <- !app_assoc.
Qed.

Lemma sim_dict_get (em : gmap string ref) key r w :
  em !! key = Some r → sim same (dict_get em key) (Ok r) w.
Proof. intros Hem. unfold dict_get. rewrite Hem. by apply sim_ret. Qed.

Lemma outer_loop_run df F em ov seed m cols l acc w :
  frames w !! df = Some F →
  bound_in ov seed em w →
  (∀ j t, (j, t) ∈ l → is_Some (em !! t)) →
  simv (extends_by acc)
    (for_each l (λ '(idx_Y, target) acc,
       est ← dict_get em target;
       for_each (enumerate cols) (λ '(idx_X, feature) acc,
         if bool_decide (idx_X = idx_Y) then mret acc
         else discover_pair df est m feature target acc) acc) acc)
    (mapM_v (pairs_steps em F ov m seed)
       ('(idx_Y, target) ← l; inner_pairs idx_Y target (enumerate cols))) w.
Proof.
  intros Hdf Hem Hl. revert acc w Hdf Hem.
  induction l as [|[idx_Y t] l IH]; intros [ds ni] w Hdf Hem.
  - apply simv_ret. unfold extends_by; simpl. by rewrite !app_nil_r.
  - simpl. eapply simv_eq; [apply mapM_v_app|].
    destruct (Hl idx_Y t) as [est Hest]; [left|].
    eapply simv_bind_v.
    { eapply simv_bind_ok; [by apply sim_dict_get|].
      intros est' w' Hev Hs. unfold same in Hs; subst est'.
      apply (inner_loop_run df est F (Some (estimator_for ov seed t)));
        [by apply Hev| |].
      - rewrite (ev_estimators _ _ _ Hev). by apply Hem.
      - intros f. unfold pairs_steps. cbv beta iota.
        replace (default 0 (em !! t)) with est; [done|].
        unfold ref in *. by rewrite Hest. }
    intros acc' rows w' Hev ->.
    eapply simv_post.
    { apply IH.
      - intros j t' Hin. apply (Hl j t'). by right.
      - by apply Hev.
      - intros c r Hc. rewrite (ev_estimators _ _ _ Hev). by apply Hem. }
    intros acc'' rows' w'' ->. unfold extends_by; simpl.
    by rewrite !fmap_app, !app_assoc.
Qed.

Lemma build_estimator_mapping_loop cols ov seed (em0 : gmap string ref) w :
  bound_in ov seed em0 w →
  ∃ em,
    for_each cols (λ col estimator_mapping,
      est ← (if bool_decide (col ∈ ov)
             then new_estimator (RandomForestClassifier 50 seed)
             else new_estimator (RandomForestRegressor 50 seed));
      mret (<[col := est]> estimator_mapping)) em0 w
    = (Ok em, mkWorld (frames w)
                (estimators w ++ (estimator_for ov seed <$> cols)) (cv_calls w)
                (rng_state w))
    ∧ bound_in ov seed em
        (mkWorld (frames w) (estimators w ++ (estimator_for ov seed <$> cols))
           (cv_calls w) (rng_state w))
    ∧ (∀ c, is_Some (em !! c) ↔ is_Some (em0 !! c) ∨ c ∈ cols)
    ∧ (∀ c r, em !! c = Some r → em0 !! c = Some r ∨ length (estimators w) ≤ r).
Proof.
  revert em0 w. induction cols as [|col cols IH]; intros em0 w Hem0.
  - exists em0. simpl. rewrite app_nil_r. destruct w; simpl.
    split; [done|]. split; [done|]. split; [|by left].
    intros c. split; [by left|]. intros [?|Hin]; [done|]. by apply elem_of_nil in Hin.
  - set (w1 := mkWorld (frames w) (estimators w ++ [estimator_for ov seed col])
                 (cv_calls w) (rng_state w)).
    destruct (IH (<[col := length (estimators w)]> em0) w1) as (em & Hrun & Hb & Hdom & Hnew).
    { intros c r Hc. simpl. destruct (decide (col = c)) as [->|Hne].
      - rewrite lookup_insert_eq in Hc. injection Hc as <-.
        rewrite lookup_app_r by done. by rewrite Nat.sub_diag.
      - rewrite lookup_insert_ne in Hc by done. by apply lookup_app_l_Some, Hem0. }
    exists em. simpl in *. rewrite <- app_assoc in Hrun, Hb. simpl in *.
    split; [|split; [done|split]].
    + etrans; [|exact Hrun].
      simpl. apply (M_bind_ok _ _ w (<[col := length (estimators w)]> em0) w1).
      unfold w1, estimator_for. by case_bool_decide.
    + intros c. rewrite Hdom. destruct (decide (col = c)) as [->|Hne].
      * rewrite lookup_insert_eq. split; [intros _; right; left|intros _; left; eauto].
      * rewrite lookup_insert_ne by done. rewrite elem_of_cons.
        split; [tauto|]. intros [?|[?|?]]; [tauto|congruence|tauto].
    + intros c r Hc. destruct (Hnew c r Hc) as [Hc'|Hlen].
      * destruct (decide (col = c)) as [->|Hne].
        -- rewrite lookup_insert_eq in Hc'. injection Hc' as <-. by right.
        -- rewrite lookup_insert_ne in Hc' by done. by left.
      * right. rewrite length_app in Hlen. simpl in Hlen. lia.
Qed.

Lemma build_estimator_mapping_run cols ov seed w :
  ∃ em,
    build_estimator_mapping cols ov seed w
    = (Ok em, mkWorld (frames w)
                (estimators w ++ (estimator_for ov seed <$> cols)) (cv_calls w)
                (rng_state w))
    ∧ bound_in ov seed em
        (mkWorld (frames w) (estimators w ++ (estimator_for ov seed <$> cols))
           (cv_calls w) (rng_state w))
    ∧ (∀ c, is_Some (em !! c) ↔ c ∈ cols)
    ∧ (∀ c r, em !! c = Some r → length (estimators w) ≤ r).
Proof.
  destruct (build_estimator_mapping_loop cols ov seed ∅ w)
    as (em & Hrun & Hb & Hdom & Hnew); [by intros c r|].
  exists em. split; [done|]. split; [done|]. split.
  - intros c. rewrite Hdom, lookup_empty. split; [|by right].
    intros [[? [=]]|?]; done.
  - intros c r Hc. destruct (Hnew c r Hc) as [Hc'|?]; [|done].
    by rewrite lookup_empty in Hc'.
Qed.

Lemma discover_invalid_method df ov m seed flag w :
  m ∉ known_methods →
  discover df ov m seed flag w
  = (Raise (AssertionError
       ("Expecting method to be one of: " +:+ repr_list known_methods)), w).
Proof.
  intros Hm. unfold discover, py_assert. by rewrite bool_decide_eq_false_2.
Qed.

Lemma discover_steps_known (em : gmap string ref) F ov m seed flag
    (t : rng * list (@cv_call num obj rng)) :
  m ∈ known_methods →
  discover_steps em F ov m seed flag t
  = match mapM_v (pairs_steps em F (default [] ov) m seed)
            (ordered_pairs (labels F)) t with
    | (Ok rows, t') => (Ok (package flag rows), t')
    | (Raise e, t') => (Raise e, t')
    end.
Proof.
  intros Hm. unfold discover_steps, assert_res.
  rewrite bool_decide_eq_true_2 by done. by rewrite V_bind_lift, V_bind_eq.
Qed.

Lemma discover_steps_unknown (em : gmap string ref) F ov m seed flag
    (t : rng * list (@cv_call num obj rng)) :
  m ∉ known_methods →
  discover_steps em F ov m seed flag t
  = (Raise (AssertionError
       ("Expecting method to be one of: " +:+ repr_list known_methods)), t).
Proof.
  intros Hm. unfold discover_steps, assert_res.
  rewrite bool_decide_eq_false_2 by done. by rewrite V_bind_lift.
Qed.

(** [discover] with a known method: the estimators are built, then the
    loops run as [discover_steps] says *)
Lemma discover_run df ov m seed flag F w :
  frames w !! df = Some F →
  m ∈ known_methods →
  ∃ em w',
    build_estimator_mapping (labels F) (default [] ov) seed w
    = (Ok em, mkWorld (frames w)
                (estimators w ++ (estimator_for (default [] ov) seed <$> labels F))
                (cv_calls w) (rng_state w))
    ∧ discover df ov m seed flag w
      = ((discover_steps em F ov m seed flag (footprint w)).1, w')
    ∧ evolves_to (discover_steps em F ov m seed flag (footprint w)).2
        (mkWorld (frames w)
           (estimators w ++ (estimator_for (default [] ov) seed <$> labels F))
           (cv_calls w) (rng_state w)) w'.
Proof.
  intros Hdf Hm.
  destruct (build_estimator_mapping_run (labels F) (default [] ov) seed w)
    as (em & Hrun & Hb & Hdom & _).
  set (w1 := mkWorld _ _ _ _) in *.
  destruct (outer_loop_run df F em (default [] ov) seed m (labels F)
              (enumerate (labels F)) ([], []) w1) as (w' & Hev & Hloops);
    [done|done| |].
  { intros j t Hin. apply Hdom. unfold enumerate in Hin.
    by apply elem_of_zip_r in Hin. }
  exists em, w'. split; [done|].
  rewrite <- ordered_pairs_inner in Hev, Hloops.
  change (footprint w1) with (footprint w) in Hev, Hloops.
  rewrite (discover_steps_known em F ov m seed flag _ Hm).
  unfold discover, py_assert, discover_loops.
  rewrite bool_decide_eq_true_2 by done.
  rewrite (M_bind_ok _ _ w () w) by done.
  rewrite (M_bind_ok _ _ w (labels F) w).
  2:{ unfold columns, read_frame, mbind, M_mbind, M_bind. by rewrite Hdf. }
  rewrite (M_bind_ok _ _ _ _ _ Hrun).
  destruct (mapM_v _ (ordered_pairs (labels F)) (footprint w)) as [[rows|e] t1];
    simpl in Hev, Hloops |- *.
  - destruct Hloops as ([ds ni] & Hloops & Hacc).
    rewrite (M_bind_ok _ _ _ _ _ Hloops).
    unfold extends_by in Hacc. simpl in Hacc. injection Hacc as -> ->.
    split; [|done]. by destruct flag.
  - by rewrite (M_bind_raise _ _ _ _ _ Hloops).
Qed.

End Simulation.

(** ** Lists: [enumerate], [ordered_pairs], [mapM_res] *)

Lemma elem_of_enumerate {A} (l : list A) i x :
  (i, x) ∈ enumerate l ↔ l !! i = Some x.
Proof.
  unfold enumerate. rewrite list_elem_of_lookup. split.
  - intros (k & Hk). apply lookup_zip_Some in Hk as [Hs Hx].
    apply lookup_seq in Hs as [-> _]. done.
  - intros Hx. exists i. apply lookup_zip_Some. split; [|done].
    apply lookup_seq. split; [done|]. by apply lookup_lt_Some in Hx.
Qed.

Lemma enumerate_snd {A} (l : list A) : (enumerate l).*2 = l.
Proof. unfold enumerate. apply snd_zip. by rewrite length_seq. Qed.

Lemma length_enumerate {A} (l : list A) : length (enumerate l) = length l.
Proof. by rewrite <- (enumerate_snd l) at 2; rewrite length_fmap. Qed.

Lemma elem_of_inner_pairs idx_Y target l f t :
  (f, t) ∈ inner_pairs idx_Y target l
  ↔ t = target ∧ ∃ i, i ≠ idx_Y ∧ (i, f) ∈ l.
Proof.
  unfold inner_pairs. rewrite list_elem_of_bind. split.
  - intros ([i f'] & Hin & Hl). case_bool_decide; [by apply elem_of_nil in Hin|].
    apply list_elem_of_singleton in Hin as [= -> ->]. eauto.
  - intros (-> & i & Hne & Hl). exists (i, f). split; [|done].
    rewrite bool_decide_eq_false_2 by done. by apply list_elem_of_singleton.
Qed.

Lemma elem_of_ordered_pairs cols f t :
  (f, t) ∈ ordered_pairs cols
  ↔ ∃ i j, i ≠ j ∧ cols !! i = Some f ∧ cols !! j = Some t.
Proof.
  rewrite ordered_pairs_inner, list_elem_of_bind. split.
  - intros ([j t'] & Hin & Hl). apply elem_of_inner_pairs in Hin as (-> & i & Hne & Hi).
    exists i, j. by rewrite <- !elem_of_enumerate.
  - intros (i & j & Hne & Hi & Hj). exists (j, t). split.
    + apply elem_of_inner_pairs. split; [done|]. exists i. by rewrite elem_of_enumerate.
    + by apply elem_of_enumerate.
Qed.

Lemma inner_pairs_by_name idx_Y target (l : list (nat * string)) :
  (∀ i f, (i, f) ∈ l → i = idx_Y ↔ f = target) →
  inner_pairs idx_Y target l
  = (f ← l.*2; if bool_decide (f = target) then [] else [(f, target)]).
Proof.
  unfold inner_pairs. induction l as [|[i f] l IH]; intros Hl; [done|]. simpl.
  f_equal; [|apply IH; intros i' f' Hin; apply Hl; by right].
  destruct (Hl i f (list_elem_of_here _ _)) as [H1 H2].
  repeat case_bool_decide; try done; exfalso; auto.
Qed.

Lemma list_bind_by_snd {A B C} (g : A * B → list C) (h : B → list C) (l : list (A * B)) :
  (∀ a b, (a, b) ∈ l → g (a, b) = h b) → l ≫= g = l.*2 ≫= h.
Proof.
  induction l as [|[a b] l IH]; intros Hl; [done|]. simpl.
  f_equal; [apply Hl; left|]. apply IH. intros a' b' Hin. apply Hl. by right.
Qed.

(** With distinct labels, leaving out the target's position is leaving
    out the target's name. *)
Lemma ordered_pairs_by_name cols :
  NoDup cols →
  ordered_pairs cols
  = (t ← cols; f ← cols; if bool_decide (f = t) then [] else [(f, t)]).
Proof.
  intros Hnd. rewrite ordered_pairs_inner.
  etrans.
  { apply (list_bind_by_snd (λ '(j, t), inner_pairs j t (enumerate cols))
             (λ t, f ← cols; if bool_decide (f = t) then [] else [(f, t)])).
    intros j t Hj%elem_of_enumerate.
    rewrite inner_pairs_by_name, enumerate_snd; [done|].
    intros i f Hi%elem_of_enumerate. split; [intros ->; congruence|].
    intros ->. by eapply NoDup_lookup. }
  by rewrite enumerate_snd.
Qed.

Lemma length_bind_const {A B} (g : A → list B) (l : list A) n :
  (∀ x, x ∈ l → length (g x) = n) → length (l ≫= g) = length l * n.
Proof.
  induction l as [|x l IH]; intros Hl; [done|]. simpl.
  rewrite length_app, Hl by left. f_equal. apply IH. intros y Hy. apply Hl. by right.
Qed.

Lemma length_inner_pairs idx_Y target k (l : list string) :
  length (inner_pairs idx_Y target (zip (seq k (length l)) l))
  = length l - (if bool_decide (k ≤ idx_Y < k + length l) then 1 else 0).
Proof.
  unfold inner_pairs. revert k. induction l as [|x l IH]; intros k; simpl.
  - by case_bool_decide.
  - rewrite length_app, IH.
    repeat case_bool_decide; simpl; lia.
Qed.

Lemma length_ordered_pairs cols :
  length (ordered_pairs cols) = length cols * (length cols - 1).
Proof.
  rewrite ordered_pairs_inner.
  rewrite (length_bind_const _ _ (length cols - 1)), length_enumerate; [done|].
  intros [j t] Hj%elem_of_enumerate. unfold enumerate.
  rewrite length_inner_pairs. apply lookup_lt_Some in Hj.
  rewrite bool_decide_eq_true_2; [done|lia].
Qed.

Lemma elem_of_unless_eq (f t f' t' : string) :
  (f, t) ∈ (if bool_decide (f' = t') then [] else [(f', t')])
  ↔ f' ≠ t' ∧ f = f' ∧ t = t'.
Proof.
  case_bool_decide.
  - split; [by intros ?%elem_of_nil|by intros []].
  - rewrite list_elem_of_singleton. split; [by intros [= -> ->]|by intros (_ & -> & ->)].
Qed.

Lemma NoDup_ordered_pairs cols : NoDup cols → NoDup (ordered_pairs cols).
Proof.
  intros Hnd. rewrite ordered_pairs_by_name by done.
  apply NoDup_bind; [| |done].
  - intros t1 t2 [f t] _ _ H1 H2.
    apply list_elem_of_bind in H1 as (f1 & H1 & _), H2 as (f2 & H2 & _).
    apply elem_of_unless_eq in H1 as (_ & _ & ->), H2 as (_ & _ & ->). done.
  - intros t _. apply NoDup_bind; [| |done].
    + intros f1 f2 [f t'] _ _ H1 H2.
      apply elem_of_unless_eq in H1 as (_ & -> & _), H2 as (_ & -> & _). done.
    + intros f _. case_bool_decide; [apply NoDup_nil_2|apply NoDup_singleton].
Qed.

Lemma elem_of_ordered_pairs_NoDup cols f t :
  NoDup cols → (f, t) ∈ ordered_pairs cols ↔ f ∈ cols ∧ t ∈ cols ∧ f ≠ t.
Proof.
  intros Hnd. rewrite elem_of_ordered_pairs. split.
  - intros (i & j & Hne & Hi & Hj). split; [by eapply list_elem_of_lookup_2|].
    split; [by eapply list_elem_of_lookup_2|]. intros ->. apply Hne.
    by eapply NoDup_lookup.
  - intros (Hf & Ht & Hne).
    apply list_elem_of_lookup in Hf as [i Hi], Ht as [j Hj].
    exists i, j. split; [|done]. intros ->. congruence.
Qed.

Lemma res_bind_inv {A B} (v : res A) (f : A → res B) b :
  v ≫= f = Ok b → ∃ a, v = Ok a ∧ f a = Ok b.
Proof. destruct v as [a|e]; [|done]. intros Hf. by exists a. Qed.

Lemma mapM_res_Forall2 {A B} (g : A → res B) l rows :
  mapM_res g l = Ok rows ↔ Forall2 (λ x y, g x = Ok y) l rows.
Proof.
  revert rows. induction l as [|x l IH]; intros rows; simpl.
  - split; [intros [= <-]; constructor|by intros ->%Forall2_nil_inv_l].
  - split.
    + intros (y & Hy & (ys & Hys & [= <-])%res_bind_inv)%res_bind_inv.
      constructor; [done|]. by apply IH.
    + intros (y & ys & Hy & Hys & ->)%Forall2_cons_inv_l.
      rewrite Hy. simpl. apply IH in Hys. by rewrite Hys.
Qed.

Lemma mapM_res_keys {A B} (g : A → res B) (key : B → A) l rows :
  (∀ x y, g x = Ok y → key y = x) →
  mapM_res g l = Ok rows → key <$> rows = l.
Proof.
  intros Hkey Hm%mapM_res_Forall2.
  induction Hm as [|x y l rows Hxy _ IH]; [done|]. simpl. f_equal; [by apply Hkey|done].
Qed.

Lemma mapM_res_elem {A B} (g : A → res B) l rows x :
  mapM_res g l = Ok rows → x ∈ l → ∃ y, g x = Ok y ∧ y ∈ rows.
Proof.
  intros Hm%mapM_res_Forall2 Hx.
  induction Hm as [|x' y l rows Hxy _ IH]; [by apply elem_of_nil in Hx|].
  apply elem_of_cons in Hx as [->|Hx].
  - exists y. split; [done|left].
  - destruct (IH Hx) as (y' & ? & ?). exists y'. split; [done|by right].
Qed.

Lemma Forall2_keys {A B} (P : A → B → Prop) (key : B → A) l rows :
  (∀ x y, P x y → key y = x) → Forall2 P l rows → key <$> rows = l.
Proof.
  intros Hkey. induction 1 as [|x y l rows Hxy _ IH]; [done|].
  by rewrite fmap_cons, (Hkey x y Hxy), IH.
Qed.

Lemma Forall2_elem {A B} (P : A → B → Prop) l rows x :
  Forall2 P l rows → x ∈ l → ∃ y, P x y ∧ y ∈ rows.
Proof.
  induction 1 as [|x' y l rows Hxy _ IH]; [by intros ?%elem_of_nil|].
  intros [->|Hin]%elem_of_cons.
  - exists y. split; [done|left].
  - destruct (IH Hin) as (y' & ? & ?). exists y'. split; [done|by right].
Qed.

Lemma Forall2_elem_inv {A B} (P : A → B → Prop) l rows y :
  Forall2 P l rows → y ∈ rows → ∃ x, x ∈ l ∧ P x y.
Proof.
  induction 1 as [|x y' l rows Hxy _ IH]; [by intros ?%elem_of_nil|].
  intros [->|Hin]%elem_of_cons.
  - exists x. split; [left|done].
  - destruct (IH Hin) as (x' & ? & ?). exists x'. split; [by right|done].
Qed.

Lemma mapM_res_head_raise {A B} (g : A → res B) x l e :
  g x = Raise e → mapM_res g (x :: l) = Raise e.
Proof. intros Hx. simpl. by rewrite Hx. Qed.

Lemma mapM_res_ext {A B} (g h : A → res B) l :
  (∀ x, x ∈ l → g x = h x) → mapM_res g l = mapM_res h l.
Proof.
  induction l as [|x l IH]; intros Hl; [done|]. simpl.
  rewrite Hl by left. rewrite IH; [done|]. intros y Hy. apply Hl. by right.
Qed.

(** rows with distinct keys: the rows that carry a given key *)
Lemma filter_key_absent {A K} `{EqDecision K} (key : A → K) (l : list A) k :
  k ∉ key <$> l → filter (λ y, key y = k) l = [].
Proof.
  induction l as [|y l IH]; intros Hk; [done|].
  simpl in Hk. apply not_elem_of_cons in Hk as [Hne Hk].
  rewrite filter_cons_False by done. by apply IH.
Qed.

Lemma filter_key_unique {A K} `{EqDecision K} (key : A → K) (l : list A) x :
  NoDup (key <$> l) → x ∈ l → filter (λ y, key y = key x) l = [x].
Proof.
  induction l as [|y l IH]; intros Hnd Hx; [by apply elem_of_nil in Hx|].
  simpl in Hnd. apply NoDup_cons in Hnd as [Hy Hnd].
  apply elem_of_cons in Hx as [->|Hx].
  - rewrite filter_cons_True by done. f_equal. by apply filter_key_absent.
  - rewrite filter_cons_False; [by apply IH|].
    intros Heq. apply Hy. rewrite Heq. by apply list_elem_of_fmap_2.
Qed.

Lemma filter_key_unique' {A K} `{EqDecision K} (key : A → K) (l : list A) x k :
  NoDup (key <$> l) → x ∈ l → key x = k → filter (λ y, key y = k) l = [x].
Proof. intros Hnd Hx <-. by apply filter_key_unique. Qed.

(** ** The functional description *)

Section Values.
Context {num obj rng : Type} {lib : @Library num obj rng}.
Implicit Types (w : @world num obj rng) (F G D : @DataFrame num obj)
  (s sf st : @Series num obj).

Lemma labelled_labels key F :
  length (labelled key F) = length (filter (λ x, x = key) (labels F)).
Proof.
  unfold labelled, labels. induction (data F) as [|s l IH]; [done|]. simpl.
  rewrite !filter_cons. case_decide; simpl; by rewrite IH.
Qed.

Lemma labelled_name key F s : s ∈ labelled key F → name s = key.
Proof. unfold labelled. by intros [? _]%list_elem_of_filter. Qed.

Lemma labelled_nonempty key F : labelled key F ≠ [] ↔ key ∈ labels F.
Proof.
  unfold labelled, labels. rewrite list_elem_of_fmap. split.
  - destruct (filter _ _) as [|s l] eqn:E; [done|]. intros _.
    assert (s ∈ filter (λ s, name s = key) (data F)) as Hs by (rewrite E; left).
    apply list_elem_of_filter in Hs as [? ?]. by exists s.
  - intros (s & -> & Hs) E.
    assert (s ∈ filter (λ s', name s' = name s) (data F)) as Hin
      by (by apply list_elem_of_filter).
    rewrite E in Hin. by apply elem_of_nil in Hin.
Qed.

Lemma labelled_of_labelled n a c F :
  labelled c (mkFrame n (labelled a F)) = if decide (a = c) then labelled c F else [].
Proof.
  unfold labelled. simpl. induction (data F) as [|s l IH]; [by case_decide|].
  rewrite !filter_cons. case_decide as Hc; repeat case_decide; subst; simpl;
    rewrite ?filter_cons_True, ?filter_cons_False by congruence;
    rewrite ?IH; repeat case_decide; congruence.
Qed.

Lemma frame_getitem_list_pair F f t G :
  frame_getitem_list F [f; t] = Ok G →
  labelled f F ≠ [] ∧ labelled t F ≠ []
  ∧ G = mkFrame (nrows F) (labelled f F ++ labelled t F).
Proof.
  unfold frame_getitem_list. simpl.
  destruct (labelled f F) as [|sf lf]; [done|].
  destruct (labelled t F) as [|st lt]; [done|]. simpl.
  rewrite app_nil_r. by intros [= <-].
Qed.


Lemma labels_dropna F : labels (frame_dropna F) = labels F.
Proof.
  unfold labels, frame_dropna. simpl. rewrite <- list_fmap_compose.
  by apply list_fmap_ext.
Qed.

Lemma count_kept_dropped (g : nat → bool) (l : list nat) :
  length (filter (λ b, b = true) ((λ i, negb (g i)) <$> l))
  + length (filter (λ i, g i = true) l) = length l.
Proof.
  induction l as [|i l IH]; [done|]. simpl. rewrite !filter_cons.
  destruct (g i); simpl; repeat case_decide; try done; unfold fmap in *; simpl; lia.
Qed.

Lemma nrows_dropna F :
  nrows (frame_dropna F)
  + length (filter (λ i, row_isnull F i = true) (seq 0 (nrows F))) = nrows F.
Proof.
  unfold frame_dropna. simpl. rewrite count_kept_dropped. apply length_seq.
Qed.

Lemma rows_with_missing_pair n sf st :
  length (filter (λ i, row_isnull (mkFrame n [sf; st]) i = true) (seq 0 n))
  = rows_with_missing n (values sf) (values st).
Proof.
  unfold rows_with_missing, row_isnull. simpl. f_equal.
  apply list_filter_iff. intros i. by rewrite orb_false_r.
Qed.


(** *** [labelencode_if_object] needs every label it visits to be unique *)

Lemma frame_getitem_is_series F key x dt :
  frame_getitem F key = Ok x → item_dtype x = Ok dt →
  ∃ s, labelled key F = [s] ∧ x = ISeries s.
Proof.
  unfold frame_getitem. destruct (labelled key F) as [|s [|s' l]]; [done| |].
  - intros [= <-] _. by exists s.
  - intros [= <-]. simpl. by case_bool_decide.
Qed.

Lemma labels_drop_setitem F col c G1 G :
  length (labelled col F) = 1 →
  frame_drop F col = Ok G1 → frame_setitem G1 col c = Ok G →
  labels G ≡ₚ labels F.
Proof.
  intros Hone. unfold frame_drop. destruct (labelled col F) as [|s l] eqn:E; [done|].
  intros [= <-]. unfold frame_setitem. case_bool_decide; [|done].
  replace (labelled col (mkFrame (nrows F) (filter (λ s, name s ≠ col) (data F))))
    with (@nil (@Series num obj)).
  2:{ unfold labelled. simpl. symmetry. apply filter_key_absent.
      intros (s' & Hn & [Hne _]%list_elem_of_filter)%list_elem_of_fmap. congruence. }
  intros [= <-]. unfold labels. simpl in *. rewrite fmap_app. simpl.
  destruct l; [|done].
  rewrite <- (filter_app_complement (λ s, name s = col) (data F)) at 2.
  fold (labelled col F). rewrite E, fmap_app. simpl.
  rewrite (labelled_name col F s) by (rewrite E; left).
  by rewrite Permutation_app_comm.
Qed.

Lemma encode_column_inv col F G :
  encode_column col F = Ok G →
  length (labelled col F) = 1 ∧ labels G ≡ₚ labels F.
Proof.
  unfold encode_column.
  intros (x & Hx & (dt & Hdt & H)%res_bind_inv)%res_bind_inv.
  destruct (frame_getitem_is_series F col x dt Hx Hdt) as (s & Hs & ->).
  assert (length (labelled col F) = 1) as Hone by (by rewrite Hs).
  split; [done|]. destruct dt; [|by injection H as <-].
  apply res_bind_inv in H as (x' & _ & (codes & _ & (G1 & HG1 & H)%res_bind_inv)%res_bind_inv).
  by eapply labels_drop_setitem.
Qed.

Lemma encode_frame_inv cols F G :
  encode_frame cols F = Ok G →
  labels G ≡ₚ labels F ∧ ∀ c, c ∈ cols → length (labelled c F) = 1.
Proof.
  revert F. induction cols as [|col cols IH]; intros F; simpl.
  - intros [= <-]. split; [done|]. by intros c ?%elem_of_nil.
  - intros (G1 & [Hone HG1]%encode_column_inv & [HG Hc]%IH)%res_bind_inv.
    split; [by rewrite HG|]. intros c [->|Hin]%elem_of_cons; [done|].
    rewrite labelled_labels, <- HG1, <- labelled_labels. by apply Hc.
Qed.

(** *** What a successful pass of the loop body tells *)

Lemma pair_value_inv g F est m f t d n :
  pair_value g F est m f t = Ok (d, n) →
  ∃ D pct sc,
    true_div (Z.of_nat (nrows F)
              - Z.of_nat (nrows (frame_dropna
                  (mkFrame (nrows F) (labelled f F ++ labelled t F)))))
      (Z.of_nat (nrows F)) = Ok pct
    ∧ labelled f F ≠ [] ∧ labelled t F ≠ []
    ∧ encode_frame (labels (mkFrame (nrows F) (labelled f F ++ labelled t F)))
        (frame_dropna (mkFrame (nrows F) (labelled f F ++ labelled t F))) = Ok D
    ∧ d = mkScore f t sc
    ∧ n = mkNaN f t
          (Z.of_nat (nrows F)
           - Z.of_nat (nrows (frame_dropna
               (mkFrame (nrows F) (labelled f F ++ labelled t F)))))
          pct.
Proof.
  unfold pair_value.
  intros (df_ml & (Hf & Ht & ->)%frame_getitem_list_pair & H)%res_bind_inv.
  cbv zeta in H. simpl nrows in H.
  apply res_bind_inv in H as (pct & Hpct & H).
  rewrite labels_dropna in H.
  apply res_bind_inv in H as (D & HD & H).
  apply res_bind_inv in H as (df_X & _ & H).
  apply res_bind_inv in H as (df_y & _ & H).
  apply res_bind_inv in H as (? & _ & H).
  apply res_bind_inv in H as (ok & _ & H).
  apply res_bind_inv in H as (? & _ & H).
  apply res_bind_inv in H as (sc & _ & H).
  apply res_bind_inv in H as (sc' & _ & H).
  injection H as <- <-. by exists D, pct, sc'.
Qed.

Lemma pair_value_keys g F est m f t d n :
  pair_value g F est m f t = Ok (d, n) →
  feature d = f ∧ target d = t ∧ nan_feature n = f ∧ nan_target n = t.
Proof. by intros (D & pct & sc & _ & _ & _ & _ & -> & ->)%pair_value_inv. Qed.

Lemma pair_value_unique g F est m f t d n :
  pair_value g F est m f t = Ok (d, n) →
  f ≠ t ∧ ∃ sf st, labelled f F = [sf] ∧ labelled t F = [st].
Proof.
  intros (D & pct & sc & _ & Hf & Ht & [_ Hone]%encode_frame_inv & _)%pair_value_inv.
  set (G := mkFrame (nrows F) (labelled f F ++ labelled t F)) in *.
  assert (∀ c, length (labelled c (frame_dropna G))
               = (if decide (f = c) then length (labelled c F) else 0)
                 + (if decide (t = c) then length (labelled c F) else 0)) as Hlen.
  { intros c. rewrite labelled_labels, labels_dropna, <- labelled_labels.
    unfold G, labelled at 1. simpl. rewrite filter_app, length_app.
    pose proof (labelled_of_labelled 0 f c F) as H1.
    pose proof (labelled_of_labelled 0 t c F) as H2.
    unfold labelled at 1 in H1. unfold labelled at 1 in H2. simpl in H1, H2.
    rewrite H1, H2. by repeat case_decide. }
  assert (f ∈ labels G ∧ t ∈ labels G) as [Hfin Htin].
  { unfold labels, G. simpl. rewrite fmap_app, !elem_of_app.
    destruct (labelled f F) as [|sf lf] eqn:Ef; [done|].
    destruct (labelled t F) as [|st lt] eqn:Et; [done|].
    rewrite <- (labelled_name f F sf) at 1 by (rewrite Ef; left).
    rewrite <- (labelled_name t F st) at 2 by (rewrite Et; left).
    split; [left|right]; simpl; left. }
  pose proof (Hone f Hfin) as Hf1. pose proof (Hone t Htin) as Ht1.
  rewrite Hlen in Hf1, Ht1.
  rewrite decide_True in Hf1 by done. rewrite (decide_True (P := t = t)) in Ht1 by done.
  destruct (labelled f F) as [|sf [|??]] eqn:Ef; [done| |simpl in *; repeat case_decide; lia].
  destruct (labelled t F) as [|st [|??]] eqn:Et; [done| |simpl in *; repeat case_decide; lia].
  split; [|by eauto]. intros ->.
  rewrite decide_True in Hf1 by done. simpl in Hf1. lia.
Qed.



Lemma corr_method_not_rf m : m ∈ corr_methods → m ≠ "rf".
Proof.
  unfold corr_methods. rewrite !elem_of_cons, elem_of_nil.
  intros [->|[->|[->|[]]]]; done.
Qed.

Lemma pair_value_not_rf g1 g2 F est1 est2 m f t :
  m ≠ "rf" → pair_value g1 F est1 m f t = pair_value g2 F est2 m f t.
Proof.
  intros Hm. unfold pair_value.
  by rewrite (bool_decide_eq_false_2 (m = "rf")).
Qed.

Lemma pair_value_corr g1 g2 F est1 est2 m f t :
  m ∈ corr_methods → pair_value g1 F est1 m f t = pair_value g2 F est2 m f t.
Proof. intros Hm%corr_method_not_rf. by apply pair_value_not_rf. Qed.

Lemma seed_of_estimator_for ov seed (k : string) :
  seed_of (estimator_for ov seed k) = seed.
Proof. unfold estimator_for. by case_bool_decide. Qed.

(** with a seed, the rows of a pair do not depend on the state of the
    random generator *)
Lemma pair_value_seeded g1 g2 F e m f t :
  is_Some (seed_of e) → pair_value g1 F (Some e) m f t = pair_value g2 F (Some e) m f t.
Proof.
  intros Hseed. unfold pair_value.
  destruct (frame_getitem_list F [f; t]) as [df_ml|?]; [|done]. simpl.
  destruct (true_div _ _) as [pct|?]; [|done]. simpl.
  destruct (encode_frame _ _) as [D|?]; [|done]. simpl.
  destruct (frame_getitem_list D [f]) as [X|?]; [|done]. simpl.
  destruct (frame_getitem D t) as [y|?]; [|done]. simpl.
  by rewrite (cross_val_score_seeded e X y g2 g1 Hseed).
Qed.

Lemma pair_value_zero_rows g F est m f t :
  nrows F = 0 → f ∈ labels F → t ∈ labels F →
  pair_value g F est m f t = Raise ZeroDivisionError.
Proof.
  intros Hn Hf%labelled_nonempty Ht%labelled_nonempty.
  unfold pair_value, frame_getitem_list. simpl.
  destruct (labelled f F) as [|sf lf]; [done|].
  destruct (labelled t F) as [|st lt]; [done|]. simpl. by rewrite Hn.
Qed.

Lemma pair_value_nan g F est m f t d n sf st :
  pair_value g F est m f t = Ok (d, n) →
  labelled f F = [sf] → labelled t F = [st] →
  n_dropped_na n = Z.of_nat (rows_with_missing (nrows F) (values sf) (values st))
  ∧ nrows F ≠ 0
  ∧ pct_dropped_na n = Qmake (n_dropped_na n) (Z.to_pos (Z.of_nat (nrows F))).
Proof.
  intros (D & pct & sc & Hpct & _ & _ & _ & _ & ->)%pair_value_inv Hf Ht.
  rewrite Hf, Ht in *. simpl.
  pose proof (nrows_dropna (mkFrame (nrows F) [sf; st])) as Hrows. simpl nrows in Hrows.
  rewrite rows_with_missing_pair in Hrows.
  unfold true_div in Hpct. case_bool_decide as Hz; [done|]. injection Hpct as <-.
  split; [lia|]. split; [lia|done].
Qed.

Lemma package_results flag (rows : list (@score_record num * nan_info)) :
  results_of (package flag rows) = rows.*1.
Proof. by destruct flag. Qed.


End Values.

(** ** The footprint of the loops *)

Section Footprints.
Context {num obj rng : Type} {lib : @Library num obj rng}.
Implicit Types (w : @world num obj rng) (F G D : @DataFrame num obj)
  (s sf st : @Series num obj) (fp : rng * list (@cv_call num obj rng)).

Lemma mapM_v_cons {A B} (h : A → V B) x l fp :
  mapM_v h (x :: l) fp
  = match h x fp with
    | (Ok y, fp1) =>
        match mapM_v h l fp1 with
        | (Ok ys, fp2) => (Ok (y :: ys), fp2)
        | (Raise e, fp2) => (Raise e, fp2)
        end
    | (Raise e, fp1) => (Raise e, fp1)
    end.
Proof.
  simpl. rewrite V_bind_eq. destruct (h x fp) as [[y|e] fp1]; [|done].
  rewrite V_bind_eq. by destruct (mapM_v h l fp1) as [[ys|e] fp2].
Qed.

Lemma mapM_v_Forall2 {A B} (h : A → V B) l fp rows :
  (mapM_v h l fp).1 = Ok rows →
  Forall2 (λ x y, ∃ fp', (h x fp').1 = Ok y) l rows.
Proof.
  revert fp rows. induction l as [|x l IH]; intros fp rows.
  - simpl. intros [= <-]. constructor.
  - rewrite mapM_v_cons. destruct (h x fp) as [[y|e] fp1] eqn:Hx; [|done].
    destruct (mapM_v h l fp1) as [[ys|e] fp2] eqn:Hl; [|done].
    simpl. intros [= <-]. constructor.
    + exists fp. by rewrite Hx.
    + apply (IH fp1). by rewrite Hl.
Qed.

(** a run of the loops that raises stopped at the pair that raised *)
Lemma mapM_v_raise_inv {A B} (h : A → V B) l fp e :
  (mapM_v h l fp).1 = Raise e →
  ∃ x fp', x ∈ l ∧ (h x fp').1 = Raise e ∧ (mapM_v h l fp).2 = (h x fp').2.
Proof.
  revert fp. induction l as [|x l IH]; intros fp; [done|].
  rewrite mapM_v_cons. destruct (h x fp) as [[y|e'] fp1] eqn:Hx.
  - destruct (mapM_v h l fp1) as [[ys|e'] fp2] eqn:Hl; [done|].
    simpl. intros [= ->].
    destruct (IH fp1) as (x' & fp' & Hin & Hr & Hfp); [by rewrite Hl|].
    exists x', fp'. split; [by right|]. split; [done|]. by rewrite <- Hfp, Hl.
  - simpl. intros [= ->]. exists x, fp. split; [left|]. by rewrite Hx.
Qed.

Lemma mapM_v_head_raise {A B} (h : A → V B) x l fp e :
  (h x fp).1 = Raise e → (mapM_v h (x :: l) fp).1 = Raise e.
Proof.
  intros Hx. rewrite mapM_v_cons.
  destruct (h x fp) as [[y|e'] fp1]; simpl in *; congruence.
Qed.

(** steps that leave the footprint alone *)
Lemma mapM_v_quiet {A B} (h : A → V B) (r : A → res B) l fp :
  (∀ x fp', x ∈ l → h x fp' = (r x, fp')) →
  mapM_v h l fp = (mapM_res r l, fp).
Proof.
  revert fp. induction l as [|x l IH]; intros fp Hq; [done|].
  rewrite mapM_v_cons, Hq by left. simpl.
  destruct (r x) as [y|e]; [|done]. simpl.
  rewrite IH by (intros x' fp' Hx'; apply Hq; by right).
  by destruct (mapM_res r l).
Qed.

Lemma mapM_v_ext {A B} (h1 h2 : A → V B) l fp :
  (∀ x fp', x ∈ l → h1 x fp' = h2 x fp') → mapM_v h1 l fp = mapM_v h2 l fp.
Proof.
  revert fp. induction l as [|x l IH]; intros fp Hq; [done|].
  rewrite !mapM_v_cons, Hq by left.
  destruct (h2 x fp) as [[y|e] fp1]; [|done].
  by rewrite IH by (intros x' fp' Hx'; apply Hq; by right).
Qed.

(** steps that record one call each, unless they raise before it: the
    calls of the run are those of the first [k] elements, of all of them
    when the run returns *)
Lemma mapM_v_calls {A B} (h : A → V B) (Q : A → cv_call → Prop) l fp :
  (∀ x fp', x ∈ l →
     (∃ e, h x fp' = (Raise e, fp'))
     ∨ (∃ c, (h x fp').2.2 = fp'.2 ++ [c] ∧ Q x c)) →
  ∃ k calls,
    (mapM_v h l fp).2.2 = fp.2 ++ calls
    ∧ k ≤ length l
    ∧ Forall2 Q (take k l) calls
    ∧ (is_Ok (mapM_v h l fp).1 → k = length l).
Proof.
  revert fp. induction l as [|x l IH]; intros fp Hh.
  - exists 0, []. simpl. rewrite app_nil_r. split; [done|]. split; [done|].
    split; [constructor|done].
  - rewrite mapM_v_cons.
    destruct (Hh x fp) as [(e & Hx)|(c & Hc & HQ)]; [left|..].
    + rewrite Hx. exists 0, []. simpl. rewrite app_nil_r.
      split; [done|]. split; [lia|]. split; [constructor|]. by intros [? [=]].
    + destruct (h x fp) as [[y|e] fp1] eqn:Hx; simpl in Hc.
      * destruct (IH fp1) as (k & calls & Hcalls & Hk & HQs & Hok).
        { intros x' fp' Hx'. apply Hh. by right. }
        exists (S k), (c :: calls).
        destruct (mapM_v h l fp1) as [[ys|e] fp2]; simpl in *.
        -- rewrite Hcalls, Hc, <- app_assoc. split; [done|]. split; [lia|].
           split; [by constructor|]. intros _. f_equal. apply Hok. by eexists.
        -- rewrite Hcalls, Hc, <- app_assoc. split; [done|]. split; [lia|].
           split; [by constructor|]. by intros [? [=]].
      * exists 1, [c]. simpl. split; [done|]. split; [lia|].
        split; [rewrite take_0; by repeat constructor|]. by intros [? [=]].
Qed.

(** *** The loop body *)

Ltac vstep :=
  rewrite V_bind_lift;
  match goal with
  | |- context [match ?r with Ok _ => _ | Raise _ => _ end] =>
      destruct r eqn:?; cbn [mbind res_mbind res_bind]; cbv zeta; [|try done]
  end.

Lemma pair_steps_value est eo F m f t fp :
  (pair_steps est eo F m f t fp).1 = pair_value fp.1 F eo m f t.
Proof.
  unfold pair_steps, pair_value.
  do 8 vstep.
  rewrite V_bind_eq.
  destruct (decide (m = "rf")) as [Hrf|Hrf].
  - rewrite !(bool_decide_eq_true_2 _ Hrf). destruct eo as [e|]; [|done].
    rewrite V_bind_eq. unfold v_cross_val_score at 1.
    destruct (cross_val_score e _ _ fp.1).1 as [scores|err];
      cbn [mbind res_mbind res_bind]; [|done].
    unfold mret at 1, V_mret, V_ret. rewrite V_bind_eq.
    destruct (decide (m ∈ corr_methods)) as [Hc|Hc].
    + rewrite !(bool_decide_eq_true_2 _ Hc). do 2 vstep.
      unfold v_lift. by destruct (corr_at _ _ _ _).
    + by rewrite !(bool_decide_eq_false_2 _ Hc).
  - rewrite !(bool_decide_eq_false_2 _ Hrf).
    unfold mret at 1, V_mret, V_ret. cbn [mbind res_mbind res_bind].
    rewrite V_bind_eq.
    destruct (decide (m ∈ corr_methods)) as [Hc|Hc].
    + rewrite !(bool_decide_eq_true_2 _ Hc). do 2 vstep.
      unfold v_lift. by destruct (corr_at _ _ _ _).
    + by rewrite !(bool_decide_eq_false_2 _ Hc).
Qed.

Lemma pair_steps_not_rf est eo F m f t fp :
  m ≠ "rf" → pair_steps est eo F m f t fp = (pair_value fp.1 F eo m f t, fp).
Proof.
  intros Hrf. rewrite <- (pair_steps_value est).
  rewrite (surjective_pairing (pair_steps est eo F m f t fp)) at 1. f_equal.
  unfold pair_steps.
  do 8 vstep.
  rewrite V_bind_eq, !(bool_decide_eq_false_2 _ Hrf).
  unfold mret at 1, V_mret, V_ret. rewrite V_bind_eq.
  destruct (decide (m ∈ corr_methods)) as [Hc|Hc].
  - rewrite !(bool_decide_eq_true_2 _ Hc). do 2 vstep.
    unfold v_lift. by destruct (corr_at _ _ _ _).
  - by rewrite !(bool_decide_eq_false_2 _ Hc).
Qed.

(** under rf the loop body raises before it calls [cross_val_score], or
    records one call, for the frame and the series that it made of the
    two columns *)
Lemma pair_steps_rf est e F f t fp :
  (∃ err, pair_steps est (Some e) F "rf" f t fp = (Raise err, fp))
  ∨ (∃ G D' X y,
       frame_getitem_list F [f; t] = Ok G
       ∧ encode_frame (labels (frame_dropna G)) (frame_dropna G) = Ok D'
       ∧ frame_getitem_list D' [f] = Ok X
       ∧ frame_getitem D' t = Ok y
       ∧ frame_count_null X = 0
       ∧ item_no_null y = Ok true
       ∧ (pair_steps est (Some e) F "rf" f t fp).2
         = ((cross_val_score e X y fp.1).2, fp.2 ++ [mkCall est X y fp.1])).
Proof.
  unfold pair_steps.
  rewrite V_bind_lift.
  destruct (frame_getitem_list F [f; t]) as [G|err] eqn:HG; [|left; by eexists].
  cbv zeta. rewrite V_bind_lift.
  destruct (true_div _ _) as [pct|err]; [|left; by eexists].
  rewrite V_bind_lift.
  destruct (encode_frame _ _) as [D'|err] eqn:HD; [|left; by eexists].
  rewrite V_bind_lift.
  destruct (frame_getitem_list D' [f]) as [X|err] eqn:HX; [|left; by eexists].
  rewrite V_bind_lift.
  destruct (frame_getitem D' t) as [y|err] eqn:Hy; [|left; by eexists].
  rewrite V_bind_lift. unfold assert_res at 1.
  case_bool_decide as Hnull; [|left; by eexists].
  rewrite V_bind_lift.
  destruct (item_no_null y) as [ok|err] eqn:Hok; [|left; by eexists].
  rewrite V_bind_lift. unfold assert_res at 1.
  destruct ok; [|left; by eexists].
  right. exists G, D', X, y. do 6 (split; [done|]).
  rewrite V_bind_eq, (bool_decide_eq_true_2 ("rf" = "rf")) by done.
  rewrite V_bind_eq. unfold v_cross_val_score at 1.
  destruct (cross_val_score e X y fp.1).1 as [scores|err]; [|done].
  unfold mret at 1, V_mret, V_ret. rewrite V_bind_eq.
  by rewrite (bool_decide_eq_false_2 ("rf" ∈ corr_methods))
    by (by intros ?%corr_method_not_rf).
Qed.

End Footprints.

(** ** The claims of the specification *)

Section Claims.
Context {num obj rng : Type} {lib : @Library num obj rng}.
Implicit Types (w : @world num obj rng) (F G D : @DataFrame num obj)
  (s sf st : @Series num obj) (v : @result num)
  (fp : rng * list (@cv_call num obj rng)).

Lemma discover_outcome df ov m seed flag F w :
  frames w !! df = Some F →
  ∃ em, (discover df ov m seed flag w).1
        = (discover_steps em F ov m seed flag (footprint w)).1.
Proof.
  intros Hdf. destruct (decide (m ∈ known_methods)) as [Hm|Hm].
  - destruct (discover_run df ov m seed flag F w Hdf Hm) as (em & w' & _ & -> & _).
    by exists em.
  - exists ∅. rewrite discover_invalid_method by done.
    by rewrite discover_steps_unknown.
Qed.

Lemma discover_steps_inv (em : gmap string ref) F ov m seed flag fp v :
  (discover_steps em F ov m seed flag fp).1 = Ok v →
  m ∈ known_methods
  ∧ ∃ rows,
      (mapM_v (pairs_steps em F (default [] ov) m seed)
         (ordered_pairs (labels F)) fp).1 = Ok rows
      ∧ v = package flag rows.
Proof.
  destruct (decide (m ∈ known_methods)) as [Hm|Hm];
    [|by rewrite discover_steps_unknown].
  rewrite discover_steps_known by done.
  destruct (mapM_v _ _ _) as [[rows|e] fp']; [|done].
  simpl. intros [= <-]. eauto.
Qed.

Lemma discover_steps_raise (em : gmap string ref) F ov m seed flag fp e :
  m ∈ known_methods →
  (mapM_v (pairs_steps em F (default [] ov) m seed)
     (ordered_pairs (labels F)) fp).1 = Raise e →
  (discover_steps em F ov m seed flag fp).1 = Raise e.
Proof.
  intros Hm. rewrite discover_steps_known by done.
  destruct (mapM_v _ _ _) as [[rows|e'] fp']; simpl; [by intros [=]|by intros [= ->]].
Qed.

Lemma discover_steps_snd (em : gmap string ref) F ov m seed flag fp :
  m ∈ known_methods →
  (discover_steps em F ov m seed flag fp).2
  = (mapM_v (pairs_steps em F (default [] ov) m seed)
       (ordered_pairs (labels F)) fp).2.
Proof.
  intros Hm. rewrite discover_steps_known by done.
  by destruct (mapM_v _ _ _) as [[rows|e'] fp'].
Qed.

Lemma discover_steps_is_Ok (em : gmap string ref) F ov m seed flag fp :
  is_Ok (discover_steps em F ov m seed flag fp).1 →
  is_Ok (mapM_v (pairs_steps em F (default [] ov) m seed)
           (ordered_pairs (labels F)) fp).1.
Proof. intros [v (_ & rows & -> & _)%discover_steps_inv]. by eexists. Qed.

Lemma pairs_steps_rows (em : gmap string ref) F ov m seed fp rows :
  (mapM_v (pairs_steps em F ov m seed) (ordered_pairs (labels F)) fp).1 = Ok rows →
  Forall2 (pair_row F ov seed m) (ordered_pairs (labels F)) rows.
Proof.
  intros H%mapM_v_Forall2. eapply Forall2_impl; [done|].
  intros [f t] row (fp' & Hrow). exists fp'.1.
  rewrite <- (pair_steps_value (default 0 (em !! t))). exact Hrow.
Qed.

(** without rf the loops leave the generator and the recorded calls alone *)
Lemma mapM_pairs_not_rf (em : gmap string ref) F ov m seed fp :
  m ≠ "rf" →
  mapM_v (pairs_steps em F ov m seed) (ordered_pairs (labels F)) fp
  = (mapM_res (λ '(f, t),
        pair_value fp.1 F (Some (estimator_for ov seed t)) m f t)
       (ordered_pairs (labels F)), fp).
Proof.
  intros Hrf. apply mapM_v_quiet. intros [f t] fp' _.
  unfold pairs_steps. rewrite pair_steps_not_rf by done. f_equal.
  by apply pair_value_not_rf.
Qed.

Lemma pair_rows_NoDup F ov seed m rows :
  Forall2 (pair_row F ov seed m) (ordered_pairs (labels F)) rows → NoDup (labels F).
Proof.
  intros Hrows. apply NoDup_alt. intros i j x Hi Hj.
  destruct (decide (i = j)) as [|Hne]; [done|]. exfalso.
  assert ((x, x) ∈ ordered_pairs (labels F)) as Hin.
  { apply elem_of_ordered_pairs. by exists i, j. }
  destruct (Forall2_elem _ _ _ _ Hrows Hin) as ([d n] & [g Hp] & _).
  by apply pair_value_unique in Hp as [? _].
Qed.

Lemma discover_rows_of df ov m seed flag F w v :
  frames w !! df = Some F →
  (discover df ov m seed flag w).1 = Ok v →
  NoDup (labels F)
  ∧ ∃ rows,
      Forall2 (pair_row F (default [] ov) seed m) (ordered_pairs (labels F)) rows
      ∧ v = package flag rows
      ∧ (λ r, (feature r.1, target r.1)) <$> rows = ordered_pairs (labels F)
      ∧ (λ r, (nan_feature r.2, nan_target r.2)) <$> rows = ordered_pairs (labels F).
Proof.
  intros Hdf Hv. destruct (discover_outcome df ov m seed flag F w Hdf) as (em & Hem).
  rewrite Hem in Hv. apply discover_steps_inv in Hv as (_ & rows & Hrows & ->).
  apply pairs_steps_rows in Hrows.
  split; [by eapply pair_rows_NoDup|].
  exists rows. split; [done|]. split; [done|]. split.
  - eapply (Forall2_keys (pair_row F (default [] ov) seed m)); [|done].
    intros [f t] [d n] [g Hp].
    apply pair_value_keys in Hp as (? & ? & _). simpl. congruence.
  - eapply (Forall2_keys (pair_row F (default [] ov) seed m)); [|done].
    intros [f t] [d n] [g Hp].
    apply pair_value_keys in Hp as (_ & _ & ? & ?). simpl. congruence.
Qed.

(** C1: the score table returned by [discover] has exactly one row for
    each ordered pair (feature, target) of distinct columns, in
    target-major, feature-minor column order: N*(N-1) rows for N columns,
    none with feature = target. *)
Theorem discover_rows df ov m seed flag F w v :
  frames w !! df = Some F →
  (discover df ov m seed flag w).1 = Ok v →
  let cols := labels F in
  let keys := (λ d, (feature d, target d)) <$> results_of v in
  keys = ordered_pairs cols
  ∧ keys = (t ← cols; f ← cols; if bool_decide (f = t) then [] else [(f, t)])
  ∧ length (results_of v) = length cols * (length cols - 1)
  ∧ Forall (λ d, feature d ≠ target d) (results_of v)
  ∧ NoDup keys
  ∧ (∀ f t, (f, t) ∈ keys ↔ f ∈ cols ∧ t ∈ cols ∧ f ≠ t).
Proof.
  intros Hdf Hv cols keys.
  destruct (discover_rows_of df ov m seed flag F w v Hdf Hv)
    as (Hnd & rows & _ & -> & Hkeys & _).
  assert (keys = ordered_pairs cols) as Hk.
  { unfold keys. by rewrite package_results, <- list_fmap_compose. }
  split; [done|]. split; [by rewrite Hk, ordered_pairs_by_name|].
  split.
  { rewrite <- (length_fmap (λ d, (feature d, target d))). fold keys.
    by rewrite Hk, length_ordered_pairs. }
  split.
  { apply Forall_forall. intros d Hd Heq.
    assert ((feature d, target d) ∈ keys) as Hin
      by (by apply (list_elem_of_fmap_2 (λ d, (feature d, target d)))).
    rewrite Hk in Hin. apply elem_of_ordered_pairs_NoDup in Hin as (_ & _ & ?); done. }
  split; [rewrite Hk; by apply NoDup_ordered_pairs|].
  intros f t. rewrite Hk. by apply elem_of_ordered_pairs_NoDup.
Qed.

(** C2: a method outside pearson, spearman, kendall, rf makes [discover]
    fail at once with an assertion error whose message lists the four
    methods, the store untouched (no estimator built, no frame made, no
    scoring call); for a method of the list the check passes and the
    estimators get built. *)
Theorem discover_method_check df ov m seed flag w :
  (m ∉ known_methods →
   discover df ov m seed flag w
   = (Raise (AssertionError
        "Expecting method to be one of: ['pearson', 'spearman', 'kendall', 'rf']"), w))
  ∧ (m ∈ known_methods ↔ m = "pearson" ∨ m = "spearman" ∨ m = "kendall" ∨ m = "rf")
  ∧ (m ∈ known_methods →
     py_assert (bool_decide (m ∈ known_methods))
       ("Expecting method to be one of: " +:+ repr_list known_methods) w = (Ok (), w)
     ∧ ∀ F, frames w !! df = Some F →
         estimators (discover df ov m seed flag w).2
         = estimators w ++ (estimator_for (default [] ov) seed <$> labels F)).
Proof.
  split; [by apply discover_invalid_method|]. split.
  - unfold known_methods, corr_methods. simpl.
    rewrite !elem_of_cons, elem_of_nil. tauto.
  - intros Hm. split; [unfold py_assert; by rewrite bool_decide_eq_true_2|].
    intros F Hdf.
    destruct (discover_run df ov m seed flag F w Hdf Hm) as (em & w' & _ & -> & Hev).
    simpl. by rewrite (ev_estimators _ _ _ Hev).
Qed.

(** C5: [include_na_information] does not change the score table (nor
    the outcome of the call or the store); it only decides whether the
    NaN table comes with it. *)
Theorem include_na_information_same_scores df ov m seed w :
  res_map results_of (discover df ov m seed true w).1
  = res_map results_of (discover df ov m seed false w).1
  ∧ (discover df ov m seed true w).2 = (discover df ov m seed false w).2
  ∧ (∀ v, (discover df ov m seed true w).1 = Ok v → is_Some (nan_info_of v))
  ∧ (∀ v, (discover df ov m seed false w).1 = Ok v → nan_info_of v = None).
Proof.
  unfold discover, mbind, M_mbind, M_bind.
  destruct (py_assert _ _ w) as [[[]|e] w1]; simpl; [|by repeat split].
  destruct (columns df w1) as [[cols|e] w2]; simpl; [|by repeat split].
  destruct (build_estimator_mapping _ _ _ w2) as [[em|e] w3]; simpl; [|by repeat split].
  destruct (discover_loops df cols em m w3) as [[[ds ni]|e] w4]; simpl;
    [|by repeat split].
  repeat split; by intros v [= <-].
Qed.

(** C8: on a dataset without rows and with at least two columns the
    drop fraction is a division by zero: the loop body raises
    [ZeroDivisionError] for every pair of columns, and so does [discover]
    for every supported method; no call returns a result. *)
Theorem zero_rows_division df ov m seed flag F w :
  frames w !! df = Some F →
  nrows F = 0 →
  2 ≤ length (labels F) →
  (∀ est acc f t, f ∈ labels F → t ∈ labels F →
     (discover_pair df est m f t acc w).1 = Raise ZeroDivisionError)
  ∧ (m ∈ known_methods →
     (discover df ov m seed flag w).1 = Raise ZeroDivisionError)
  ∧ ¬ is_Ok (discover df ov m seed flag w).1.
Proof.
  intros Hdf Hn Hlen.
  assert (m ∈ known_methods →
          (discover df ov m seed flag w).1 = Raise ZeroDivisionError) as Hraise.
  { intros Hm. destruct (discover_outcome df ov m seed flag F w Hdf) as (em & ->).
    apply discover_steps_raise; [done|].
    destruct (labels F) as [|c0 [|c1 cols]] eqn:E; [simpl in Hlen; lia..|].
    assert (∃ l, ordered_pairs (c0 :: c1 :: cols) = (c1, c0) :: l) as [l ->].
    { unfold ordered_pairs, enumerate. simpl. eauto. }
    apply mapM_v_head_raise. unfold pairs_steps.
    rewrite pair_steps_value.
    apply pair_value_zero_rows; [done|..]; rewrite E, !elem_of_cons; auto. }
  split; [|split].
  - intros est [ds ni] f t Hf Ht.
    destruct (discover_pair_run df est F m f t ds ni w Hdf) as (w' & _ & Hrun).
    rewrite pair_steps_value, pair_value_zero_rows in Hrun by done.
    by rewrite Hrun.
  - done.
  - intros [v Hv]. destruct (decide (m ∈ known_methods)) as [Hm|Hm].
    + by rewrite Hraise in Hv.
    + by rewrite discover_invalid_method in Hv.
Qed.

(** C9: [discover] leaves every frame of the caller as it found it,
    whatever the arguments and whether it returns or raises; so does
    [labelencode_if_object], which writes only into the frame that its own
    [drop] made. *)
Theorem discover_keeps_dataset df ov m seed flag F w :
  frames w !! df = Some F →
  frames (discover df ov m seed flag w).2 !! df = Some F
  ∧ (∀ r G, frames w !! r = Some G →
       frames (discover df ov m seed flag w).2 !! r = Some G)
  ∧ (∀ r G, frames w !! r = Some G →
       frames (labelencode_if_object df w).2 !! r = Some G).
Proof.
  intros Hdf.
  assert (∀ r G, frames w !! r = Some G →
            frames (discover df ov m seed flag w).2 !! r = Some G) as Hkeep.
  { intros r G Hr. destruct (decide (m ∈ known_methods)) as [Hm|Hm].
    - destruct (discover_run df ov m seed flag F w Hdf Hm) as (em & w' & _ & -> & Hev).
      simpl. by apply Hev.
    - by rewrite discover_invalid_method. }
  split; [by apply Hkeep|]. split; [done|].
  intros r G Hr.
  destruct (labelencode_if_object_run df F w Hdf) as (w' & Hev & Hrun).
  destruct (encode_frame _ _) as [D|e].
  - destruct Hrun as (a & -> & _). by apply Hev.
  - rewrite Hrun. by apply Hev.
Qed.

(** C10: with a correlation method the outcome of [discover] does not
    depend on [random_state] nor on [classifier_overrides]: the
    estimators are built and [cross_val_score] is never called. *)
Theorem correlation_ignores_estimators df ov1 ov2 m seed1 seed2 flag F w :
  frames w !! df = Some F →
  m ∈ corr_methods →
  (discover df ov1 m seed1 flag w).1 = (discover df ov2 m seed2 flag w).1
  ∧ cv_calls (discover df ov1 m seed1 flag w).2 = cv_calls w
  ∧ estimators (discover df ov1 m seed1 flag w).2
    = estimators w ++ (estimator_for (default [] ov1) seed1 <$> labels F).
Proof.
  intros Hdf Hm.
  assert (m ∈ known_methods) as Hk.
  { unfold known_methods. apply elem_of_app. by left. }
  pose proof (corr_method_not_rf m Hm) as Hrf.
  destruct (discover_run df ov1 m seed1 flag F w Hdf Hk) as (em & w' & _ & Hrun & Hev).
  split; [|split].
  - rewrite Hrun. simpl.
    destruct (discover_run df ov2 m seed2 flag F w Hdf Hk) as (em2 & w2 & _ & -> & _).
    simpl. rewrite !discover_steps_known, !mapM_pairs_not_rf by done.
    rewrite (mapM_res_ext _
      (λ '(f, t),
         pair_value (footprint w).1 F (Some (estimator_for (default [] ov2) seed2 t))
           m f t)); [done|].
    intros [f t] _. by apply pair_value_corr.
  - rewrite Hrun. simpl. pose proof (ev_footprint _ _ _ Hev) as Hfp.
    rewrite discover_steps_snd, mapM_pairs_not_rf in Hfp by done.
    unfold footprint in Hfp. simpl in Hfp. by injection Hfp.
  - rewrite Hrun. simpl. by rewrite (ev_estimators _ _ _ Hev).
Qed.


Lemma for_each_ext {A S} (l : list A) (b1 b2 : A → S → M S) (a0 : S) w :
  (∀ x a w', x ∈ l → b1 x a w' = b2 x a w') →
  for_each l b1 a0 w = for_each l b2 a0 w.
Proof.
  revert a0 w. induction l as [|x l IH]; intros a0 w Hb; [done|]. simpl.
  unfold mbind, M_mbind, M_bind. rewrite Hb by left.
  destruct (b2 x a0 w) as [[a1|e] w1]; [|done].
  apply IH. intros y a w' Hy. apply Hb. by right.
Qed.

(** C7: names in [classifier_overrides] that label no column change
    nothing: the call has the same outcome and leaves the same store as
    the call with the overrides restricted to the column names. *)
Theorem overrides_outside_columns_ignored df ov m seed flag F w :
  frames w !! df = Some F →
  discover df (Some ov) m seed flag w
  = discover df (Some (filter (λ c, c ∈ labels F) ov)) m seed flag w.
Proof.
  intros Hdf. destruct (decide (m ∈ known_methods)) as [Hm|Hm];
    [|by rewrite !discover_invalid_method].
  unfold discover, py_assert. rewrite bool_decide_eq_true_2 by done.
  rewrite !(M_bind_ok _ _ w () w) by done.
  assert (columns df w = (Ok (labels F), w)) as Hcols.
  { unfold columns, read_frame, mbind, M_mbind, M_bind. by rewrite Hdf. }
  rewrite !(M_bind_ok _ _ _ _ _ Hcols). simpl.
  assert (build_estimator_mapping (labels F) ov seed w
          = build_estimator_mapping (labels F) (filter (λ c, c ∈ labels F) ov) seed w)
    as Hbuild.
  { unfold build_estimator_mapping. apply for_each_ext. intros col em w' Hcol.
    rewrite (bool_decide_ext (col ∈ filter (λ c, c ∈ labels F) ov) (col ∈ ov)); [done|].
    rewrite list_elem_of_filter. tauto. }
  unfold mbind at 1 3, M_mbind, M_bind. by rewrite Hbuild.
Qed.

(** the call that the loop body records under rf *)
Lemma pair_steps_rf_call est e F f t fp :
  (∃ err, pair_steps est (Some e) F "rf" f t fp = (Raise err, fp))
  ∨ (∃ c, (pair_steps est (Some e) F "rf" f t fp).2.2 = fp.2 ++ [c]
        ∧ call_est c = est
        ∧ (∃ s, call_y c = ISeries s ∧ name s = t)
        ∧ labels (call_X c) = [f]).
Proof.
  destruct (pair_steps_rf est e F f t fp)
    as [?|(G & D' & X & y & HG & HD & HX & Hy & _ & Hnull & Hfp)]; [by left|].
  right. exists (mkCall est X y fp.1). rewrite Hfp. simpl.
  split; [done|]. split; [done|]. split.
  - destruct y as [s|]; [|done]. exists s. split; [done|].
    by eapply frame_getitem_series.
  - apply encode_frame_inv in HD as [Hperm Hone].
    unfold frame_getitem_list in HX. simpl in HX.
    destruct (labelled f D') as [|s1 l1] eqn:E; [done|].
    simpl in HX. injection HX as <-.
    assert (f ∈ labels D') as Hin by (apply labelled_nonempty; by rewrite E).
    rewrite Hperm in Hin. specialize (Hone f Hin).
    rewrite labelled_labels, <- Hperm, <- labelled_labels, E in Hone.
    destruct l1; [|done]. unfold labels. simpl. f_equal.
    apply (labelled_name f D'). rewrite E. left.
Qed.

(** C4: [discover] builds one estimator per column, in column order and
    before the loops, a classifier for a column named in
    [classifier_overrides] and a regressor for any other, whatever the
    columns hold; [estimator_mapping] binds each column name, and no
    other, to an estimator built by this call; nothing else is built, and
    every call of [cross_val_score] uses the estimator bound to the name of
    its target series.  Without rf no call is made.  With rf the calls are
    those of the ordered pairs, one for each, in the order of the loops:
    the call of (f, t) gets the estimator bound to [t], the column [t] as
    its target and a frame of the one column [f]; a run that raises made
    the calls of the pairs before and, at most, of the pair that raised. *)
Theorem estimator_bindings df ov m seed flag F w :
  frames w !! df = Some F →
  m ∈ known_methods →
  let overrides := default [] ov in
  ∃ em w1,
    build_estimator_mapping (labels F) overrides seed w = (Ok em, w1)
    ∧ estimators w1 = estimators w ++ (estimator_for overrides seed <$> labels F)
    ∧ (∀ c, is_Some (em !! c) ↔ c ∈ labels F)
    ∧ (∀ c r, em !! c = Some r →
         estimators w1 !! r = Some (estimator_for overrides seed c)
         ∧ length (estimators w) ≤ r)
    ∧ (∀ c, is_classifier (estimator_for overrides seed c) = bool_decide (c ∈ overrides))
    ∧ estimators (discover df ov m seed flag w).2 = estimators w1
    ∧ ∃ calls,
        cv_calls (discover df ov m seed flag w).2 = cv_calls w ++ calls
        ∧ Forall (λ c, ∃ s, call_y c = ISeries s
                           ∧ em !! name s = Some (call_est c)) calls
        ∧ (m ≠ "rf" → calls = [])
        ∧ (m = "rf" →
           ∃ k, k ≤ length (ordered_pairs (labels F))
             ∧ Forall2 (λ '(f, t) c,
                  em !! t = Some (call_est c)
                  ∧ (∃ s, call_y c = ISeries s ∧ name s = t)
                  ∧ labels (call_X c) = [f])
                 (take k (ordered_pairs (labels F))) calls
             ∧ (is_Ok (discover df ov m seed flag w).1 →
                k = length (ordered_pairs (labels F)))).
Proof.
  intros Hdf Hm overrides.
  destruct (build_estimator_mapping_run (labels F) overrides seed w)
    as (em & Hbuild & Hb & Hdom & Hnew).
  destruct (discover_run df ov m seed flag F w Hdf Hm) as (em' & w' & Hbuild' & Hrun & Hev).
  fold overrides in Hbuild', Hev. rewrite Hbuild in Hbuild'. injection Hbuild' as <-.
  eexists em, _. split; [done|]. simpl. split; [done|]. split; [done|].
  split; [intros c r Hc; split; [by apply Hb|by eapply Hnew]|].
  split; [intros c; unfold estimator_for; by case_bool_decide|].
  rewrite Hrun. simpl. split; [by rewrite (ev_estimators _ _ _ Hev)|].
  pose proof (ev_footprint _ _ _ Hev) as Hfp.
  rewrite discover_steps_snd in Hfp by done. fold overrides in Hfp.
  destruct (decide (m = "rf")) as [->|Hrf].
  - destruct (mapM_v_calls (pairs_steps em F overrides "rf" seed)
                (λ '(f, t) c,
                   em !! t = Some (call_est c)
                   ∧ (∃ s, call_y c = ISeries s ∧ name s = t)
                   ∧ labels (call_X c) = [f])
                (ordered_pairs (labels F)) (footprint w))
      as (k & calls & Hcalls & Hk & HQ & Hok).
    { intros [f t] fp' Hin. unfold pairs_steps.
      destruct (pair_steps_rf_call (default 0 (em !! t))
                  (estimator_for overrides seed t) F f t fp')
        as [?|(c & Hc & Hest & Hy & HX)]; [by left|].
      right. exists c. split; [done|]. split; [|done].
      apply elem_of_ordered_pairs in Hin as (i & j & _ & _ & Hj).
      apply list_elem_of_lookup_2, Hdom in Hj as [r Hr].
      rewrite Hest. unfold ref in *. by rewrite Hr. }
    rewrite <- Hfp in Hcalls. exists calls. split; [done|]. split.
    { apply Forall_forall. intros c Hc.
      destruct (Forall2_elem_inv _ _ _ _ HQ Hc) as ([f t] & _ & Hest & (s & Hs & <-) & _).
      by exists s. }
    split; [done|]. intros _. exists k. split; [done|]. split; [done|].
    intros Hv. apply Hok. by apply discover_steps_is_Ok in Hv.
  - rewrite mapM_pairs_not_rf in Hfp by done. exists []. rewrite app_nil_r.
    unfold footprint in Hfp. simpl in Hfp. split; [by injection Hfp|].
    split; [constructor|]. by split.
Qed.

Lemma discover_pair_fst df est F m f t ds ni w :
  frames w !! df = Some F →
  (discover_pair df est m f t (ds, ni) w).1
  = res_map (λ b, (ds ++ [b.1], ni ++ [b.2]))
      (pair_value (rng_state w) F (estimators w !! est) m f t).
Proof.
  intros Hdf.
  destruct (discover_pair_run df est F m f t ds ni w Hdf) as (w' & _ & Hrun).
  rewrite pair_steps_value in Hrun.
  change (footprint w).1 with (rng_state w) in Hrun.
  destruct (pair_value _ _ _ _ _ _) as [b|e]; unfold res_map.
  - destruct Hrun as (a & Hrun & ->). by rewrite Hrun.
  - by rewrite Hrun.
Qed.

(** the rows of a pair in the two tables of a successful call *)
Lemma rows_of_pair df ov m seed flag F w v f t :
  frames w !! df = Some F →
  (discover df ov m seed flag w).1 = Ok v →
  ∃ rows,
    v = package flag rows
    ∧ NoDup (labels F)
    ∧ (f ∈ labels F → t ∈ labels F → f ≠ t →
       ∃ b, pair_row F (default [] ov) seed m (f, t) b
            ∧ filter (λ d, feature d = f ∧ target d = t) rows.*1 = [b.1]
            ∧ filter (λ r, nan_feature r = f ∧ nan_target r = t) rows.*2 = [b.2])
    ∧ (¬ (f ∈ labels F ∧ t ∈ labels F ∧ f ≠ t) →
       filter (λ d, feature d = f ∧ target d = t) rows.*1 = []
       ∧ filter (λ r, nan_feature r = f ∧ nan_target r = t) rows.*2 = []).
Proof.
  intros Hdf Hv.
  destruct (discover_rows_of df ov m seed flag F w v Hdf Hv)
    as (Hnd & rows & Hrows & -> & Hk1 & Hk2).
  exists rows. split; [done|]. split; [done|].
  rewrite (list_filter_iff _ (λ d, (λ d, (feature d, target d)) d = (f, t)) rows.*1)
    by (intros d; simpl; split; [by intros [-> ->]|by intros [= -> ->]]).
  rewrite (list_filter_iff _ (λ r, (λ r, (nan_feature r, nan_target r)) r = (f, t)) rows.*2)
    by (intros r; simpl; split; [by intros [-> ->]|by intros [= -> ->]]).
  assert ((λ d, (feature d, target d)) <$> rows.*1 = ordered_pairs (labels F)) as Hk1'
    by (by rewrite <- list_fmap_compose).
  assert ((λ r, (nan_feature r, nan_target r)) <$> rows.*2 = ordered_pairs (labels F))
    as Hk2' by (by rewrite <- list_fmap_compose).
  split.
  - intros Hf Ht Hne.
    assert ((f, t) ∈ ordered_pairs (labels F)) as Hin
      by (by apply elem_of_ordered_pairs_NoDup).
    destruct (Forall2_elem _ _ _ _ Hrows Hin) as ([d n] & Hrow & Hdn).
    exists (d, n). split; [done|]. destruct Hrow as [g Hp].
    apply pair_value_keys in Hp as (Hf1 & Ht1 & Hf2 & Ht2). simpl. split.
    + apply (filter_key_unique' (λ d, (feature d, target d))).
      * rewrite Hk1'. by apply NoDup_ordered_pairs.
      * by apply (list_elem_of_fmap_2 fst _ (d, n)).
      * by rewrite Hf1, Ht1.
    + apply (filter_key_unique' (λ r, (nan_feature r, nan_target r))).
      * rewrite Hk2'. by apply NoDup_ordered_pairs.
      * by apply (list_elem_of_fmap_2 snd _ (d, n)).
      * by rewrite Hf2, Ht2.
  - intros Hout. rewrite <- elem_of_ordered_pairs_NoDup in Hout by done.
    by rewrite !filter_key_absent by (by rewrite ?Hk1', ?Hk2').
Qed.




Lemma filter_none {A} (P : A → Prop) `{∀ x, Decision (P x)} (l : list A) :
  (∀ x, x ∈ l → ¬ P x) → filter P l = [].
Proof.
  induction l as [|x l IH]; intros Hl; [done|].
  rewrite filter_cons_False by (apply Hl; left). apply IH. intros y Hy. apply Hl. by right.
Qed.

Lemma filter_seq_single (P : nat → Prop) `{∀ x, Decision (P x)} n i :
  i < n → P i → (∀ j, j < n → j ≠ i → ¬ P j) → filter P (seq 0 n) = [i].
Proof.
  intros Hi HP Hother.
  replace n with (i + S (n - S i)) by lia.
  rewrite seq_app. simpl. rewrite filter_app, filter_cons_True by done.
  rewrite !filter_none; [done|..].
  - intros j Hj%elem_of_seq. apply Hother; lia.
  - intros j Hj%elem_of_seq. apply Hother; lia.
Qed.

Lemma rows_with_missing_le n (cf ct : @column num obj) : rows_with_missing n cf ct ≤ n.
Proof.
  unfold rows_with_missing. etrans; [apply length_filter|]. by rewrite length_seq.
Qed.

Lemma rows_with_missing_one n (cf ct : @column num obj) i :
  i < n →
  cell_isnull cf i = true →
  (∀ j, j < n → j ≠ i → cell_isnull cf j = false ∧ cell_isnull ct j = false) →
  rows_with_missing n cf ct = 1.
Proof.
  intros Hi Hnull Hother. unfold rows_with_missing.
  rewrite (filter_seq_single _ n i); [done|done|by rewrite Hnull|].
  intros j Hj Hne. destruct (Hother j Hj Hne) as [-> ->]. done.
Qed.

(** C3 (amended): in a call that returns the NaN table, a pair (f, t) of
    distinct columns of a dataset with at least one row has exactly one
    record; its [n_dropped_na] is the number of rows that hold a missing
    value in column f or in column t, its [pct_dropped_na] is that number
    over the row count, between 0 and 1.  When one row holds a missing
    value in column f and no other row holds one in f or in t, the record
    says 1 and 1 / row count. *)
Theorem nan_info_record df ov m seed F w v f t :
  frames w !! df = Some F →
  0 < nrows F →
  (discover df ov m seed true w).1 = Ok v →
  f ∈ labels F → t ∈ labels F → f ≠ t →
  ∃ ni r sf st,
    nan_info_of v = Some ni
    ∧ labelled f F = [sf] ∧ labelled t F = [st]
    ∧ filter (λ r, nan_feature r = f ∧ nan_target r = t) ni = [r]
    ∧ n_dropped_na r
      = Z.of_nat (rows_with_missing (nrows F) (values sf) (values st))
    ∧ (0 ≤ n_dropped_na r)%Z
    ∧ pct_dropped_na r = Qmake (n_dropped_na r) (Z.to_pos (Z.of_nat (nrows F)))
    ∧ (0 <= pct_dropped_na r)%Q ∧ (pct_dropped_na r <= 1)%Q
    ∧ (∀ i, i < nrows F →
         cell_isnull (values sf) i = true →
         (∀ j, j < nrows F → j ≠ i →
            cell_isnull (values sf) j = false ∧ cell_isnull (values st) j = false) →
         n_dropped_na r = 1%Z
         ∧ pct_dropped_na r = Qmake 1 (Z.to_pos (Z.of_nat (nrows F)))).
Proof.
  intros Hdf Hn Hv Hf Ht Hne.
  destruct (rows_of_pair df ov m seed true F w v f t Hdf Hv)
    as (rows & -> & Hnd & Hin & _).
  destruct (Hin Hf Ht Hne) as ([d n] & [g Hp] & _ & Hni). simpl in Hni.
  destruct (pair_value_unique _ _ _ _ _ _ _ _ Hp) as (_ & sf & st & Hsf & Hst).
  destruct (pair_value_nan _ _ _ _ _ _ _ _ sf st Hp Hsf Hst) as (Hdrop & _ & Hpct).
  pose proof (rows_with_missing_le (nrows F) (values sf) (values st)) as Hle.
  exists rows.*2, n, sf, st. split; [done|]. split; [done|]. split; [done|].
  split; [done|]. split; [done|]. split; [lia|]. split; [done|].
  split; [|split].
  - rewrite Hpct. unfold Qle. simpl. lia.
  - rewrite Hpct. unfold Qle. simpl. rewrite Z2Pos.id by lia. lia.
  - intros i Hi Hnull Hother.
    rewrite Hpct, Hdrop, (rows_with_missing_one _ _ _ i) by done. done.
Qed.

End Claims.

(** * Further properties

    Properties of [labelencode_if_object] and of [discover] beyond the
    claims: the frame that the encoding returns, the datasets for which
    [discover] returns, the exceptions it raises, and what it scores. *)

(** ** [labelencode_if_object] *)

Section Encoding.
Context {num obj rng : Type} {lib : @Library num obj rng}.
Implicit Types (w : @world num obj rng) (F G D : @DataFrame num obj)
  (s sf st : @Series num obj) (l pre rest enc : list (@Series num obj)).

Lemma filter_all {A} (P : A → Prop) `{∀ x, Decision (P x)} (l : list A) :
  (∀ x, x ∈ l → P x) → filter P l = l.
Proof.
  induction l as [|x l IH]; intros Hl; [done|].
  rewrite filter_cons_True by (apply Hl; left). f_equal. apply IH.
  intros y Hy. apply Hl. by right.
Qed.

Lemma labelled_unique F s :
  NoDup (labels F) → s ∈ data F → labelled (name s) F = [s].
Proof.
  intros Hnd Hs. unfold labelled. by apply (filter_key_unique name).
Qed.

Lemma NoDup_of_count (l : list string) :
  (∀ c, c ∈ l → length (filter (λ x, x = c) l) = 1) → NoDup l.
Proof.
  induction l as [|x l IH]; intros Hone; [constructor|].
  assert (∀ c, c ∈ l → 1 ≤ length (filter (λ y, y = c) l)) as Hpos.
  { intros c Hc. destruct (filter (λ y, y = c) l) as [|z k] eqn:E; [|simpl; lia].
    assert (c ∈ filter (λ y, y = c) l) as Hin by (by apply list_elem_of_filter).
    rewrite E in Hin. by apply elem_of_nil in Hin. }
  constructor.
  - intros Hx. specialize (Hone x (list_elem_of_here _ _)).
    rewrite filter_cons_True in Hone by done. simpl in Hone.
    specialize (Hpos x Hx). lia.
  - apply IH. intros c Hc. specialize (Hone c (list_elem_of_further _ _ _ Hc)).
    specialize (Hpos c Hc). rewrite filter_cons in Hone.
    case_decide; simpl in Hone; lia.
Qed.

Lemma frame_getitem_unique F s :
  NoDup (labels F) → s ∈ data F → frame_getitem F (name s) = Ok (ISeries s).
Proof. intros Hnd Hs. unfold frame_getitem. by rewrite labelled_unique. Qed.

Lemma has_object_dtype_spec s :
  column_dtype (values s) = if has_object_dtype s then DObject else DNumeric.
Proof. unfold has_object_dtype. by destruct (values s). Qed.

(** the frame that [labelencode_if_object] returns, while it works through
    the columns [rest]: the columns before them that were left in place,
    the columns still to visit, the columns encoded so far *)
Lemma encode_frame_data rest : ∀ pre enc F G,
  data F = pre ++ rest ++ enc →
  NoDup (labels F) →
  encode_frame (name <$> rest) F = Ok G →
  nrows G = nrows F
  ∧ ∃ enc',
      data G = pre ++ filter (λ s, has_object_dtype s = false) rest ++ enc ++ enc'
      ∧ Forall2 encoded_as (filter (λ s, has_object_dtype s = true) rest) enc'
      ∧ Forall (λ s', column_len (values s') = nrows F) enc'.
Proof.
  induction rest as [|s rest IH]; intros pre enc F G Hdata Hnd; simpl.
  - intros [= <-]. split; [done|]. exists []. rewrite Hdata, app_nil_r.
    split; [done|]. split; constructor.
  - assert (s ∈ data F) as Hs.
    { rewrite Hdata, !elem_of_app, elem_of_cons. auto. }
    unfold encode_column at 1. rewrite !(frame_getitem_unique F s) by done. simpl.
    rewrite has_object_dtype_spec.
    destruct (has_object_dtype s) eqn:Hobj.
    + (* an object column: encoded, dropped and appended *)
      destruct (fit_transform (ISeries s)) as [codes|e] eqn:Hcodes; [|done]. simpl.
      unfold frame_drop. rewrite labelled_unique by done.
      assert (filter (λ s', name s' ≠ name s) (data F) = pre ++ rest ++ enc) as Hdrop.
      { rewrite Hdata. unfold labels in Hnd. rewrite Hdata in Hnd.
        rewrite !fmap_app, fmap_cons in Hnd.
        apply NoDup_app in Hnd as (Hpre & Hdisj & Hnd).
        apply NoDup_cons in Hnd as (Hs' & Hnd).
        rewrite !filter_app, filter_cons_False by (by intros Hne).
        rewrite !filter_all; [done|..].
        - intros x Hx Heq. apply Hs', elem_of_app. right.
          rewrite <- Heq. by apply list_elem_of_fmap_2.
        - intros x Hx Heq. apply Hs', elem_of_app. left.
          rewrite <- Heq. by apply list_elem_of_fmap_2.
        - intros x Hx Heq. apply (Hdisj (name s)); [|left].
          rewrite <- Heq. by apply list_elem_of_fmap_2. }
      simpl. rewrite Hdrop. unfold frame_setitem. simpl.
      case_bool_decide as Hlen; [|done].
      replace (labelled (name s) (mkFrame (nrows F) (pre ++ rest ++ enc)))
        with (@nil (@Series num obj)).
      2:{ symmetry. unfold labelled. simpl. rewrite <- Hdrop.
          apply filter_key_absent.
          intros (x & Hn & [Hne _]%list_elem_of_filter)%list_elem_of_fmap. congruence. }
      simpl. intros HG.
      set (s' := mkSeries (name s) (NumCol (Some <$> codes))) in *.
      destruct (IH pre (enc ++ [s']) (mkFrame (nrows F) ((pre ++ rest ++ enc) ++ [s'])) G)
        as (Hrows & enc' & HdG & Henc & Hlens);
        [simpl; by rewrite <- !app_assoc| |done|].
      { unfold labels in *. simpl. rewrite Hdata in Hnd.
        assert (name <$> (pre ++ rest ++ enc) ++ [s']
                ≡ₚ name <$> pre ++ (s :: rest) ++ enc) as HP.
        { rewrite <- Permutation_cons_append. simpl.
          by rewrite <- Permutation_middle. }
        by rewrite HP. }
      simpl in Hrows, Hlens. split; [done|]. exists (s' :: enc').
      rewrite filter_cons_False by (by rewrite Hobj).
      rewrite filter_cons_True by done.
      split; [by rewrite HdG, <- !app_assoc|]. split.
      * constructor; [|done]. split; [done|]. by exists codes.
      * constructor; [|done]. done.
    + (* any other column stays where it is *)
      simpl. intros HG.
      destruct (IH (pre ++ [s]) enc F G) as (Hrows & enc' & HdG & Henc & Hlens);
        [by rewrite Hdata, <- !app_assoc|done|done|].
      split; [done|]. exists enc'.
      rewrite filter_cons_True by done.
      rewrite filter_cons_False by (by rewrite Hobj).
      split; [by rewrite HdG, <- !app_assoc|]. done.
Qed.


(** X1: when [labelencode_if_object] returns, the labels of its argument
    are distinct and the frame it returns has the same number of rows and
    holds first the columns of a dtype other than ['O'], untouched and in
    their order, then one column for each column of dtype ['O'], in their
    order, with the same label and the codes of the encoder as values, as
    many as there are rows. *)
Theorem labelencode_if_object_result r F w r' :
  frames w !! r = Some F →
  (labelencode_if_object r w).1 = Ok r' →
  NoDup (labels F)
  ∧ ∃ G enc,
      frames (labelencode_if_object r w).2 !! r' = Some G
      ∧ nrows G = nrows F
      ∧ data G = filter (λ s, has_object_dtype s = false) (data F) ++ enc
      ∧ Forall2 encoded_as (filter (λ s, has_object_dtype s = true) (data F)) enc
      ∧ Forall (λ s', column_len (values s') = nrows F) enc.
Proof.
  intros Hr Hret.
  destruct (labelencode_if_object_run r F w Hr) as (w' & _ & Hrun).
  destruct (encode_frame (labels F) F) as [G|e] eqn:HG;
    [|by rewrite Hrun in Hret].
  destruct Hrun as (a & Hrun & Ha). rewrite Hrun in Hret |- *. simpl in *.
  injection Hret as ->.
  assert (NoDup (labels F)) as Hnd.
  { apply NoDup_of_count. intros c Hc. rewrite <- labelled_labels.
    by apply (encode_frame_inv _ _ _ HG). }
  split; [done|].
  destruct (encode_frame_data (data F) [] [] F G) as (Hrows & enc & HdG & Henc & Hlens);
    [by rewrite app_nil_r|done|done|].
  simpl in HdG. by exists G, enc.
Qed.

(** the loop of [labelencode_if_object] over columns of a dtype other than
    ['O'] of a frame with distinct labels: every pass leaves the reference
    and the store as they are *)
Lemma labelencode_loop_no_object r F w l :
  frames w !! r = Some F →
  NoDup (labels F) →
  Forall (λ s, s ∈ data F ∧ has_object_dtype s = false) l →
  for_each (name <$> l) (λ col df_ml,
    x ← getitem df_ml col;
    dt ← lift (item_dtype x);
    match dt with
    | DObject =>
        x ← getitem df_ml col;
        replacement_series ← lift (fit_transform x);
        df_ml ← drop df_ml col;
        _ ← setitem df_ml col (NumCol (Some <$> replacement_series));
        mret df_ml
    | DNumeric => mret df_ml
    end) r w = (Ok r, w).
Proof.
  intros Hr Hnd Hl. induction Hl as [|s l [Hs Hnum] _ IH]; [done|]. simpl.
  rewrite (M_bind_ok _ _ w r w); [exact IH|].
  rewrite (M_bind_ok _ _ w (ISeries s) w).
  2:{ unfold getitem, read_frame, lift, mbind, M_mbind, M_bind.
      by rewrite Hr, frame_getitem_unique. }
  unfold lift, mbind, M_mbind, M_bind. simpl. rewrite has_object_dtype_spec.
  by rewrite Hnum.
Qed.

(** X2: on a frame with distinct labels and no column of dtype ['O'],
    [labelencode_if_object] returns the very frame it was given and leaves
    the store as it is: nothing is copied. *)
Theorem labelencode_if_object_numeric r F w :
  frames w !! r = Some F →
  NoDup (labels F) →
  Forall (λ s, has_object_dtype s = false) (data F) →
  labelencode_if_object r w = (Ok r, w).
Proof.
  intros Hr Hnd Hnum. unfold labelencode_if_object.
  rewrite (M_bind_ok _ _ w (labels F) w).
  2:{ unfold columns, read_frame, mbind, M_mbind, M_bind. by rewrite Hr. }
  apply (labelencode_loop_no_object r F w (data F) Hr Hnd).
  rewrite Forall_forall in Hnum. apply Forall_forall. intros s Hs.
  split; [done|]. by apply Hnum.
Qed.

Lemma encoded_as_numeric s s' : encoded_as s s' → has_object_dtype s' = false.
Proof. intros (_ & codes & _ & Hv). unfold has_object_dtype. by rewrite Hv. Qed.

(** X3: [labelencode_if_object] is idempotent.  Applied to the frame that
    a first application returned, it returns that frame again and leaves
    the store as it is. *)
Theorem labelencode_if_object_idempotent r F w r' :
  frames w !! r = Some F →
  (labelencode_if_object r w).1 = Ok r' →
  labelencode_if_object r' (labelencode_if_object r w).2
  = (Ok r', (labelencode_if_object r w).2).
Proof.
  intros Hr Hret.
  destruct (labelencode_if_object_run r F w Hr) as (w' & _ & Hrun).
  destruct (encode_frame (labels F) F) as [G|e] eqn:HG;
    [|by rewrite Hrun in Hret].
  destruct Hrun as (a & Hrun & Ha). rewrite Hrun in Hret |- *. simpl in *.
  injection Hret as ->.
  destruct (encode_frame_inv _ _ _ HG) as [HP Hone].
  assert (NoDup (labels F)) as Hnd.
  { apply NoDup_of_count. intros c Hc. rewrite <- labelled_labels. by apply Hone. }
  destruct (encode_frame_data (data F) [] [] F G) as (_ & enc & HdG & Henc & _);
    [by rewrite app_nil_r|done|done|].
  simpl in HdG.
  assert (Forall (λ s, has_object_dtype s = false) (data G)) as Hnum.
  { rewrite HdG. apply Forall_app. split.
    - apply Forall_forall. by intros s [Hs _]%list_elem_of_filter.
    - clear HdG. induction Henc as [|s s' l enc' He _ IH]; constructor;
        [by eapply encoded_as_numeric|done]. }
  unfold labelencode_if_object.
  rewrite (M_bind_ok _ _ w' (labels G) w').
  2:{ unfold columns, read_frame, mbind, M_mbind, M_bind.
      unfold holds in Ha. by rewrite Ha. }
  apply (labelencode_loop_no_object r' G w' (data G)); [done|by rewrite HP|].
  rewrite Forall_forall in Hnum. apply Forall_forall. intros s Hs.
  split; [done|]. by apply Hnum.
Qed.

End Encoding.

(** ** The loops of [discover] *)

Section Loops.
Context {num obj rng : Type} {lib : @Library num obj rng}.
Implicit Types (w : @world num obj rng) (F G D : @DataFrame num obj)
  (s sf st : @Series num obj) (v : @result num).

Lemma labelled_dropna key F :
  labelled key (frame_dropna F)
  = (λ s, mkSeries (name s)
            (column_compress ((λ i, negb (row_isnull F i)) <$> seq 0 (nrows F))
               (values s))) <$> labelled key F.
Proof.
  unfold labelled, frame_dropna. simpl. induction (data F) as [|s l IH]; [done|].
  rewrite fmap_cons, !filter_cons. simpl. case_decide; simpl; by rewrite IH.
Qed.

Lemma labelled_pair_frame n f t c F :
  labelled c (mkFrame n (labelled f F ++ labelled t F))
  = (if decide (f = c) then labelled c F else [])
    ++ (if decide (t = c) then labelled c F else []).
Proof.
  pose proof (labelled_of_labelled 0 f c F) as H1.
  pose proof (labelled_of_labelled 0 t c F) as H2.
  unfold labelled at 1 in H1. unfold labelled at 1 in H2. simpl in H1, H2.
  unfold labelled at 1. simpl. by rewrite filter_app, H1, H2.
Qed.

Lemma frame_getitem_list_pair_ok F f t :
  labelled f F ≠ [] → labelled t F ≠ [] →
  frame_getitem_list F [f; t]
  = Ok (mkFrame (nrows F) (labelled f F ++ labelled t F)).
Proof.
  unfold frame_getitem_list. simpl.
  destruct (labelled f F) as [|sf lf]; [done|].
  destruct (labelled t F) as [|st lt]; [done|]. simpl.
  by rewrite app_nil_r.
Qed.

Lemma encode_column_repeated_label f D :
  2 ≤ length (labelled f D) →
  encode_column f D
  = Raise (if bool_decide (f = "dtype") then ValueError else AttributeError).
Proof.
  intros Hf. unfold encode_column, frame_getitem.
  destruct (labelled f D) as [|s1 [|s2 lf]] eqn:Ef; [simpl in Hf; lia..|].
  simpl. unfold labels. simpl.
  assert (name s1 = f) as Hs1 by (apply (labelled_name f D); rewrite Ef; left).
  rewrite Hs1.
  case_bool_decide as Hd1; case_bool_decide as Hd2; try done.
  - exfalso. apply Hd2. apply elem_of_cons in Hd1 as [->|Hd1]; [done|].
    change ("dtype" ∈ name <$> (s2 :: lf)) in Hd1.
    apply list_elem_of_fmap in Hd1 as (y & -> & Hy).
    symmetry. apply (labelled_name f D). rewrite Ef. by right.
  - exfalso. apply Hd1. rewrite Hd2. left.
Qed.

Lemma pair_value_repeated_label g F est m f t :
  0 < nrows F → 2 ≤ length (labelled f F) → t ∈ labels F →
  pair_value g F est m f t
  = Raise (if bool_decide (f = "dtype") then ValueError else AttributeError).
Proof.
  intros Hn Hf Ht%labelled_nonempty. unfold pair_value.
  assert (labelled f F ≠ []) as Hf0 by (intros E; rewrite E in Hf; simpl in Hf; lia).
  rewrite frame_getitem_list_pair_ok by done.
  set (G := mkFrame (nrows F) (labelled f F ++ labelled t F)).
  assert (∃ l, labels G = f :: l) as [l Hl].
  { unfold G, labels. simpl. destruct (labelled f F) as [|s1 lf] eqn:Ef; [by destruct Hf0|].
    simpl. eexists. f_equal. apply (labelled_name f F). rewrite Ef. left. }
  assert (2 ≤ length (labelled f (frame_dropna G))) as H2.
  { rewrite labelled_dropna, length_fmap. unfold G.
    rewrite labelled_pair_frame, decide_True, length_app by done. lia. }
  cbn [mbind res_mbind res_bind]. unfold true_div.
  rewrite (bool_decide_eq_false_2 (Z.of_nat (nrows G) = 0%Z))
    by (unfold G; simpl; lia).
  cbn [mbind res_mbind res_bind]. rewrite labels_dropna, Hl.
  cbn [encode_frame mbind res_mbind res_bind].
  by rewrite encode_column_repeated_label.
Qed.

(** X4: [discover] returns only for a dataset whose column labels are
    distinct.  With a label that is repeated, selecting the pair yields a
    frame in which [df_ml[col]] is a DataFrame, and [labelencode_if_object]
    fails on its [.dtype]: the loop body raises [AttributeError]
    ([ValueError] when the label is [dtype]). *)
Theorem discover_needs_distinct_labels df ov m seed flag F w :
  frames w !! df = Some F →
  (∀ v, (discover df ov m seed flag w).1 = Ok v → NoDup (labels F))
  ∧ (∀ est acc f t,
       0 < nrows F → 2 ≤ length (labelled f F) → t ∈ labels F →
       (discover_pair df est m f t acc w).1
       = Raise (if bool_decide (f = "dtype") then ValueError else AttributeError)).
Proof.
  intros Hdf. split.
  - intros v Hv. by destruct (discover_rows_of df ov m seed flag F w v Hdf Hv).
  - intros est [ds ni] f t Hn Hf Ht.
    rewrite (discover_pair_fst df est F) by done.
    by rewrite pair_value_repeated_label.
Qed.

(** X6: the NaN table that [discover] returns has one row for each row of
    the score table, in the same order and for the same (feature, target). *)
Theorem nan_info_rows_align df ov m seed F w v :
  frames w !! df = Some F →
  (discover df ov m seed true w).1 = Ok v →
  ∃ ds ni,
    v = ResultsAndNaN ds ni
    ∧ length ni = length ds
    ∧ (λ r, (nan_feature r, nan_target r)) <$> ni
      = (λ d, (feature d, target d)) <$> ds.
Proof.
  intros Hdf Hv.
  destruct (discover_rows_of df ov m seed true F w v Hdf Hv)
    as (_ & rows & _ & -> & Hk1 & Hk2).
  exists rows.*1, rows.*2. split; [done|]. split; [by rewrite !length_fmap|].
  rewrite <- !list_fmap_compose. etrans; [exact Hk2|]. symmetry. exact Hk1.
Qed.

End Loops.

Section Tables.
Context {num obj rng : Type} {lib : @Library num obj rng}.
Implicit Types (w : @world num obj rng) (F G D : @DataFrame num obj)
  (s sf st : @Series num obj) (v : @result num).

(** X5: on a dataset with fewer than two columns [discover] (with a known
    method) never reaches the loop body: it returns empty tables, also for
    a dataset without rows, calls no library function, and leaves in the
    store only the estimators it built; the random generator is as it
    was. *)
Theorem discover_fewer_than_two_columns df ov m seed flag F w :
  frames w !! df = Some F →
  length (labels F) ≤ 1 →
  m ∈ known_methods →
  discover df ov m seed flag w
  = (Ok (if flag then ResultsAndNaN [] [] else Results []),
     mkWorld (frames w)
       (estimators w ++ (estimator_for (default [] ov) seed <$> labels F))
       (cv_calls w) (rng_state w)).
Proof.
  intros Hdf Hlen Hm.
  destruct (build_estimator_mapping_run (labels F) (default [] ov) seed w)
    as (em & Hrun & _ & Hdom & _).
  set (w1 := mkWorld _ _ _ _) in *.
  unfold discover, py_assert.
  rewrite bool_decide_eq_true_2 by done.
  rewrite (M_bind_ok _ _ w () w) by done.
  rewrite (M_bind_ok _ _ w (labels F) w).
  2:{ unfold columns, read_frame, mbind, M_mbind, M_bind. by rewrite Hdf. }
  rewrite (M_bind_ok _ _ _ _ _ Hrun).
  assert (discover_loops df (labels F) em m w1 = (Ok ([], []), w1)) as Hloops.
  { unfold discover_loops. destruct (labels F) as [|c [|c' l]] eqn:El.
    - done.
    - destruct (proj2 (Hdom c)) as [r Hr]; [left|].
      unfold enumerate. simpl.
      rewrite (M_bind_ok _ _ w1 ([], []) w1); [done|].
      rewrite (M_bind_ok _ _ w1 r w1); [done|].
      unfold dict_get. by rewrite Hr.
    - simpl in Hlen. lia. }
  rewrite (M_bind_ok _ _ _ _ _ Hloops). by destruct flag.
Qed.

(** X8: [discover] returns no partial table.  If the loop body raises for
    one ordered pair of distinct column positions (run from any store that
    holds the dataset and the target's estimator), the call of [discover]
    raises.  With rf and no [random_state] the outcome of the loop body
    depends on the state of the random generator: the loop body must then
    fail in every state of the generator. *)
Theorem discover_raises_when_a_pair_raises df ov m seed flag F w
    df0 est acc w0 i j f t e :
  frames w !! df = Some F →
  labels F !! i = Some f → labels F !! j = Some t → i ≠ j →
  frames w0 !! df0 = Some F →
  estimators w0 !! est = Some (estimator_for (default [] ov) seed t) →
  (discover_pair df0 est m f t acc w0).1 = Raise e →
  (m = "rf" → seed = None →
   ∀ g, ¬ is_Ok (discover_pair df0 est m f t acc
                   (mkWorld (frames w0) (estimators w0) (cv_calls w0) g)).1) →
  ∃ e', (discover df ov m seed flag w).1 = Raise e'.
Proof.
  intros Hdf Hi Hj Hij Hdf0 Hest Hp Hall. destruct acc as [ds ni].
  rewrite (discover_pair_fst df0 est F) in Hp by done. rewrite Hest in Hp.
  destruct (pair_value (rng_state w0) F _ m f t) as [b|e0] eqn:Hpv; [done|].
  destruct (discover df ov m seed flag w).1 as [v|e'] eqn:Hv; [|by exists e'].
  exfalso.
  destruct (discover_rows_of df ov m seed flag F w v Hdf Hv) as (_ & rows & Hrows & _).
  assert ((f, t) ∈ ordered_pairs (labels F)) as Hin.
  { apply elem_of_ordered_pairs. by exists i, j. }
  destruct (Forall2_elem _ _ _ _ Hrows Hin) as (row & [g Hrow] & _).
  destruct (decide (m = "rf")) as [Hrf|Hrf].
  - destruct seed as [z|].
    + rewrite (pair_value_seeded g (rng_state w0)) in Hrow; [congruence|].
      by rewrite seed_of_estimator_for.
    + apply (Hall Hrf eq_refl g).
      rewrite (discover_pair_fst df0 est F) by done. simpl.
      rewrite Hest, Hrow. by eexists.
  - rewrite (pair_value_not_rf g (rng_state w0) F _
               (Some (estimator_for (default [] ov) seed t))) in Hrow by done.
    congruence.
Qed.

Lemma rows_with_missing_comm n (cf ct : @column num obj) :
  rows_with_missing n cf ct = rows_with_missing n ct cf.
Proof.
  unfold rows_with_missing. f_equal. apply list_filter_iff. intros i.
  by rewrite orb_comm.
Qed.

(** X7: the NaN diagnostics do not depend on the direction of a pair: in
    the NaN table that [discover] returns, the record of (a, b) and the
    record of (b, a) hold the same [n_dropped_na] and [pct_dropped_na]. *)
Theorem nan_info_symmetric df ov m seed F w ds ni r1 r2 :
  frames w !! df = Some F →
  (discover df ov m seed true w).1 = Ok (ResultsAndNaN ds ni) →
  r1 ∈ ni → r2 ∈ ni →
  nan_feature r2 = nan_target r1 → nan_target r2 = nan_feature r1 →
  n_dropped_na r2 = n_dropped_na r1 ∧ pct_dropped_na r2 = pct_dropped_na r1.
Proof.
  intros Hdf Hv H1 H2 Hf Ht.
  destruct (discover_rows_of df ov m seed true F w _ Hdf Hv)
    as (_ & rows & Hrows & Hpk & _ & _).
  unfold package in Hpk. injection Hpk as -> ->.
  assert (∀ r, r ∈ rows.*2 → ∃ sf st,
            labelled (nan_feature r) F = [sf] ∧ labelled (nan_target r) F = [st]
            ∧ n_dropped_na r
              = Z.of_nat (rows_with_missing (nrows F) (values sf) (values st))
            ∧ pct_dropped_na r
              = Qmake (n_dropped_na r) (Z.to_pos (Z.of_nat (nrows F)))) as Hrec.
  { intros r Hr. apply list_elem_of_fmap in Hr as ([d n] & -> & Hr). simpl.
    destruct (Forall2_elem_inv _ _ _ _ Hrows Hr) as ([f t] & _ & [g Hp]).
    destruct (pair_value_keys _ _ _ _ _ _ _ _ Hp) as (_ & _ & -> & ->).
    destruct (pair_value_unique _ _ _ _ _ _ _ _ Hp) as (_ & sf & st & Hsf & Hst).
    destruct (pair_value_nan _ _ _ _ _ _ _ _ _ _ Hp Hsf Hst) as (Hn & _ & Hpct).
    by exists sf, st. }
  destruct (Hrec r1 H1) as (sf1 & st1 & Hf1 & Ht1 & Hn1 & Hp1).
  destruct (Hrec r2 H2) as (sf2 & st2 & Hf2 & Ht2 & Hn2 & Hp2).
  rewrite Hf, Ht1 in Hf2. rewrite Ht, Hf1 in Ht2.
  injection Hf2 as <-. injection Ht2 as <-.
  assert (n_dropped_na r2 = n_dropped_na r1) as Hn
    by (by rewrite Hn1, Hn2, rows_with_missing_comm).
  split; [done|]. by rewrite Hp1, Hp2, Hn.
Qed.

End Tables.

(** ** Outcomes of the loop body *)

Lemma compress_no_none {A} (mask : list bool) : ∀ xs : list (option A),
  (∀ i, mask !! i = Some true → nth i (is_none <$> xs) false = false) →
  filter (λ b, b = true) (is_none <$> compress mask xs) = [].
Proof.
  induction mask as [|b mask IH]; intros xs H; [done|].
  destruct xs as [|x xs]; [done|]. simpl.
  assert (filter (λ b, b = true) (is_none <$> compress mask xs) = []) as IH'.
  { apply IH. intros i Hi. apply (H (S i) Hi). }
  destruct b; [|done]. rewrite fmap_cons, filter_cons_False; [done|].
  specialize (H 0 eq_refl). simpl in H. by rewrite H.
Qed.

Lemma length_compress {A} (mask : list bool) : ∀ xs : list A,
  length xs = length mask →
  length (compress mask xs) = length (filter (λ b, b = true) mask).
Proof.
  induction mask as [|b mask IH]; intros [|x xs] Hlen; try done.
  simpl in *. destruct b.
  - rewrite filter_cons_True by done. simpl. f_equal. apply IH. lia.
  - rewrite filter_cons_False by done. apply IH. lia.
Qed.

Section Outcome.
Context {num obj rng : Type} {lib : @Library num obj rng}.
Implicit Types (w : @world num obj rng) (F G D : @DataFrame num obj)
  (s sf st x y : @Series num obj) (c : @column num obj).

Lemma count_null_compress mask c :
  (∀ i, mask !! i = Some true → cell_isnull c i = false) →
  count_null (column_compress mask c) = 0.
Proof.
  destruct c; unfold count_null, cell_isnull; simpl; intros H;
    by rewrite compress_no_none.
Qed.

Lemma no_null_dropna F : no_null (frame_dropna F).
Proof.
  unfold no_null, frame_dropna. simpl. apply Forall_fmap, Forall_forall.
  intros s Hs. simpl. apply count_null_compress. intros i Hi.
  apply list_lookup_fmap_Some in Hi as (k & Hneg & Hk).
  apply lookup_seq in Hk as [-> _]. simpl in Hneg.
  destruct (cell_isnull (values s) i) eqn:Hc; [|done].
  assert (row_isnull F i = true) as Hrow.
  { unfold row_isnull. apply existsb_exists. exists s.
    split; [by apply list_elem_of_In|done]. }
  by rewrite Hrow in Hneg.
Qed.

Lemma column_len_compress mask c :
  column_len c = length mask →
  column_len (column_compress mask c) = length (filter (λ b, b = true) mask).
Proof. destruct c; simpl; apply length_compress. Qed.

Lemma well_formed_dropna F : well_formed F → well_formed (frame_dropna F).
Proof.
  unfold well_formed, frame_dropna. simpl. intros Hwf.
  apply Forall_fmap. eapply Forall_impl; [exact Hwf|].
  intros s Hs. simpl. apply column_len_compress.
  by rewrite length_fmap, length_seq.
Qed.

Lemma elem_of_labelled_single key F s : labelled key F = [s] → s ∈ data F ∧ name s = key.
Proof.
  intros H. assert (s ∈ labelled key F) as Hs by (rewrite H; left).
  unfold labelled in Hs. apply list_elem_of_filter in Hs as [? ?]. done.
Qed.

Lemma labelled_of_label F key :
  NoDup (labels F) → key ∈ labels F → ∃ s, labelled key F = [s] ∧ s ∈ data F.
Proof.
  intros Hnd (s & -> & Hs)%list_elem_of_fmap. exists s.
  split; [by apply labelled_unique|done].
Qed.

(** what lines 9-14 do for one column of a frame with distinct labels *)
Lemma encode_column_cases D s :
  NoDup (labels D) → s ∈ data D →
  encode_column (name s) D
  = if has_object_dtype s then
      codes ← fit_transform (ISeries s);
      if bool_decide (length codes = nrows D) then
        Ok (mkFrame (nrows D)
              (filter (λ s', name s' ≠ name s) (data D)
               ++ [mkSeries (name s) (NumCol (Some <$> codes))]))
      else Raise ValueError
    else Ok D.
Proof.
  intros Hnd Hs. unfold encode_column.
  rewrite !(frame_getitem_unique D s) by done. simpl.
  rewrite has_object_dtype_spec. destruct (has_object_dtype s); [|done].
  destruct (fit_transform (ISeries s)) as [codes|e]; [|done]. simpl.
  unfold frame_drop. rewrite labelled_unique by done. simpl.
  unfold frame_setitem. simpl. rewrite length_fmap.
  case_bool_decide; [|done].
  replace (labelled (name s)
             (mkFrame (nrows D) (filter (λ s', name s' ≠ name s) (data D))))
    with (@nil (@Series num obj)); [done|].
  symmetry. unfold labelled. simpl. apply filter_key_absent.
  intros (z & Hn & [Hne _]%list_elem_of_filter)%list_elem_of_fmap. congruence.
Qed.

Lemma count_null_codes (codes : list num) :
  count_null (NumCol (obj := obj) (Some <$> codes)) = 0.
Proof.
  unfold count_null. simpl. induction codes as [|z codes IH]; [done|].
  rewrite !fmap_cons. by rewrite filter_cons_False.
Qed.

(** the loop body for a pair of columns with unique labels, once the
    encoding has given the frame [D'] with the columns [x] and [y] under
    the two labels: the assertions of lines 62, 63 and 80 pass, and the
    outcome is that of the scoring function *)
Lemma pair_value_scored g F est m f t sf st D' x y :
  labelled f F = [sf] → labelled t F = [st] → 0 < nrows F →
  let D := frame_dropna (mkFrame (nrows F) [sf; st]) in
  encode_frame [f; t] D = Ok D' →
  labelled f D' = [x] → labelled t D' = [y] →
  count_null (values x) = 0 → count_null (values y) = 0 →
  pair_value g F est m f t
  = (score ← (if bool_decide (m = "rf") then
                match est with
                | Some e =>
                    scores ← (cross_val_score e (mkFrame (nrows D') [x])
                                (ISeries y) g).1;
                    Ok (mean scores)
                | None => Raise ReferenceError
                end
              else Ok float_zero);
     score ← (if bool_decide (m ∈ corr_methods)
              then corr_at m (mkFrame (nrows D') [x; y]) f t
              else Ok score);
     Ok (mkScore f t score,
         mkNaN f t (Z.of_nat (nrows F) - Z.of_nat (nrows D))
           (Qmake (Z.of_nat (nrows F) - Z.of_nat (nrows D))
              (Z.to_pos (Z.of_nat (nrows F)))))).
Proof.
  intros Hf Ht Hn D HD Hx Hy Hxn Hyn. subst D. unfold pair_value.
  rewrite frame_getitem_list_pair_ok by (by rewrite ?Hf, ?Ht).
  rewrite Hf, Ht. cbn [mbind res_mbind res_bind app nrows].
  unfold true_div.
  rewrite (bool_decide_eq_false_2 (Z.of_nat (nrows F) = 0%Z)) by lia.
  cbn [mbind res_mbind res_bind]. rewrite labels_dropna.
  destruct (elem_of_labelled_single _ _ _ Hf) as [_ Hnf].
  destruct (elem_of_labelled_single _ _ _ Ht) as [_ Hnt].
  unfold labels at 1. cbn [data fmap list_fmap]. rewrite Hnf, Hnt, HD.
  cbn [mbind res_mbind res_bind].
  unfold frame_getitem_list, frame_getitem. cbn [take_labels].
  rewrite Hx, Hy. cbn [mbind res_mbind res_bind app].
  unfold frame_count_null. cbn [data foldr]. rewrite Hxn.
  cbn [item_no_null]. rewrite Hyn.
  cbn [Nat.add bool_decide decide_rel assert_res mbind res_mbind res_bind].
  rewrite !(bool_decide_eq_true_2 (0 = 0)) by done.
  cbn [assert_res mbind res_mbind res_bind].
  by destruct (bool_decide (m = "rf")), (bool_decide (m ∈ corr_methods)).
Qed.

Lemma filter_two_first {A} (P : A → Prop) `{∀ a, Decision (P a)} a b :
  P a → ¬ P b → filter P [a; b] = [a].
Proof.
  intros Ha Hb. rewrite filter_cons_True by done. by rewrite filter_cons_False.
Qed.

Lemma filter_two_second {A} (P : A → Prop) `{∀ a, Decision (P a)} a b :
  ¬ P a → P b → filter P [a; b] = [b].
Proof.
  intros Ha Hb. rewrite filter_cons_False by done. by rewrite filter_cons_True.
Qed.

Lemma count_null_encoded s s' : encoded_as s s' → count_null (values s') = 0.
Proof. intros (_ & codes & _ & ->). apply count_null_codes. Qed.

(** the frame that the encoding makes of the two columns of a pair, and
    the columns then found under the two labels *)
Lemma encode_pair_frame f t sf' st' n D' :
  name sf' = f → name st' = t → f ≠ t →
  encode_frame [f; t] (mkFrame n [sf'; st']) = Ok D' →
  nrows D' = n
  ∧ ∃ x y,
      labelled f D' = [x] ∧ labelled t D' = [y]
      ∧ (if has_object_dtype sf' then encoded_as sf' x else x = sf')
      ∧ (if has_object_dtype st' then encoded_as st' y else y = st').
Proof.
  intros Hnf Hnt Hft HD.
  assert (NoDup (labels (mkFrame n [sf'; st']))) as Hnd.
  { unfold labels. simpl. rewrite Hnf, Hnt. apply NoDup_cons.
    split; [by intros ->%list_elem_of_singleton|]. apply NoDup_singleton. }
  destruct (encode_frame_data [sf'; st'] [] [] (mkFrame n [sf'; st']) D')
    as (Hr & enc & HdD & Henc & _); [done|done|by simpl; rewrite Hnf, Hnt|].
  split; [done|]. simpl in HdD. unfold labelled. rewrite HdD. clear HdD.
  rewrite !filter_cons, !filter_nil in Henc |- *.
  destruct (has_object_dtype sf') eqn:Hof, (has_object_dtype st') eqn:Hot;
    repeat case_decide; try done; simpl in Henc |- *.
  - apply Forall2_cons_inv_l in Henc as (x & enc1 & Hx & Henc & ->).
    apply Forall2_cons_inv_l in Henc as (y & enc2 & Hy & Henc & ->).
    apply Forall2_nil_inv_l in Henc as ->.
    assert (name x = f) as Hnx by (destruct Hx as [-> _]; done).
    assert (name y = t) as Hny by (destruct Hy as [-> _]; done).
    exists x, y. rewrite filter_two_first, filter_two_second by congruence. done.
  - apply Forall2_cons_inv_l in Henc as (x & enc1 & Hx & Henc & ->).
    apply Forall2_nil_inv_l in Henc as ->.
    assert (name x = f) as Hnx by (destruct Hx as [-> _]; done).
    exists x, st'. rewrite filter_two_second, filter_two_first by congruence. done.
  - apply Forall2_cons_inv_l in Henc as (y & enc1 & Hy & Henc & ->).
    apply Forall2_nil_inv_l in Henc as ->.
    assert (name y = t) as Hny by (destruct Hy as [-> _]; done).
    exists sf', y. rewrite filter_two_first, filter_two_second by congruence. done.
  - apply Forall2_nil_inv_l in Henc as ->.
    exists sf', st'. rewrite filter_two_first, filter_two_second by congruence. done.
Qed.

Lemma has_object_dtype_compress mask s :
  has_object_dtype (mkSeries (name s) (column_compress mask (values s)))
  = has_object_dtype s.
Proof. unfold has_object_dtype. simpl. by destruct (values s). Qed.


(** the steps of the loop body in the same situation: under rf they
    record the call of [cross_val_score] and advance the generator *)
Lemma pair_steps_scored est eo F m f t sf st D' x y
    (fp : rng * list (@cv_call num obj rng)) :
  labelled f F = [sf] → labelled t F = [st] → 0 < nrows F →
  let D := frame_dropna (mkFrame (nrows F) [sf; st]) in
  encode_frame [f; t] D = Ok D' →
  labelled f D' = [x] → labelled t D' = [y] →
  count_null (values x) = 0 → count_null (values y) = 0 →
  pair_steps est eo F m f t fp
  = (score ← (if bool_decide (m = "rf") then
                match eo with
                | Some e =>
                    scores ← v_cross_val_score est e (mkFrame (nrows D') [x])
                               (ISeries y);
                    mret (mean scores)
                | None => v_lift (Raise ReferenceError)
                end
              else mret float_zero);
     score ← (if bool_decide (m ∈ corr_methods)
              then v_lift (corr_at m (mkFrame (nrows D') [x; y]) f t)
              else mret score);
     mret (mkScore f t score,
           mkNaN f t (Z.of_nat (nrows F) - Z.of_nat (nrows D))
             (Qmake (Z.of_nat (nrows F) - Z.of_nat (nrows D))
                (Z.to_pos (Z.of_nat (nrows F)))))) fp.
Proof.
  intros Hf Ht Hn D HD Hx Hy Hxn Hyn. subst D. unfold pair_steps.
  rewrite frame_getitem_list_pair_ok by (by rewrite ?Hf, ?Ht).
  rewrite Hf, Ht, V_bind_lift. cbn [app nrows]. cbv zeta.
  unfold true_div.
  rewrite (bool_decide_eq_false_2 (Z.of_nat (nrows F) = 0%Z)) by lia.
  rewrite V_bind_lift, labels_dropna.
  destruct (elem_of_labelled_single _ _ _ Hf) as [_ Hnf].
  destruct (elem_of_labelled_single _ _ _ Ht) as [_ Hnt].
  unfold labels at 1. cbn [data fmap list_fmap]. rewrite Hnf, Hnt, HD.
  rewrite V_bind_lift.
  unfold frame_getitem_list, frame_getitem. cbn [take_labels].
  rewrite Hx, Hy. cbn [mbind res_mbind res_bind app].
  rewrite !V_bind_lift.
  unfold frame_count_null. cbn [data foldr]. rewrite Hxn.
  cbn [item_no_null]. rewrite Hyn.
  cbn [Nat.add]. rewrite !(bool_decide_eq_true_2 (0 = 0)) by done.
  cbn [assert_res]. rewrite !V_bind_lift.
  destruct (decide (m ∈ corr_methods)) as [Hc|Hc].
  - rewrite !(bool_decide_eq_true_2 _ Hc).
    apply V_bind_ext_fp. intros sc fp'.
    rewrite !V_bind_eq. unfold v_lift. cbn [data length].
    rewrite (bool_decide_eq_true_2 (Z.of_nat 2 = 2%Z)) by done.
    done.
  - by rewrite !(bool_decide_eq_false_2 _ Hc).
Qed.

(** the encoding of the frame of a pair fails *)
Lemma pair_steps_encode_raise est eo F m f t sf st e
    (fp : rng * list (@cv_call num obj rng)) :
  labelled f F = [sf] → labelled t F = [st] → 0 < nrows F →
  encode_frame [f; t] (frame_dropna (mkFrame (nrows F) [sf; st])) = Raise e →
  pair_steps est eo F m f t fp = (Raise e, fp).
Proof.
  intros Hf Ht Hn HD. unfold pair_steps.
  rewrite frame_getitem_list_pair_ok by (by rewrite ?Hf, ?Ht).
  rewrite Hf, Ht, V_bind_lift. cbn [app nrows]. cbv zeta.
  unfold true_div.
  rewrite (bool_decide_eq_false_2 (Z.of_nat (nrows F) = 0%Z)) by lia.
  rewrite V_bind_lift, labels_dropna.
  destruct (elem_of_labelled_single _ _ _ Hf) as [_ Hnf].
  destruct (elem_of_labelled_single _ _ _ Ht) as [_ Hnt].
  unfold labels at 1. cbn [data fmap list_fmap]. rewrite Hnf, Hnt, HD.
  by rewrite V_bind_lift.
Qed.

(** the encoding of a frame of two columns fails on one of them: the
    encoder raises, or it returns an array of another length *)
Lemma encode_pair_raise f t sf' st' n e :
  name sf' = f → name st' = t → f ≠ t →
  column_len (values sf') = n → column_len (values st') = n →
  encode_frame [f; t] (mkFrame n [sf'; st']) = Raise e →
  ∃ s, s ∈ [sf'; st'] ∧ has_object_dtype s = true
       ∧ (fit_transform (ISeries s) = Raise e
          ∨ (e = ValueError
             ∧ ∃ codes, fit_transform (ISeries s) = Ok codes
                        ∧ length codes ≠ column_len (values s))).
Proof.
  intros Hnf Hnt Hft Hlf Hlt HD.
  set (D := mkFrame n [sf'; st']) in *.
  assert (NoDup (labels D)) as Hnd.
  { unfold labels. simpl. rewrite Hnf, Hnt. apply NoDup_cons.
    split; [by intros ->%list_elem_of_singleton|]. apply NoDup_singleton. }
  assert (∀ D1 s e1, NoDup (labels D1) → s ∈ data D1 →
            nrows D1 = column_len (values s) →
            encode_column (name s) D1 = Raise e1 →
            has_object_dtype s = true
            ∧ (fit_transform (ISeries s) = Raise e1
               ∨ (e1 = ValueError
                  ∧ ∃ codes, fit_transform (ISeries s) = Ok codes
                             ∧ length codes ≠ column_len (values s)))) as Hcol.
  { intros D1 s e1 Hnd1 Hs Hlen. rewrite encode_column_cases by done.
    destruct (has_object_dtype s); [|done]. intros He. split; [done|].
    destruct (fit_transform (ISeries s)) as [codes|e2]; simpl in He.
    - case_bool_decide as Hc; [done|]. injection He as <-. right.
      split; [done|]. exists codes. split; [done|]. congruence.
    - injection He as <-. by left. }
  cbn [encode_frame] in HD.
  destruct (encode_column f D) as [G|e1] eqn:HG.
  - cbn [mbind res_mbind res_bind] in HD.
    destruct (encode_column t G) as [G'|e2] eqn:HG'; [done|].
    cbn [mbind res_mbind res_bind] in HD. injection HD as ->.
    assert (encode_frame (name <$> [sf']) D = Ok G) as HG1
      by (simpl; by rewrite Hnf, HG).
    destruct (encode_frame_data [sf'] [] [st'] D G) as (Hr & enc & HdG & _ & _);
      [done|done|done|].
    destruct (encode_column_inv _ _ _ HG) as [_ HP].
    exists st'. split; [right; left|]. rewrite <- Hnt in HG'.
    apply (Hcol G st'); [by rewrite HP| |by rewrite Hr, Hlt|done].
    rewrite HdG. simpl. apply elem_of_app. right. left.
  - cbn [mbind res_mbind res_bind] in HD. injection HD as ->.
    exists sf'. split; [left|]. rewrite <- Hnf in HG.
    apply (Hcol D sf'); [done|left|by rewrite Hlf|done].
Qed.

(** the loop body for a pair of columns with unique labels of a
    well-formed frame with rows: the encoder fails on one of the two
    columns, or the columns get scored; under rf the call is recorded and
    the generator advances as [cross_val_score] says *)
Lemma pair_steps_cases est e0 F m f t sf st
    (fp : rng * list (@cv_call num obj rng)) :
  well_formed F → labelled f F = [sf] → labelled t F = [st] → f ≠ t →
  0 < nrows F →
  let D := frame_dropna (mkFrame (nrows F) [sf; st]) in
  (∃ e s, pair_steps est (Some e0) F m f t fp = (Raise e, fp)
          ∧ s ∈ data D ∧ has_object_dtype s = true
          ∧ (fit_transform (ISeries s) = Raise e
             ∨ (e = ValueError
                ∧ ∃ codes, fit_transform (ISeries s) = Ok codes
                           ∧ length codes ≠ column_len (values s))))
  ∨ (∃ x y n, scored_as D x y
       ∧ (m = "rf" →
          pair_steps est (Some e0) F m f t fp
          = (scores ← (cross_val_score e0 (mkFrame (nrows D) [x]) (ISeries y) fp.1).1;
             Ok (mkScore f t (mean scores), n),
             ((cross_val_score e0 (mkFrame (nrows D) [x]) (ISeries y) fp.1).2,
              fp.2 ++ [mkCall est (mkFrame (nrows D) [x]) (ISeries y) fp.1])))
       ∧ (m ∈ corr_methods →
          pair_steps est (Some e0) F m f t fp
          = (sc ← corr_at m (mkFrame (nrows D) [x; y]) f t;
             Ok (mkScore f t sc, n), fp))
       ∧ (m ≠ "rf" → m ∉ corr_methods →
          pair_steps est (Some e0) F m f t fp
          = (Ok (mkScore f t float_zero, n), fp))).
Proof.
  intros Hwf Hf Ht Hft Hn D.
  destruct (elem_of_labelled_single _ _ _ Hf) as [Hsf Hnf].
  destruct (elem_of_labelled_single _ _ _ Ht) as [Hst Hnt].
  set (mask := (λ i, negb (row_isnull (mkFrame (nrows F) [sf; st]) i))
               <$> seq 0 (nrows F)).
  set (sf' := mkSeries (name sf) (column_compress mask (values sf))).
  set (st' := mkSeries (name st) (column_compress mask (values st))).
  assert (D = mkFrame (nrows D) [sf'; st']) as HDeq by reflexivity.
  destruct (encode_frame [f; t] D) as [D'|e] eqn:HD.
  - right. pose proof HD as HD1. rewrite HDeq in HD1.
    destruct (encode_pair_frame f t sf' st' _ D' Hnf Hnt Hft HD1)
      as (Hr & x & y & Hx & Hy & Hxe & Hye).
    pose proof (no_null_dropna (mkFrame (nrows F) [sf; st])) as Hnn.
    unfold no_null in Hnn. simpl in Hnn. fold mask sf' st' in Hnn.
    apply Forall_cons in Hnn as [Hnf' Hnn]. apply Forall_cons in Hnn as [Hnt' _].
    assert (count_null (values x) = 0) as Hxn.
    { destruct (has_object_dtype sf'); [by eapply count_null_encoded|by subst x]. }
    assert (count_null (values y) = 0) as Hyn.
    { destruct (has_object_dtype st'); [by eapply count_null_encoded|by subst y]. }
    pose proof (pair_steps_scored est (Some e0) F m f t sf st D' x y fp
                  Hf Ht Hn HD Hx Hy Hxn Hyn) as Hps.
    rewrite Hr in Hps. fold D in Hps.
    exists x, y,
      (mkNaN f t (Z.of_nat (nrows F) - Z.of_nat (nrows D))
         (Qmake (Z.of_nat (nrows F) - Z.of_nat (nrows D))
            (Z.to_pos (Z.of_nat (nrows F))))).
    split; [by exists sf', st'|]. split; [|split].
    + intros Hrf. rewrite Hps, (bool_decide_eq_true_2 _ Hrf).
      rewrite (bool_decide_eq_false_2 (m ∈ corr_methods))
        by (by intros ?%corr_method_not_rf).
      rewrite !V_bind_eq. unfold v_cross_val_score.
      by destruct (cross_val_score e0 _ _ fp.1).1.
    + intros Hc. rewrite Hps, (bool_decide_eq_true_2 _ Hc).
      rewrite (bool_decide_eq_false_2 (m = "rf")) by (by apply corr_method_not_rf).
      rewrite !V_bind_eq. unfold v_lift.
      by destruct (corr_at m _ f t).
    + intros Hrf Hc. by rewrite Hps, !bool_decide_eq_false_2.
  - left. exists e. pose proof HD as HD1. rewrite HDeq in HD1.
    unfold well_formed in Hwf. rewrite Forall_forall in Hwf.
    destruct (encode_pair_raise f t sf' st' (nrows D) e Hnf Hnt Hft)
      as (s & Hs & Hobj & Hfail); [..|exact HD1|].
    { simpl. apply column_len_compress. rewrite Hwf by done.
      by rewrite length_fmap, length_seq. }
    { simpl. apply column_len_compress. rewrite Hwf by done.
      by rewrite length_fmap, length_seq. }
    exists s. split; [by apply (pair_steps_encode_raise _ _ _ _ _ _ sf st)|].
    done.
Qed.

End Outcome.

(** ** Exceptions and results of [discover] *)

Section Exceptions.
Context {num obj rng : Type} {lib : @Library num obj rng}.
Implicit Types (w : @world num obj rng) (F G D : @DataFrame num obj)
  (s sf st : @Series num obj) (fp : rng * list (@cv_call num obj rng)).

Lemma discover_steps_raise_inv (em : gmap string ref) F ov m seed flag fp e :
  m ∈ known_methods →
  (discover_steps em F ov m seed flag fp).1 = Raise e →
  (mapM_v (pairs_steps em F (default [] ov) m seed)
     (ordered_pairs (labels F)) fp).1 = Raise e.
Proof.
  intros Hm. rewrite discover_steps_known by done.
  destruct (mapM_v _ _ _) as [[rows|e'] fp']; simpl; [by intros [=]|by intros [= ->]].
Qed.

(** a call of [discover] that raises, on a well-formed dataset with
    distinct labels: where the exception comes from *)
Lemma discover_raise_inv df ov m seed flag F w e :
  frames w !! df = Some F → NoDup (labels F) → well_formed F →
  (discover df ov m seed flag w).1 = Raise e →
  (e = AssertionError ("Expecting method to be one of: " +:+ repr_list known_methods)
   ∧ m ∉ known_methods)
  ∨ (e = ZeroDivisionError ∧ nrows F = 0)
  ∨ (0 < nrows F
     ∧ ∃ f t D,
         pair_frame F f t D
         ∧ ((∃ s, s ∈ data D ∧ has_object_dtype s = true
                  ∧ fit_transform (ISeries s) = Raise e)
            ∨ (e = ValueError
               ∧ ∃ s codes, s ∈ data D ∧ has_object_dtype s = true
                            ∧ fit_transform (ISeries s) = Ok codes
                            ∧ length codes ≠ column_len (values s))
            ∨ (m = "rf"
               ∧ ∃ x y c,
                   scored_as D x y
                   ∧ last (cv_calls (discover df ov m seed flag w).2) = Some c
                   ∧ call_X c = mkFrame (nrows D) [x] ∧ call_y c = ISeries y
                   ∧ estimators (discover df ov m seed flag w).2 !! call_est c
                     = Some (estimator_for (default [] ov) seed t)
                   ∧ (cross_val_score (estimator_for (default [] ov) seed t)
                        (mkFrame (nrows D) [x]) (ISeries y) (call_rng c)).1
                     = Raise e)
            ∨ (m ∈ corr_methods
               ∧ ∃ x y, scored_as D x y
                        ∧ corr_at m (mkFrame (nrows D) [x; y]) f t = Raise e))).
Proof.
  intros Hdf Hnd Hwf Hv.
  destruct (decide (m ∈ known_methods)) as [Hm|Hm].
  2:{ left. rewrite discover_invalid_method in Hv by done. by injection Hv as <-. }
  right.
  destruct (build_estimator_mapping_run (labels F) (default [] ov) seed w)
    as (em & Hbuild & Hb & Hdom & _).
  destruct (discover_run df ov m seed flag F w Hdf Hm)
    as (em' & w' & Hbuild' & Hrun & Hev).
  rewrite Hbuild in Hbuild'. injection Hbuild' as <-.
  rewrite Hrun in Hv |- *. cbn [fst snd] in Hv |- *.
  pose proof (ev_footprint _ _ _ Hev) as Hfp.
  pose proof (ev_estimators _ _ _ Hev) as Hes.
  rewrite discover_steps_snd in Hfp by done.
  apply discover_steps_raise_inv in Hv; [|done].
  apply mapM_v_raise_inv in Hv as ([f t] & fp' & Hin & Hr & Hfp2).
  rewrite Hfp2 in Hfp. clear Hfp2.
  apply elem_of_ordered_pairs_NoDup in Hin as (Hf & Ht & Hft); [|done].
  destruct (labelled_of_label F f Hnd Hf) as (sf & Hsf & _).
  destruct (labelled_of_label F t Hnd Ht) as (st & Hst & _).
  unfold pairs_steps in Hr, Hfp.
  destruct (decide (nrows F = 0)) as [H0|H0].
  { left. split; [|done].
    rewrite pair_steps_value, pair_value_zero_rows in Hr by done.
    by injection Hr as <-. }
  right. split; [lia|].
  set (D := frame_dropna (mkFrame (nrows F) [sf; st])).
  exists f, t, D. split; [by exists sf, st|].
  destruct (proj2 (Hdom t) Ht) as [r Hem].
  assert (default 0 (em !! t) = r) as Hr0 by (unfold ref in *; by rewrite Hem).
  rewrite Hr0 in Hr, Hfp.
  destruct (pair_steps_cases r (estimator_for (default [] ov) seed t) F m f t sf st fp')
    as [(e1 & s & Hps & Hs & Hobj & Hfail)|(x & y & n & Hsc & Hrf & Hcorr & Hnone)];
    [done|done|done|done|lia|..].
  - rewrite Hps in Hr. injection Hr as ->.
    destruct Hfail as [Hfail|(-> & codes & Hcodes & Hlen)].
    + left. by exists s.
    + right. left. split; [done|]. by exists s, codes.
  - fold D in Hsc, Hrf, Hcorr, Hnone. right. right.
    destruct (decide (m = "rf")) as [Hm1|Hm1].
    + left. split; [done|]. rewrite (Hrf Hm1) in Hr, Hfp. cbn [fst snd] in Hr, Hfp.
      exists x, y, (mkCall r (mkFrame (nrows D) [x]) (ISeries y) fp'.1).
      split; [done|]. unfold footprint in Hfp. injection Hfp as _ Hcalls.
      split; [rewrite Hcalls; apply last_snoc|]. split; [done|]. split; [done|].
      split; [rewrite Hes; by apply Hb|]. cbn [call_rng].
      destruct (cross_val_score _ _ _ fp'.1).1 as [scores|e2];
        cbn [mbind res_mbind res_bind] in Hr; [done|by injection Hr as ->].
    + right. destruct (decide (m ∈ corr_methods)) as [Hc|Hc].
      * split; [done|]. exists x, y. split; [done|].
        rewrite (Hcorr Hc) in Hr. cbn [fst] in Hr.
        destruct (corr_at m _ f t) as [sc|e2];
          cbn [mbind res_mbind res_bind] in Hr; [done|by injection Hr as ->].
      * by rewrite (Hnone Hm1 Hc) in Hr.
Qed.

(** X10: the exceptions of [discover] on a well-formed dataset with
    distinct column labels.  A call that raises failed the check of the
    method, or divided by the row count zero, or failed in the loop body
    for a pair of columns (f, t), on the frame [D] of the two columns
    without the rows that hold a missing value: the exception is the one
    that the encoder raised for a column of [D] of dtype ['O']; or it is
    the [ValueError] of line 14, the encoder having returned for such a
    column an array of another length; or, under rf, it is the one that
    [cross_val_score] raised in the last call that the run recorded, made
    with the estimator built for [t], the encoded columns of [D] and the
    generator in the state that the run had reached; or, with a
    correlation method, it is the one that [corr] raised for the encoded
    columns of [D]. *)
Theorem discover_exceptions df ov m seed flag F w e :
  frames w !! df = Some F → NoDup (labels F) → well_formed F →
  (discover df ov m seed flag w).1 = Raise e →
  (e = AssertionError ("Expecting method to be one of: " +:+ repr_list known_methods)
   ∧ m ∉ known_methods)
  ∨ (e = ZeroDivisionError ∧ nrows F = 0)
  ∨ (∃ f t D,
       pair_frame F f t D
       ∧ ((∃ s, s ∈ data D ∧ has_object_dtype s = true
                ∧ fit_transform (ISeries s) = Raise e)
          ∨ (e = ValueError
             ∧ ∃ s codes, s ∈ data D ∧ has_object_dtype s = true
                          ∧ fit_transform (ISeries s) = Ok codes
                          ∧ length codes ≠ column_len (values s))
          ∨ (m = "rf"
             ∧ ∃ x y c,
                 scored_as D x y
                 ∧ last (cv_calls (discover df ov m seed flag w).2) = Some c
                 ∧ call_X c = mkFrame (nrows D) [x] ∧ call_y c = ISeries y
                 ∧ estimators (discover df ov m seed flag w).2 !! call_est c
                   = Some (estimator_for (default [] ov) seed t)
                 ∧ (cross_val_score (estimator_for (default [] ov) seed t)
                      (call_X c) (call_y c) (call_rng c)).1 = Raise e)
          ∨ (m ∈ corr_methods
             ∧ ∃ x y, scored_as D x y
                      ∧ corr_at m (mkFrame (nrows D) [x; y]) f t = Raise e))).
Proof.
  intros Hdf Hnd Hwf Hv.
  destruct (discover_raise_inv df ov m seed flag F w e Hdf Hnd Hwf Hv)
    as [H|[H|(_ & f & t & D & HD & H)]]; [by left|by right; left|].
  right. right. exists f, t, D. split; [done|].
  destruct H as [H|[H|[(Hrf & x & y & c & Hsc & Hlast & HX & Hy & Hest & Hcv)|H]]];
    [by left|by right; left| |by right; right; right].
  right. right. left. split; [done|]. exists x, y, c.
  rewrite HX, Hy. done.
Qed.

(** X11: [discover] returns a result for a known method on a well-formed
    dataset with distinct column labels and at least one row, when the
    library calls that the run makes return: the encoder on the columns of
    dtype ['O'] of the frames of the pairs, with one code for each value;
    under rf, [cross_val_score] for the estimator built for the target and
    the encoded columns of each pair; with a correlation method, [corr]
    for the encoded columns of each pair. *)
Theorem discover_returns df ov m seed flag F w :
  frames w !! df = Some F → NoDup (labels F) → well_formed F →
  0 < nrows F → m ∈ known_methods →
  (∀ f t D s, pair_frame F f t D → s ∈ data D → has_object_dtype s = true →
     ∃ codes, fit_transform (ISeries s) = Ok codes
              ∧ length codes = column_len (values s)) →
  (m = "rf" → ∀ f t D x y g, pair_frame F f t D → scored_as D x y →
     is_Ok (cross_val_score (estimator_for (default [] ov) seed t)
              (mkFrame (nrows D) [x]) (ISeries y) g).1) →
  (m ∈ corr_methods → ∀ f t D x y, pair_frame F f t D → scored_as D x y →
     is_Ok (corr_at m (mkFrame (nrows D) [x; y]) f t)) →
  ∃ v, (discover df ov m seed flag w).1 = Ok v.
Proof.
  intros Hdf Hnd Hwf Hn Hm Henc Hcv Hcorr.
  destruct (discover df ov m seed flag w).1 as [v|e] eqn:Hv; [by exists v|].
  exfalso.
  destruct (discover_raise_inv df ov m seed flag F w e Hdf Hnd Hwf Hv)
    as [[_ H]|[[_ H]|(_ & f & t & D & HD & H)]]; [done|lia|].
  destruct H as [(s & Hs & Hobj & Hr)
                |[(_ & s & codes & Hs & Hobj & Hok & Hlen)
                 |[(Hrf & x & y & c & Hsc & _ & _ & _ & _ & Hr)
                  |(Hc & x & y & Hsc & Hr)]]].
  - destruct (Henc f t D s HD Hs Hobj) as (codes & Hok & _). congruence.
  - destruct (Henc f t D s HD Hs Hobj) as (codes' & Hok' & Hl). congruence.
  - destruct (Hcv Hrf f t D x y (call_rng c) HD Hsc) as [a Ha]. congruence.
  - destruct (Hcorr Hc f t D x y HD Hsc) as [a Ha]. congruence.
Qed.

End Exceptions.

Section Scores.
Context {num obj rng : Type} {lib : @Library num obj rng}.
Implicit Types (w : @world num obj rng) (F G D : @DataFrame num obj)
  (s sf st : @Series num obj).

(** X9: what gets scored for a pair.  When the loop body returns for the
    columns [sf] and [st] labelled [f] and [t], the score it appends is
    computed from these two columns without the rows in which one of them
    has a missing value, a column of dtype ['O'] replaced by the codes of
    the encoder: with [rf] it is the mean of the scores that
    [cross_val_score] gives for the estimator, the one-column frame of the
    feature and the target series, with the random generator in the state
    in which the loop body found it; with a correlation method it is the
    entry that [corr] gives for the frame of the two columns. *)
Theorem scored_columns df est e m f t ds ni ds' ni' w F sf st :
  frames w !! df = Some F →
  estimators w !! est = Some e →
  labelled f F = [sf] → labelled t F = [st] →
  (discover_pair df est m f t (ds, ni) w).1 = Ok (ds', ni') →
  let D := frame_dropna (mkFrame (nrows F) [sf; st]) in
  ∃ sf' st' x y sc,
    data D = [sf'; st']
    ∧ (if has_object_dtype sf then encoded_as sf' x else x = sf')
    ∧ (if has_object_dtype st then encoded_as st' y else y = st')
    ∧ ds' = ds ++ [mkScore f t sc]
    ∧ (m = "rf" →
       ∃ scores, (cross_val_score e (mkFrame (nrows D) [x]) (ISeries y)
                    (rng_state w)).1 = Ok scores
                 ∧ sc = mean scores)
    ∧ (m ∈ corr_methods → corr_at m (mkFrame (nrows D) [x; y]) f t = Ok sc).
Proof.
  intros Hdf Hest Hf Ht Hok D.
  rewrite (discover_pair_fst df est F) in Hok by done. rewrite Hest in Hok.
  destruct (pair_value (rng_state w) F (Some e) m f t) as [[d n]|e0] eqn:Hpv; [|done].
  simpl in Hok. injection Hok as <- <-.
  destruct (pair_value_unique _ _ _ _ _ _ _ _ Hpv) as (Hft & _).
  destruct (pair_value_nan _ _ _ _ _ _ _ _ _ _ Hpv Hf Ht) as (_ & Hn & _).
  destruct (pair_value_inv _ _ _ _ _ _ _ _ Hpv) as (D' & pct & sc0 & _ & _ & _ & HD & _).
  destruct (elem_of_labelled_single _ _ _ Hf) as [_ Hnf].
  destruct (elem_of_labelled_single _ _ _ Ht) as [_ Hnt].
  rewrite Hf, Ht in HD. unfold labels in HD. simpl in HD.
  rewrite Hnf, Hnt in HD.
  set (mask := (λ i, negb (row_isnull (mkFrame (nrows F) [sf; st]) i))
               <$> seq 0 (nrows F)) in *.
  set (sf' := mkSeries (name sf) (column_compress mask (values sf))) in *.
  set (st' := mkSeries (name st) (column_compress mask (values st))) in *.
  destruct (encode_pair_frame f t sf' st' _ D' Hnf Hnt Hft HD)
    as (Hr & x & y & Hx & Hy & Hxe & Hye).
  unfold sf' in Hxe at 1. unfold st' in Hye at 1.
  rewrite has_object_dtype_compress in Hxe, Hye.
  pose proof (no_null_dropna (mkFrame (nrows F) [sf; st])) as Hnn.
  unfold no_null in Hnn. simpl in Hnn. fold mask sf' st' in Hnn.
  apply Forall_cons in Hnn as [Hnf' Hnn]. apply Forall_cons in Hnn as [Hnt' _].
  assert (count_null (values x) = 0) as Hxn.
  { destruct (has_object_dtype sf); [by eapply count_null_encoded|by subst x]. }
  assert (count_null (values y) = 0) as Hyn.
  { destruct (has_object_dtype st); [by eapply count_null_encoded|by subst y]. }
  rewrite (pair_value_scored (rng_state w) F (Some e) m f t sf st D' x y) in Hpv
    by (done || lia).
  rewrite Hr in Hpv. fold D in Hpv.
  exists sf', st', x, y, (score d). split; [done|]. split; [done|]. split; [done|].
  change (length (filter (λ b, b = true) mask)) with (nrows D) in Hpv.
  destruct (decide (m = "rf")) as [Hrf|Hrf].
  - rewrite (bool_decide_eq_true_2 _ Hrf) in Hpv.
    rewrite (bool_decide_eq_false_2 (m ∈ corr_methods)) in Hpv
      by (by intros ?%corr_method_not_rf).
    destruct (cross_val_score e _ _ _).1 as [scores|e1] eqn:Hcv; [|done].
    cbn [mbind res_mbind res_bind] in Hpv. injection Hpv as <- _.
    split; [done|]. split.
    + intros _. by exists scores.
    + by intros ?%corr_method_not_rf.
  - rewrite (bool_decide_eq_false_2 _ Hrf) in Hpv.
    cbn [mbind res_mbind res_bind] in Hpv. split; [|split; [done|]].
    + destruct (if bool_decide (m ∈ corr_methods) then _ else _)
        as [sc|e2] in Hpv; [|done].
      cbn [mbind res_mbind res_bind] in Hpv. by injection Hpv as <- _.
    + intros Hc. rewrite (bool_decide_eq_true_2 _ Hc) in Hpv.
      destruct (corr_at m _ f t) as [sc|e2] eqn:Hcorr; [|done].
      cbn [mbind res_mbind res_bind] in Hpv. by injection Hpv as <- _.
Qed.

End Scores.

(** * The theorems at concrete inputs *)

Import Example.

Lemma discover_rows_witness :
  ∃ v, (discover (lib := toy) 0 None "rf" None false (store X)).1 = Ok v
       ∧ length (results_of v) = 3 * (3 - 1)
       ∧ Forall (λ d, feature d ≠ target d) (results_of v).
Proof.
  destruct (discover (lib := toy) 0 None "rf" None false (store X)).1 as [v|e] eqn:Hv;
    [|vm_compute in Hv; discriminate].
  exists v. split; [reflexivity|].
  destruct (discover_rows (lib := toy) 0 None "rf" None false X (store X) v eq_refl Hv)
    as (_ & _ & Hlen & Hne & _).
  split; [exact Hlen|exact Hne].
Defined.

Lemma discover_method_check_witness :
  discover (lib := toy) 0 None "cosine" None false (store X)
  = (Raise (AssertionError
       "Expecting method to be one of: ['pearson', 'spearman', 'kendall', 'rf']"),
     store X).
Proof.
  apply (discover_method_check (lib := toy) 0 None "cosine" None false (store X)).
  vm_compute. intros H. repeat (apply elem_of_cons in H as [[=]|H]). by apply elem_of_nil in H.
Defined.

Lemma nan_info_one_missing_counterexample :
  ∃ v ni r,
    (discover (lib := toy) 0 None "pearson" None true (store X_two_missing)).1 = Ok v
    ∧ nan_info_of v = Some ni
    ∧ r ∈ ni ∧ nan_feature r = "a" ∧ nan_target r = "b"
    ∧ count_null (NumCol (obj := string) [None; Some 1; Some 2]%Z) = 1
    ∧ n_dropped_na r = 2%Z
    ∧ n_dropped_na r ≠ 1%Z
    ∧ pct_dropped_na r ≠ Qmake 1 3.
Proof.
  eexists _, _, _. split; [vm_compute; reflexivity|]. split; [reflexivity|].
  split; [right; left|]. do 4 (split; [reflexivity|]). split; discriminate.
Defined.

Lemma nan_info_record_witness :
  ∃ v ni r,
    (discover (lib := toy) 0 None "kendall" None true (store X)).1 = Ok v
    ∧ nan_info_of v = Some ni
    ∧ filter (λ r, nan_feature r = "a" ∧ nan_target r = "b") ni = [r]
    ∧ n_dropped_na r = 1%Z
    ∧ pct_dropped_na r = Qmake 1 4.
Proof.
  destruct (discover (lib := toy) 0 None "kendall" None true (store X)).1 as [v|e] eqn:Hv;
    [|vm_compute in Hv; discriminate].
  assert (H0 : frames (store X) !! 0 = Some X) by reflexivity.
  assert (H1 : 0 < nrows X) by (simpl; lia).
  assert (H2 : "a" ∈ labels X) by compute_done.
  assert (H3 : "b" ∈ labels X) by compute_done.
  assert (H4 : "a" ≠ "b") by discriminate.
  pose proof (nan_info_record (lib := toy) 0 None "kendall" None X (store X) v
                "a" "b" H0 H1 Hv H2 H3 H4) as H.
  clear Hv H0 H2 H3 H4.
  destruct H as (ni & r & sf & st & Hni & Hsf & Hst & Hr & _ & _ & _ & _ & _ & Hone).
  injection Hsf as <-. injection Hst as <-.
  assert (Hc : cell_isnull (obj := string) (NumCol [None; Some 1; Some 1; Some 1]%Z) 0 = true)
    by reflexivity.
  destruct (Hone 0 H1 Hc) as [Hd Hp].
  { intros [|[|[|[|j]]]] Hj Hne; simpl in Hj; try lia; by vm_compute. }
  exists v, ni, r. split; [reflexivity|]. split; [exact Hni|].
  split; [exact Hr|]. split; [exact Hd|exact Hp].
Defined.

Lemma estimator_bindings_witness :
  ∃ em w1,
    build_estimator_mapping ["a"; "b"; "c"] ["c"; "e"] (Some 7%Z) (store X)
    = (Ok em, w1)
    ∧ estimators w1
      = [RandomForestRegressor 50 (Some 7%Z); RandomForestRegressor 50 (Some 7%Z);
         RandomForestClassifier 50 (Some 7%Z)]
    ∧ estimators
        (discover (lib := toy) 0 (Some ["c"; "e"]) "rf" (Some 7%Z) false (store X)).2
      = estimators w1
    ∧ length (cv_calls
        (discover (lib := toy) 0 (Some ["c"; "e"]) "rf" (Some 7%Z) false (store X)).2)
      = 6.
Proof.
  destruct (estimator_bindings (lib := toy) 0 (Some ["c"; "e"]) "rf" (Some 7%Z) false
              X (store X))
    as (em & w1 & Hbuild & Hest & _ & _ & _ & Hsame & calls & Hcalls & _ & _ & Hrf);
    [reflexivity|compute_done|].
  exists em, w1. split; [exact Hbuild|]. split; [exact Hest|]. split; [exact Hsame|].
  destruct (Hrf eq_refl) as (k & _ & Hpairs & Hok).
  assert (Hk : k = 6).
  { apply Hok. eexists. vm_compute. reflexivity. }
  apply Forall2_length in Hpairs. rewrite Hk in Hpairs.
  rewrite Hcalls. simpl. rewrite <- Hpairs. reflexivity.
Defined.



Lemma overrides_outside_columns_ignored_witness :
  discover (lib := toy) 0 (Some ["c"; "e"]) "rf" None true (store X)
  = discover (lib := toy) 0 (Some ["c"]) "rf" None true (store X).
Proof.
  exact (overrides_outside_columns_ignored (lib := toy) 0 ["c"; "e"] "rf" None true
           X (store X) eq_refl).
Defined.

Lemma zero_rows_division_witness :
  (discover (lib := toy) 0 None "rf" None false (store X_empty)).1
  = Raise ZeroDivisionError.
Proof.
  destruct (zero_rows_division (lib := toy) 0 None "rf" None false X_empty
              (store X_empty)) as (_ & H & _); [reflexivity|reflexivity|simpl; lia|].
  apply H. compute_done.
Defined.

Lemma discover_keeps_dataset_witness :
  frames (discover (lib := toy) 0 None "rf" None true (store X)).2 !! 0 = Some X.
Proof.
  by destruct (discover_keeps_dataset (lib := toy) 0 None "rf" None true X (store X)
                 eq_refl) as [H _].
Defined.

Lemma correlation_ignores_estimators_witness :
  (discover (lib := toy) 0 (Some ["a"]) "kendall" (Some 1%Z) false (store X)).1
  = (discover (lib := toy) 0 None "kendall" None false (store X)).1.
Proof.
  destruct (correlation_ignores_estimators (lib := toy) 0 (Some ["a"]) None "kendall"
              (Some 1%Z) None false X (store X)) as [H _]; [reflexivity|compute_done|].
  exact H.
Defined.

Import Datasets.

Lemma labelencode_if_object_result_witness :
  ∃ r' G,
    (labelencode_if_object (lib := toy) 0 (store X)).1 = Ok r'
    ∧ frames (labelencode_if_object (lib := toy) 0 (store X)).2 !! r' = Some G
    ∧ nrows G = 4.
Proof.
  destruct (labelencode_if_object (lib := toy) 0 (store X)).1 as [r'|e] eqn:Hr;
    [|vm_compute in Hr; discriminate].
  destruct (labelencode_if_object_result (lib := toy) 0 X (store X) r' eq_refl Hr)
    as (_ & G & enc & HG & Hrows & _).
  exists r', G. split; [reflexivity|]. split; [exact HG|exact Hrows].
Defined.

Lemma labelencode_if_object_numeric_witness :
  labelencode_if_object (lib := toy) 0 (store X_two_missing)
  = (Ok 0, store X_two_missing).
Proof.
  apply (labelencode_if_object_numeric (lib := toy) 0 X_two_missing
           (store X_two_missing)); [reflexivity|compute_done|].
  repeat constructor.
Defined.

Lemma labelencode_if_object_idempotent_witness :
  ∃ r',
    (labelencode_if_object (lib := toy) 0 (store X)).1 = Ok r'
    ∧ labelencode_if_object (lib := toy) r'
        (labelencode_if_object (lib := toy) 0 (store X)).2
      = (Ok r', (labelencode_if_object (lib := toy) 0 (store X)).2).
Proof.
  destruct (labelencode_if_object (lib := toy) 0 (store X)).1 as [r'|e] eqn:Hr;
    [|vm_compute in Hr; discriminate].
  exists r'. split; [reflexivity|].
  exact (labelencode_if_object_idempotent (lib := toy) 0 X (store X) r' eq_refl Hr).
Defined.

Lemma discover_needs_distinct_labels_witness :
  (discover_pair (lib := toy) 0 0 "pearson" "a" "b" ([], []) (store X_repeated)).1
  = Raise AttributeError.
Proof.
  destruct (discover_needs_distinct_labels (lib := toy) 0 None "pearson" None false
              X_repeated (store X_repeated) eq_refl) as [_ H].
  apply (H 0 ([], []) "a" "b"); [simpl; lia|simpl; lia|compute_done].
Defined.

Lemma discover_fewer_than_two_columns_witness :
  discover (lib := toy) 0 None "rf" None true (store X_single)
  = (Ok (ResultsAndNaN [] []),
     mkWorld [X_single] [RandomForestRegressor 50 None] [] 0%Z).
Proof.
  apply (discover_fewer_than_two_columns (lib := toy) 0 None "rf" None true
           X_single (store X_single)); [reflexivity|simpl; lia|compute_done].
Defined.

Lemma nan_info_rows_align_witness :
  ∃ ds ni,
    (discover (lib := toy) 0 None "rf" None true (store X)).1
    = Ok (ResultsAndNaN ds ni)
    ∧ length ni = length ds.
Proof.
  destruct (discover (lib := toy) 0 None "rf" None true (store X)).1 as [v|e] eqn:Hv;
    [|vm_compute in Hv; discriminate].
  destruct (nan_info_rows_align (lib := toy) 0 None "rf" None X (store X) v eq_refl Hv)
    as (ds & ni & Hres & Hlen & _).
  exists ds, ni. split; [exact (f_equal Ok Hres)|exact Hlen].
Defined.

Lemma nan_info_symmetric_witness :
  ∃ ds ni r1 r2,
    (discover (lib := toy) 0 None "pearson" None true (store X)).1
    = Ok (ResultsAndNaN ds ni)
    ∧ ni !! 0 = Some r1 ∧ ni !! 2 = Some r2
    ∧ nan_feature r1 = "b" ∧ nan_target r1 = "a"
    ∧ nan_feature r2 = "a" ∧ nan_target r2 = "b"
    ∧ n_dropped_na r2 = n_dropped_na r1
    ∧ pct_dropped_na r2 = pct_dropped_na r1.
Proof.
  eexists _, _, _, _. split; [vm_compute; reflexivity|].
  do 6 (split; [reflexivity|]).
  eapply (nan_info_symmetric (lib := toy) 0 None "pearson" None X (store X));
    [reflexivity|vm_compute; reflexivity|left|do 2 right; left
    |reflexivity|reflexivity].
Defined.

Lemma discover_raises_when_a_pair_raises_witness :
  ∃ e', (discover (lib := toy) 0 None "rf" None false (store X_two_missing)).1
        = Raise e'.
Proof.
  apply (discover_raises_when_a_pair_raises (lib := toy) 0 None "rf" None false
           X_two_missing (store X_two_missing)
           0 0 ([], []) (store_with_estimator X_two_missing) 0 1 "a" "b" ValueError);
    [reflexivity|reflexivity|reflexivity|lia|reflexivity|reflexivity
    |vm_compute; reflexivity|].
  intros _ _ g [v Hv]. vm_compute in Hv. discriminate.
Defined.

Lemma scored_columns_witness :
  ∃ ds' ni' sc,
    (discover_pair (lib := toy) 0 0 "pearson" "a" "c" ([], [])
       (store_with_estimator X)).1 = Ok (ds', ni')
    ∧ ds' = [mkScore "a" "c" sc].
Proof.
  destruct (discover_pair (lib := toy) 0 0 "pearson" "a" "c" ([], [])
              (store_with_estimator X)).1 as [[ds' ni']|e] eqn:Hp;
    [|vm_compute in Hp; discriminate].
  destruct (scored_columns (lib := toy) 0 0 (RandomForestRegressor 50 None)
              "pearson" "a" "c" [] [] ds' ni' (store_with_estimator X) X
              (mkSeries "a" (NumCol [None; Some 1; Some 1; Some 1]%Z))
              (mkSeries "c" (ObjCol [Some "x"; Some "y"; Some "x"; Some "z"]))
              eq_refl eq_refl eq_refl eq_refl Hp)
    as (sf' & st' & x & y & sc & _ & _ & _ & Hds & _).
  exists ds', ni', sc. split; [reflexivity|exact Hds].
Defined.

Lemma discover_exceptions_witness :
  (discover (lib := toy) 0 None "rf" None false (store X_two_missing)).1
  = Raise ValueError
  ∧ ∃ t c,
      last (cv_calls
              (discover (lib := toy) 0 None "rf" None false (store X_two_missing)).2)
      = Some c
      ∧ (cross_val_score (Library := toy) (estimator_for [] None t)
           (call_X c) (call_y c) (call_rng c)).1 = Raise ValueError.
Proof.
  split; [vm_compute; reflexivity|].
  destruct (discover_exceptions (lib := toy) 0 None "rf" None false X_two_missing
              (store X_two_missing) ValueError)
    as [[H _]|[[H _]|(f & t & D & _ & H)]];
    [reflexivity|compute_done|repeat constructor|vm_compute; reflexivity
    |discriminate H|discriminate H|].
  destruct H as [(s & _ & _ & H)|[(_ & s & codes & _ & _ & H & Hlen)|[H|[H _]]]].
  - destruct s as [n [xs|xs]]; discriminate H.
  - exfalso. apply Hlen. destruct s as [n [xs|xs]]; simpl in H; injection H as <-;
      simpl; unfold encode; by rewrite ?length_fmap, ?length_seq.
  - destruct H as (_ & x & y & c & _ & Hlast & _ & _ & _ & Hcv).
    exists t, c. split; [exact Hlast|exact Hcv].
  - exfalso. revert H. clear. intros H.
    repeat (apply elem_of_cons in H as [H|H]; [discriminate H|]).
    by apply elem_of_nil in H.
Defined.

Lemma discover_returns_witness :
  ∃ v, (discover (lib := toy) 0 None "rf" None true (store X)).1 = Ok v.
Proof.
  apply (discover_returns (lib := toy) 0 None "rf" None true X (store X));
    [reflexivity|compute_done|repeat constructor|simpl; lia|compute_done| | |].
  - intros f t D [n [xs|xs]] _ _ _; eexists; (split; [reflexivity|]); simpl;
      unfold encode; by rewrite ?length_fmap, ?length_seq.
  - intros _ f t D x y g (sf & st & Hsf & Hst & _ & ->) _.
    assert (Hrows : ¬ nrows (frame_dropna (mkFrame (nrows X) [sf; st])) < 3).
    { apply elem_of_labelled_single in Hsf as [Hsf _].
      apply elem_of_labelled_single in Hst as [Hst _].
      apply list_elem_of_In in Hsf, Hst. simpl in Hsf, Hst.
      destruct Hsf as [<-|[<-|[<-|[]]]], Hst as [<-|[<-|[<-|[]]]];
        vm_compute; lia. }
    change (is_Ok (toy_cross_val_score (estimator_for [] None t)
                     (mkFrame (nrows (frame_dropna (mkFrame (nrows X) [sf; st]))) [x])
                     (ISeries y) g).1).
    unfold toy_cross_val_score. cbn [nrows] in Hrows |- *.
    rewrite (bool_decide_eq_false_2 _ Hrows).
    destruct (seed_of _); by eexists.
  - intros H. exfalso. revert H. clear. intros H.
    repeat (apply elem_of_cons in H as [H|H]; [discriminate H|]).
    by apply elem_of_nil in H.
Defined.
